(** * RollExpr: a shallow embedding of the dice-expression engine

    The development follows the TypeScript sources: the AST node family
    (Literal, Reference, Roll, Operation), the evaluator [calc], the
    simplifier [simplify] with [mergeLeft], the printer [toString], the
    regular-expression lexer [tokenize] and the recursive-descent parser
    [parse].

    JavaScript numbers are abstracted by the class [Number]; two models are
    given: [float64], IEEE-754 binary64 as specified by [SpecFloat] (what the
    program runs on), and [xnum], exact rational arithmetic extended with the
    IEEE special values (no rounding). *)

From Stdlib Require Import ZArith QArith Qcanon Qround Lia Ascii List Bool.
From Stdlib Require Import Floats.SpecFloat.
From stdpp Require Import gmap strings.

Local Open Scope Z_scope.

(** ** Numbers *)

(** The operations of the JavaScript [number] type that the program uses. *)
Class Number := {
  num : Type;
  nadd : num -> num -> num;            (* a + b *)
  nsub : num -> num -> num;            (* a - b *)
  nmul : num -> num -> num;            (* a * b *)
  ndiv : num -> num -> num;            (* a / b *)
  n_eq : num -> num -> bool;           (* a === b *)
  n_gt : num -> num -> bool;           (* a > b *)
  nfloor : num -> num;                 (* Math.floor(a) *)
  nmax : num -> num -> num;            (* Math.max(a, b) *)
  nmin : num -> num -> num;            (* Math.min(a, b) *)
  n_inf : num;                         (* Infinity *)
  n_neg_inf : num;                     (* -Infinity *)
  n_of_N : N -> num                    (* Number(digits) for a digit string *)
}.

(** The textual side of numbers: [Number.prototype.toString] and
    [Number(text)] on the texts that the lexer hands over. *)
Class NumberText (NUM : Number) := {
  to_string : num -> string;
  of_literal : string -> num
}.

(** ** The AST *)

(** type Operator = '+' | '-' | '*' | '/' *)
Inductive Operator := Add | Sub | Mul | Div.

(** type Punctuation = Operator | '(' | ')' *)
Inductive Punctuation := POp (o : Operator) | LParen | RParen.

(** type DiceMod = 'h' | 'l' *)
Inductive DiceMod := KeepHigh | KeepLow.

Global Instance Operator_eq_dec : EqDecision Operator.
Proof. solve_decision. Defined.
Global Instance Punctuation_eq_dec : EqDecision Punctuation.
Proof. solve_decision. Defined.
Global Instance DiceMod_eq_dec : EqDecision DiceMod.
Proof. solve_decision. Defined.

(** const precedence = { '+': 0, '-': 0, '*': 1, '/': 1 } *)
Definition precedence (o : Operator) : nat :=
  match o with
  | Add => 0
  | Sub => 0
  | Mul => 1
  | Div => 1
  end%nat.

Definition op_string (o : Operator) : string :=
  match o with
  | Add => "+"
  | Sub => "-"
  | Mul => "*"
  | Div => "/"
  end.

Definition mod_string (m : option DiceMod) : string :=
  match m with
  | Some KeepHigh => "h"
  | Some KeepLow => "l"
  | None => EmptyString
  end.

Section Engine.
Context {NUM : Number}.

(** The four classes implementing [Expression].  A [Roll] stores the values
    of the two digit strings of its token; they are turned into numbers by
    [n_of_N] where the source reads the fields. *)
Inductive Expression :=
| Literal (val : num)
| Reference (ref : string)
| Roll (dice sides : N) (dmod : option DiceMod)
| Operation (op : Operator) (left right : Expression).

(** interface Context { [k: string]: number } *)
Definition Ctx := gmap string num.

(** interface RollResult *)
Record RollResult := mkRollResult {
  rolls : list num;
  die : num;
  value : num
}.

Definition zero : num := n_of_N 0.
Definition one : num := n_of_N 1.

(** function doOp *)
Definition doOp (op : Operator) (left right : num) : num :=
  match op with
  | Add => nadd left right
  | Sub => nsub left right
  | Mul => nmul left right
  | Div => ndiv left right
  end.

(** *** Evaluation *)

(** The pseudo-random source is a sequence [rnd] of numbers together with a
    cursor counting the calls made so far; the roll sink is the optional
    array argument of [calc]. *)
Definition State : Type := nat * option (list RollResult).

Section Calc.
Variable rnd : nat -> num.

(** Roll.roll1: 1 + Math.floor(Math.random() * this.sides) *)
Definition roll1 (sides : N) (cursor : nat) : num :=
  nadd one (nfloor (nmul (rnd cursor) (n_of_N sides))).

(** The loop of Roll.calc pushing [dice] draws. *)
Fixpoint roll_loop (sides : N) (k : nat) (cursor : nat) : list num :=
  match k with
  | O => []
  | S k' => roll1 sides cursor :: roll_loop sides k' (S cursor)
  end.

(** Math.max(...rolls) and Math.min(...rolls) *)
Definition math_max (l : list num) : num := fold_left nmax l n_neg_inf.
Definition math_min (l : list num) : num := fold_left nmin l n_inf.

(** rolls.reduce((a, b) => a + b, 0) *)
Definition sum_rolls (l : list num) : num := fold_left nadd l zero.

Definition aggregate (dmod : option DiceMod) (l : list num) : num :=
  match dmod with
  | Some KeepHigh => math_max l
  | Some KeepLow => math_min l
  | None => sum_rolls l
  end.

(** rollResults?.push(...) *)
Definition push_result (r : RollResult) (sink : option (list RollResult))
  : option (list RollResult) :=
  match sink with
  | Some l => Some (l ++ [r])
  | None => None
  end.

(** Expression.calc for the four classes, on the numbers of the context:
    [C] holds the properties of the context that are numbers, and a name
    without one evaluates to 0.  The members that a context object
    inherits and the limits of the engine on the draws of a Roll are the
    matter of [evaluate], which agrees with [calc] apart from them (see
    [evaluate_calc]). *)
Fixpoint calc (e : Expression) (C : Ctx) (st : State) : num * State :=
  match e with
  | Literal val => (val, st)
  | Reference ref => (default zero (C !! ref), st)
  | Roll dice sides dmod =>
      let rs := roll_loop sides (N.to_nat dice) (fst st) in
      let result := aggregate dmod rs in
      (result,
       ((fst st + N.to_nat dice)%nat,
        push_result (mkRollResult rs (n_of_N sides) result) (snd st)))
  | Operation op l r =>
      let '(a, st1) := calc l C st in
      let '(b, st2) := calc r C st1 in
      (doOp op a b, st2)
  end.

End Calc.

(** *** Simplification *)

(** Operation.mergeLeft *)
Definition mergeLeft (farLeft : Expression) (leftOp : Operator) (left : num)
    (rightOp : Operator) (right : num) : Expression :=
  if decide (leftOp = rightOp) then
    if decide (leftOp = Add \/ leftOp = Sub) then
      Operation leftOp farLeft (Literal (nadd left right))
    else
      Operation leftOp farLeft (Literal (nmul left right))
  else if n_eq left right then
    farLeft
  else
    let '(op, bigger, smaller) :=
      if n_gt left right then (leftOp, left, right)
      else (rightOp, right, left) in
    if decide (op = Add \/ op = Sub) then
      Operation op farLeft (Literal (nsub bigger smaller))
    else
      Operation op farLeft (Literal (ndiv bigger smaller)).

(** Expression.simplify.  The result comes with a flag telling whether the
    returned object is the receiver itself (what the source tests with
    [===] on object references): leaves return [this], a substituted
    Reference, a folded or merged Operation and a rebuilt Operation are new
    objects, and the far-left operand handed back by [mergeLeft] is a
    proper part of the simplified left child, never the receiver. *)
Fixpoint simplify_id (e : Expression) (C : Ctx) : Expression * bool :=
  match e with
  | Literal _ => (e, true)
  | Roll _ _ _ => (e, true)
  | Reference ref =>
      match C !! ref with
      | Some v => (Literal v, false)
      | None => (e, true)
      end
  | Operation op l r =>
      let '(l', same_l) := simplify_id l C in
      let '(r', same_r) := simplify_id r C in
      let keep :=
        if same_l && same_r then (e, true)
        else (Operation op l' r', false) in
      match l', r' with
      | Literal a, Literal b => (Literal (doOp op a b), false)
      | Operation lop ll (Literal lv), Literal rv =>
          if decide (precedence lop = precedence op)
          then (mergeLeft ll lop lv op rv, false)
          else keep
      | _, _ => keep
      end
  end.

(** simplify(context?): an omitted context behaves as an empty one. *)
Definition simplify (e : Expression) (context : option Ctx) : Expression :=
  fst (simplify_id e (default ∅ context)).

(** *** Printing *)

Section Printer.
Context {TXT : NumberText NUM}.

Definition paren (s : string) : string := "(" +:+ s +:+ ")".

(** Expression.toString for the four classes. *)
Fixpoint toString (e : Expression) : string :=
  match e with
  | Literal val => to_string val
  | Reference ref => ref
  | Roll dice sides dmod =>
      to_string (n_of_N dice) +:+ "d" +:+ to_string (n_of_N sides)
        +:+ mod_string dmod
  | Operation op l r =>
      let res :=
        match l with
        | Operation lop _ _ =>
            if (precedence lop <? precedence op)%nat
            then paren (toString l) else toString l
        | _ => toString l
        end in
      let res := res +:+ " " +:+ op_string op +:+ " " in
      match r with
      | Operation rop _ _ =>
          if (precedence rop <=? precedence op)%nat
          then res +:+ paren (toString r) else res +:+ toString r
      | _ => res +:+ toString r
      end
  end.

End Printer.
End Engine.

Arguments Expression : clear implicits.
Arguments Ctx : clear implicits.
Arguments RollResult : clear implicits.
Arguments State : clear implicits.

(** ** The lexer *)

(** Texts are sequences of code units below 256. *)
Definition in_range (lo hi c : ascii) : bool :=
  (N_of_ascii lo <=? N_of_ascii c)%N && (N_of_ascii c <=? N_of_ascii hi)%N.

Definition char_eqb (a b : ascii) : bool := (N_of_ascii a =? N_of_ascii b)%N.

(** \s within the first 256 code points: TAB, LF, VT, FF, CR, SP, NBSP. *)
Definition is_space (c : ascii) : bool :=
  in_range "009" "013" c || char_eqb c " " || char_eqb c "160".

(** \d *)
Definition is_digit (c : ascii) : bool := in_range "0" "9" c.

(** [$a-zA-Z_] *)
Definition is_sym_start (c : ascii) : bool :=
  char_eqb c "$" || in_range "a" "z" c || in_range "A" "Z" c || char_eqb c "_".

(** [$a-zA-Z1-9_.] *)
Definition is_sym_char (c : ascii) : bool :=
  char_eqb c "$" || in_range "a" "z" c || in_range "A" "Z" c
  || in_range "1" "9" c || char_eqb c "_" || char_eqb c ".".

(** The longest prefix of characters satisfying [p], and what follows it:
    a greedy [p*] with nothing after it to backtrack for. *)
Fixpoint span (p : ascii -> bool) (s : string) : string * string :=
  match s with
  | String c s' =>
      if p c then let '(a, b) := span p s' in (String c a, b)
      else (EmptyString, s)
  | EmptyString => (EmptyString, EmptyString)
  end.

(** Leading white space. *)
Fixpoint skip_space (s : string) : string :=
  match s with
  | String c s' => if is_space c then skip_space s' else s
  | EmptyString => EmptyString
  end.

Definition is_empty (s : string) : bool :=
  match s with
  | EmptyString => true
  | String _ _ => false
  end.

(** The alternative sym: one character of [$a-zA-Z_], then any number of
    characters of [$a-zA-Z1-9_.]. *)
Definition match_sym (s : string) : option (string * string) :=
  match s with
  | String c s' =>
      if is_sym_start c
      then let '(body, rest) := span is_sym_char s' in Some (String c body, rest)
      else None
  | EmptyString => None
  end.

(** The alternative dice: digits, "d", digits, an optional "h" or "l".
    Giving back digits of the first group leaves a digit where the "d" is
    required, so only the greedy split can match. *)
Definition match_mod (s : string) : option DiceMod * string :=
  match s with
  | String c r =>
      if char_eqb c "h" then (Some KeepHigh, r)
      else if char_eqb c "l" then (Some KeepLow, r)
      else (None, s)
  | EmptyString => (None, s)
  end.

Definition match_dice (s : string)
  : option (string * string * option DiceMod * string) :=
  let '(dice, r1) := span is_digit s in
  if is_empty dice then None else
  match r1 with
  | String c r2 =>
      if char_eqb c "d" then
        let '(sides, r3) := span is_digit r2 in
        if is_empty sides then None else
        let '(dmod, r4) := match_mod r3 in
        Some (dice, sides, dmod, r4)
      else None
  | EmptyString => None
  end.

(** The alternative lit: an optional "-", digits, and optionally "." and
    digits. *)
Definition match_sign (s : string) : string * string :=
  match s with
  | String c r => if char_eqb c "-" then ("-", r) else (EmptyString, s)
  | EmptyString => (EmptyString, s)
  end.

Definition match_fraction (s : string) : string * string :=
  match s with
  | String c r =>
      if char_eqb c "." then
        let '(frac_part, r') := span is_digit r in
        if is_empty frac_part then (EmptyString, s)
        else ("." +:+ frac_part, r')
      else (EmptyString, s)
  | EmptyString => (EmptyString, s)
  end.

Definition match_lit (s : string) : option (string * string) :=
  let '(sign, r0) := match_sign s in
  let '(int_part, r1) := span is_digit r0 in
  if is_empty int_part then None else
  let '(fraction, r2) := match_fraction r1 in
  Some (sign +:+ int_part +:+ fraction, r2).

(** The alternative op: one of the six punctuation characters. *)
Definition punctuation_of (c : ascii) : option Punctuation :=
  if char_eqb c "*" then Some (POp Mul)
  else if char_eqb c "/" then Some (POp Div)
  else if char_eqb c "(" then Some LParen
  else if char_eqb c ")" then Some RParen
  else if char_eqb c "+" then Some (POp Add)
  else if char_eqb c "-" then Some (POp Sub)
  else None.

Definition match_op (s : string) : option (Punctuation * string) :=
  match s with
  | String c r =>
      match punctuation_of c with
      | Some p => Some (p, r)
      | None => None
      end
  | EmptyString => None
  end.

(** Number(groups.dice): the value of a digit string. *)
Definition digit_val (c : ascii) : N := (N_of_ascii c - 48)%N.

Fixpoint N_of_digits_from (acc : N) (s : string) : N :=
  match s with
  | EmptyString => acc
  | String c s' => N_of_digits_from (acc * 10 + digit_val c)%N s'
  end.

Definition N_of_digits (s : string) : N := N_of_digits_from 0%N s.

(** String.prototype.trim *)
Fixpoint trim_end (s : string) : string :=
  match s with
  | EmptyString => EmptyString
  | String c s' =>
      let t := trim_end s' in
      if is_space c && is_empty t then EmptyString else String c t
  end.

Definition trim (s : string) : string := trim_end (skip_space s).

Section Parser.
Context {NUM : Number} {TXT : NumberText NUM}.

(** type Token = Reference | Literal | Roll | Punctuation *)
Inductive Token :=
| TExpr (e : Expression NUM)
| TPunct (p : Punctuation).

(** One application of the sticky [tokenPattern] at the current position:
    the token and the text after the match.  The alternatives are tried in
    the order of the pattern. *)
Definition exec (s : string) : option (Token * string) :=
  let s := skip_space s in
  match match_sym s with
  | Some (name, rest) => Some (TExpr (Reference name), rest)
  | None =>
  match match_dice s with
  | Some (dice, sides, dmod, rest) =>
      Some (TExpr (Roll (N_of_digits dice) (N_of_digits sides) dmod), rest)
  | None =>
  match match_lit s with
  | Some (text, rest) => Some (TExpr (Literal (of_literal text)), rest)
  | None =>
  match match_op s with
  | Some (p, rest) => Some (TPunct p, rest)
  | None => None
  end end end end.

(** What the generator [tokenize] yields, one after the other: tokens, and
    possibly, last, the SyntaxError "Unexpected input" it throws.  A failed
    match resets [lastIndex] to 0, so the message carries the whole text. *)
Inductive Lexeme :=
| LTok (t : Token)
| LErr (text : string).

Fixpoint tokenize_from (expr : string) (fuel : nat) (s : string)
  : list Lexeme :=
  match fuel with
  | O => []
  | S fuel' =>
      if is_empty s then []
      else match exec s with
           | None => [LErr expr]
           | Some (t, rest) => LTok t :: tokenize_from expr fuel' rest
           end
  end.

(** Every match consumes a character, so the length of the text bounds the
    number of iterations (see [tokenize_from_fuel]). *)
Definition tokenize (expr : string) : list Lexeme :=
  tokenize_from expr (String.length expr) expr.

(** ** The parser *)

Inductive ParseError :=
| UnexpectedInput (text : string)                 (* SyntaxError, tokenize *)
| UnexpectedToken (tok : Token) (after : Expression NUM) (* SyntaxError, parse *)
| IncompleteExpression                            (* Error, parseFactor *)
| UnmatchedParenthesis                            (* Error, parseFactor *)
| UnexpectedOperator (p : Punctuation)            (* Error, parseFactor *)
| OutOfFuel.                                      (* never returned by [parse] *)

Inductive Result (A : Type) :=
| Ok (a : A)
| Err (err : ParseError).
Arguments Ok {A} a.
Arguments Err {A} err.

(** Tokenizer.peek: the next token, [None] for [undefined] at the end. *)
Definition peek (toks : list Lexeme) : Result (option Token) :=
  match toks with
  | [] => Ok None
  | LTok t :: _ => Ok (Some t)
  | LErr text :: _ => Err (UnexpectedInput text)
  end.

(** Tokenizer.next: [None] when [done]. *)
Definition next (toks : list Lexeme) : Result (option Token * list Lexeme) :=
  match toks with
  | [] => Ok (None, [])
  | LTok t :: rest => Ok (Some t, rest)
  | LErr text :: _ => Err (UnexpectedInput text)
  end.

Definition Parser : Type := list Lexeme -> Result (Expression NUM * list Lexeme).

(** The while loop of opParser. *)
Fixpoint op_loop (fuel : nat) (op1 op2 : Operator) (nextParser : Parser)
    (lhs : Expression NUM) (toks : list Lexeme)
  : Result (Expression NUM * list Lexeme) :=
  match peek toks with
  | Err err => Err err
  | Ok (Some (TPunct (POp op))) =>
      if decide (op = op1 \/ op = op2) then
        match fuel with
        | O => Err OutOfFuel
        | S fuel' =>
            match nextParser (tail toks) with
            | Err err => Err err
            | Ok (rhs, toks') =>
                op_loop fuel' op1 op2 nextParser (Operation op lhs rhs) toks'
            end
        end
      else Ok (lhs, toks)
  | Ok _ => Ok (lhs, toks)
  end.

(** function opParser *)
Definition opParser (fuel : nat) (op1 op2 : Operator) (nextParser : Parser)
  : Parser :=
  fun toks =>
    match nextParser toks with
    | Err err => Err err
    | Ok (lhs, toks') => op_loop fuel op1 op2 nextParser lhs toks'
    end.

(** function parseFactor, with parseTerm and parseExpr built from it as in
    the source. *)
Fixpoint parseFactor (fuel : nat) (toks : list Lexeme)
  : Result (Expression NUM * list Lexeme) :=
  match next toks with
  | Err err => Err err
  | Ok (None, _) => Err IncompleteExpression
  | Ok (Some (TExpr e), rest) => Ok (e, rest)
  | Ok (Some (TPunct LParen), rest) =>
      match fuel with
      | O => Err OutOfFuel
      | S fuel' =>
          match opParser fuel' Add Sub
                  (opParser fuel' Mul Div (parseFactor fuel')) rest with
          | Err err => Err err
          | Ok (e, rest') =>
              match next rest' with
              | Err err => Err err
              | Ok (Some (TPunct RParen), rest'') => Ok (e, rest'')
              | Ok _ => Err UnmatchedParenthesis
              end
          end
      end
  | Ok (Some (TPunct p), _) => Err (UnexpectedOperator p)
  end.

Definition parseTerm (fuel : nat) : Parser :=
  opParser fuel Mul Div (parseFactor fuel).

Definition parseExpr (fuel : nat) : Parser :=
  opParser fuel Add Sub (parseTerm fuel).

(** function parse.  Every loop iteration and every nested parenthesis
    consumes a token, so the number of tokens bounds the fuel (see
    [parse_fuel]). *)
Definition parse (input : string) : Result (Expression NUM) :=
  let tokens := tokenize (trim input) in
  match parseExpr (length tokens) tokens with
  | Err err => Err err
  | Ok (expr, rest) =>
      match next rest with
      | Err err => Err err
      | Ok (None, _) => Ok expr
      | Ok (Some tok, _) => Err (UnexpectedToken tok expr)
      end
  end.

End Parser.

Arguments Ok {NUM A} a.
Arguments Err {NUM A} err.
Arguments Token : clear implicits.
Arguments Lexeme : clear implicits.
Arguments ParseError : clear implicits.
Arguments Result : clear implicits.
Arguments Parser : clear implicits.

(** ** IEEE-754 binary64, the JavaScript number type *)

Module F64.

Definition prec : Z := 53.
Definition emax : Z := 1024.

Definition is_nan (x : spec_float) : bool :=
  match x with
  | S754_nan => true
  | _ => false
  end.

Definition is_neg_zero (x : spec_float) : bool :=
  match x with
  | S754_zero true => true
  | _ => false
  end.

(** Math.floor *)
Definition floor (x : spec_float) : spec_float :=
  match x with
  | S754_finite s m e =>
      if 0 <=? e then x
      else
        let q := Z.shiftr (Zpos m) (- e) in
        let exact := Z.shiftl q (- e) =? Zpos m in
        if s then
          binary_normalize prec emax (- (if exact then q else q + 1)) 0 true
        else binary_normalize prec emax q 0 false
  | _ => x
  end.

(** Math.max and Math.min of two numbers: NaN wins, and +0 is above -0. *)
Definition max (a b : spec_float) : spec_float :=
  if is_nan a || is_nan b then S754_nan
  else if SFltb a b then b
  else if SFltb b a then a
  else if is_neg_zero a then b else a.

Definition min (a b : spec_float) : spec_float :=
  if is_nan a || is_nan b then S754_nan
  else if SFltb a b then a
  else if SFltb b a then b
  else if is_neg_zero a then a else b.

(** The nearest double of m / 10^k, ties to even: the quotient is taken
    with more than 60 bits and a sticky bit, then rounded once. *)
Definition round_decimal (neg : bool) (m : Z) (k : Z) : spec_float :=
  if m =? 0 then S754_zero neg
  else
    let d := 10 ^ k in
    let sh := Z.log2 d + 64 in
    let q := Z.shiftl m sh / d in
    let sticky := if Z.shiftl m sh mod d =? 0 then 0 else 1 in
    let mant := 2 * q + sticky in
    binary_normalize prec emax (if neg then - mant else mant) (- sh - 1) neg.

(** The three parts of a text matched by the alternative lit. *)
Definition literal_parts (text : string) : bool * string * string :=
  let '(sign, r0) := match_sign text in
  let '(int_part, r1) := span is_digit r0 in
  let '(fraction, _) := match_fraction r1 in
  (negb (is_empty sign), int_part,
   match fraction with
   | String _ frac_part => frac_part
   | EmptyString => EmptyString
   end).

(** Number(text) for a decimal literal. *)
Definition of_literal (text : string) : spec_float :=
  let '(neg, int_part, frac_part) := literal_parts text in
  round_decimal neg (Z.of_N (N_of_digits (int_part +:+ frac_part)))
    (Z.of_nat (String.length frac_part)).

Definition of_N (n : N) : spec_float :=
  binary_normalize prec emax (Z.of_N n) 0 false.

(** *** Number.prototype.toString *)

Definition pow10 (n : Z) : Q :=
  if 0 <=? n then inject_Z (10 ^ n) else Qmake 1 (Z.to_pos (10 ^ (- n))).

Definition pow2 (n : Z) : Q :=
  if 0 <=? n then inject_Z (2 ^ n) else Qmake 1 (Z.to_pos (2 ^ (- n))).

(** The n with 10^(n-1) <= x < 10^n, searched from an estimate. *)
Fixpoint decimal_exponent (fuel : nat) (x : Q) (n : Z) : Z :=
  match fuel with
  | O => n
  | S fuel' =>
      if Qle_bool (pow10 n) x then decimal_exponent fuel' x (n + 1)
      else if Qle_bool (pow10 (n - 1)) x then n
      else decimal_exponent fuel' x (n - 1)
  end.

Definition Qltb (a b : Q) : bool := negb (Qle_bool b a).

(** The shortest decimal s * 10^j that rounds to x = m * 2^e; among the
    candidates with the least number of digits the one closest to x, the
    even one on a tie. *)
Fixpoint shortest (fuel : nat) (k : Z) (x low high : Q) (incl : bool) (n0 : Z)
  : Z * Z :=
  let unit := pow10 (n0 - k) in
  let s := Qfloor (x / unit)%Q in
  let lo := (inject_Z s * unit)%Q in
  let hi := (inject_Z (s + 1) * unit)%Q in
  let inside d :=
    if incl then Qle_bool low d && Qle_bool d high
    else Qltb low d && Qltb d high in
  let pick_lo := (s, n0 - k) in
  let pick_hi := (s + 1, n0 - k) in
  match inside lo, inside hi with
  | true, true =>
      if Qltb (x - lo)%Q (hi - x)%Q then pick_lo
      else if Qltb (hi - x)%Q (x - lo)%Q then pick_hi
      else if Z.even s then pick_lo else pick_hi
  | true, false => pick_lo
  | false, true => pick_hi
  | false, false =>
      match fuel with
      | O => pick_lo
      | S fuel' => shortest fuel' (k + 1) x low high incl n0
      end
  end.

Fixpoint strip_zeros (fuel : nat) (s j : Z) : Z * Z :=
  match fuel with
  | O => (s, j)
  | S fuel' =>
      if (s mod 10 =? 0) && negb (s =? 0) then strip_zeros fuel' (s / 10) (j + 1)
      else (s, j)
  end.

(** The decimal digits of a natural number. *)
Fixpoint decimal_from (fuel : nat) (n : Z) (acc : string) : string :=
  match fuel with
  | O => acc
  | S fuel' =>
      let acc' := String (ascii_of_N (Z.to_N (48 + n mod 10))) acc in
      if n / 10 =? 0 then acc' else decimal_from fuel' (n / 10) acc'
  end.

Definition decimal (n : Z) : string :=
  decimal_from (S (Z.to_nat (Z.log2 n))) n EmptyString.

Fixpoint zeros (n : nat) : string :=
  match n with
  | O => EmptyString
  | S n' => String "0" (zeros n')
  end.

Definition string_take (n : nat) (s : string) : string := String.substring 0 n s.
Definition string_drop (n : nat) (s : string) : string :=
  String.substring n (String.length s - n) s.

(** The digits [ds] (k of them) with decimal exponent n, laid out as
    Number::toString prescribes. *)
Definition layout (ds : string) (n : Z) : string :=
  let k := Z.of_nat (String.length ds) in
  if (k <=? n) && (n <=? 21) then ds +:+ zeros (Z.to_nat (n - k))
  else if (0 <? n) && (n <=? 21) then
    string_take (Z.to_nat n) ds +:+ "." +:+ string_drop (Z.to_nat n) ds
  else if (-6 <? n) && (n <=? 0) then
    "0." +:+ zeros (Z.to_nat (- n)) +:+ ds
  else
    let ex := n - 1 in
    let exs := (if 0 <=? ex then "+" else "-") +:+ decimal (Z.abs ex) in
    if k =? 1 then ds +:+ "e" +:+ exs
    else string_take 1 ds +:+ "." +:+ string_drop 1 ds +:+ "e" +:+ exs.

Definition to_string_pos (m : positive) (e : Z) : string :=
  let x := (inject_Z (Zpos m) * pow2 e)%Q in
  let up := pow2 (e - 1) in
  let down :=
    if (Zpos m =? 2 ^ (prec - 1)) && (3 - emax - prec <? e)
    then pow2 (e - 2) else pow2 (e - 1) in
  let n0 := decimal_exponent 400 x ((Z.log2 (Zpos m) + e) * 30103 / 100000) in
  let '(s, j) := shortest 20 1 x (x - down)%Q (x + up)%Q (Z.even (Zpos m)) n0 in
  let '(s, j) := strip_zeros 400 s j in
  let ds := decimal s in
  layout ds (j + Z.of_nat (String.length ds)).

Definition to_string (x : spec_float) : string :=
  match x with
  | S754_nan => "NaN"
  | S754_zero _ => "0"
  | S754_infinity false => "Infinity"
  | S754_infinity true => "-Infinity"
  | S754_finite s m e =>
      (if s then "-" else EmptyString) +:+ to_string_pos m e
  end.

End F64.

(** The number type the program runs on. *)
Definition float64 : Number := {|
  num := spec_float;
  nadd := SFadd F64.prec F64.emax;
  nsub := SFsub F64.prec F64.emax;
  nmul := SFmul F64.prec F64.emax;
  ndiv := SFdiv F64.prec F64.emax;
  n_eq := SFeqb;
  n_gt := fun a b => SFltb b a;
  nfloor := F64.floor;
  nmax := F64.max;
  nmin := F64.min;
  n_inf := S754_infinity false;
  n_neg_inf := S754_infinity true;
  n_of_N := F64.of_N
|}.

Definition float64_text : NumberText float64 :=
  Build_NumberText float64 F64.to_string F64.of_literal.

(** ** Exact arithmetic with the IEEE special values *)

(** Rationals without rounding, completed by the two infinities and NaN so
    that division by zero behaves as in IEEE arithmetic.  There is one zero. *)
Module Exact.

Inductive t :=
| Fin (q : Qc)
| PInf
| NInf
| NaN.

Definition Qc_eqb (a b : Qc) : bool := Qeq_bool a b.
Definition Qc_ltb (a b : Qc) : bool := negb (Qle_bool b a).

Definition neg (x : t) : t :=
  match x with
  | Fin q => Fin (- q)
  | PInf => NInf
  | NInf => PInf
  | NaN => NaN
  end.

Definition add (x y : t) : t :=
  match x, y with
  | NaN, _ | _, NaN => NaN
  | Fin a, Fin b => Fin (a + b)
  | PInf, NInf | NInf, PInf => NaN
  | PInf, _ | _, PInf => PInf
  | NInf, _ | _, NInf => NInf
  end.

Definition sub (x y : t) : t := add x (neg y).

(** The sign of a number as a factor: [None] for zero and NaN. *)
Definition sign (x : t) : option bool :=
  match x with
  | Fin q => if Qc_ltb 0 q then Some false
             else if Qc_ltb q 0 then Some true else None
  | PInf => Some false
  | NInf => Some true
  | NaN => None
  end.

Definition inf_of (negative : bool) : t := if negative then NInf else PInf.

Definition mul (x y : t) : t :=
  match x, y with
  | Fin a, Fin b => Fin (a * b)
  | NaN, _ | _, NaN => NaN
  | _, _ =>
      match sign x, sign y with
      | Some sx, Some sy => inf_of (xorb sx sy)
      | _, _ => NaN
      end
  end.

Definition div (x y : t) : t :=
  match x, y with
  | NaN, _ | _, NaN => NaN
  | Fin a, Fin b =>
      if Qc_eqb b 0 then
        match sign x with
        | Some sx => inf_of sx
        | None => NaN
        end
      else Fin (a / b)
  | Fin _, _ => Fin 0
  | _, Fin b => if Qc_ltb b 0 then neg x else x
  | _, _ => NaN
  end.

Definition eqb (x y : t) : bool :=
  match x, y with
  | Fin a, Fin b => Qc_eqb a b
  | PInf, PInf | NInf, NInf => true
  | _, _ => false
  end.

Definition ltb (x y : t) : bool :=
  match x, y with
  | Fin a, Fin b => Qc_ltb a b
  | NInf, Fin _ | NInf, PInf | Fin _, PInf => true
  | _, _ => false
  end.

Definition floor (x : t) : t :=
  match x with
  | Fin q => Fin (Q2Qc (inject_Z (Qfloor q)))
  | _ => x
  end.

Definition is_nan (x : t) : bool :=
  match x with
  | NaN => true
  | _ => false
  end.

Definition max (a b : t) : t :=
  if is_nan a || is_nan b then NaN else if ltb a b then b else a.

Definition min (a b : t) : t :=
  if is_nan a || is_nan b then NaN else if ltb b a then b else a.

Definition of_Z (z : Z) : t := Fin (Q2Qc (inject_Z z)).

End Exact.

Definition xnum : Number := {|
  num := Exact.t;
  nadd := Exact.add;
  nsub := Exact.sub;
  nmul := Exact.mul;
  ndiv := Exact.div;
  n_eq := Exact.eqb;
  n_gt := fun a b => Exact.ltb b a;
  nfloor := Exact.floor;
  nmax := Exact.max;
  nmin := Exact.min;
  n_inf := Exact.PInf;
  n_neg_inf := Exact.NInf;
  n_of_N := fun n => Exact.of_Z (Z.of_N n)
|}.

(** ** Notions used to state the properties *)

Section Notions.
Context {NUM : Number}.

(** The dice specifications of an expression, in left-to-right, depth-first
    order. *)
Fixpoint rolls_of (e : Expression NUM) : list (N * N * option DiceMod) :=
  match e with
  | Roll dice sides dmod => [(dice, sides, dmod)]
  | Operation _ l r => rolls_of l ++ rolls_of r
  | _ => []
  end.

(** The number of nodes of an expression. *)
Fixpoint size (e : Expression NUM) : nat :=
  match e with
  | Operation _ l r => S (size l + size r)
  | _ => 1%nat
  end.

(** The entry a Roll pushes to the sink when evaluated with the cursor at
    [cursor]. *)
Definition roll_entry (rnd : nat -> num) (cursor : nat)
    (spec : N * N * option DiceMod) : RollResult NUM :=
  let '(dice, sides, dmod) := spec in
  let rs := roll_loop rnd sides (N.to_nat dice) cursor in
  mkRollResult rs (n_of_N sides) (aggregate dmod rs).

(** The entries of a sequence of rolls resolved one after the other. *)
Fixpoint roll_entries (rnd : nat -> num) (cursor : nat)
    (specs : list (N * N * option DiceMod)) : list (RollResult NUM) :=
  match specs with
  | [] => []
  | spec :: specs' =>
      roll_entry rnd cursor spec
        :: roll_entries rnd (cursor + N.to_nat (fst (fst spec)))%nat specs'
  end.

(** The number of draws a sequence of rolls takes. *)
Definition draws_of (specs : list (N * N * option DiceMod)) : nat :=
  fold_right (fun spec n => (N.to_nat (fst (fst spec)) + n)%nat) 0%nat specs.

(** The state after resolving a sequence of rolls. *)
Definition after_rolls (rnd : nat -> num)
    (specs : list (N * N * option DiceMod)) (st : State NUM) : State NUM :=
  ((fst st + draws_of specs)%nat,
   match snd st with
   | Some sink => Some (sink ++ roll_entries rnd (fst st) specs)
   | None => None
   end).

(** The two rewriting cases of Operation.simplify on simplified children. *)
Definition folds (l r : Expression NUM) : bool :=
  match l, r with
  | Literal _, Literal _ => true
  | _, _ => false
  end.

Definition merges (op : Operator) (l r : Expression NUM) : bool :=
  match l, r with
  | Operation lop _ (Literal _), Literal _ =>
      bool_decide (precedence lop = precedence op)
  | _, _ => false
  end.

End Notions.

Section Helpers.
Context {NUM : Number} {TXT : NumberText NUM}.

(** The helper of the test suite: parse(input).simplify().toString() *)
Definition simplifyExpr (input : string) : Result NUM string :=
  match parse input with
  | Ok e => Ok (toString (simplify e None))
  | Err err => Err err
  end.

(** The literal that survives a merge of two different operators: the
    difference for + and -, the quotient for * and /. *)
Definition combine (op : Operator) (bigger smaller : num) : num :=
  if decide (op = Add \/ op = Sub) then nsub bigger smaller
  else ndiv bigger smaller.

End Helpers.

(** Number(text) as a binary64 number. *)
Definition Num64 (text : string) : @num float64 := F64.of_literal text.

(** The left-merge of two different operators read by magnitude, on
    binary64: the operator of the literal of larger absolute value survives,
    with the difference or quotient of the larger and the smaller absolute
    value. *)
Definition merge_by_magnitude (farLeft : Expression float64)
    (op1 : Operator) (lit1 : spec_float) (op2 : Operator) (lit2 : spec_float)
  : Expression float64 :=
  if SFeqb lit1 lit2 then farLeft
  else
    let a1 := SFabs lit1 in
    let a2 := SFabs lit2 in
    let '(op, larger, smaller) :=
      if SFltb a2 a1 then (op1, a1, a2) else (op2, a2, a1) in
    Operation op farLeft (Literal (@combine float64 op larger smaller)).

(** All characters of a text satisfy [p]. *)
Fixpoint string_forall (p : ascii -> bool) (s : string) : bool :=
  match s with
  | EmptyString => true
  | String c s' => p c && string_forall p s'
  end.

(** A non-empty string of digits, the syntax of a dice parameter. *)
Definition is_digits (s : string) : bool :=
  negb (is_empty s) && string_forall is_digit s.

(** The first character of a text, if any, fails [p]. *)
Definition stops (p : ascii -> bool) (s : string) : bool :=
  match s with
  | EmptyString => true
  | String c _ => negb (p c)
  end.

(** ** Notions of binary64 arithmetic *)





(** ** Readings of the rolls on binary64 *)









(** A source of the exact model returning 1/2 at every call, and the
    expression 2d20h + 1d4. *)
Definition half_source : nat -> @num xnum :=
  fun _ => Exact.Fin (Q2Qc (Qmake 1 2)).

Definition two_rolls : Expression xnum :=
  Operation Add (Roll 2 20 (Some KeepHigh)) (Roll 1 4 None).


(** ** The grammar *)

(** The grammar of the documentation,

      expr   = term   / expr "+" term / expr "-" term
      term   = factor / term "*" factor / term "/" factor
      factor = symbol / roll / literal / "(" expr ")"

    as a relation between a sequence of tokens and the expression it
    denotes; the left recursion makes the operators associate to the
    left. *)
Inductive Level := Expr | Term | Factor.

Definition level_ops (lvl : Level) (op : Operator) : Prop :=
  match lvl with
  | Expr => op = Add \/ op = Sub
  | Term => op = Mul \/ op = Div
  | Factor => False
  end.

Section Grammar.
Context {NUM : Number}.

Definition is_leaf (e : Expression NUM) : bool :=
  match e with
  | Operation _ _ _ => false
  | _ => true
  end.

Inductive derives : Level -> list (Token NUM) -> Expression NUM -> Prop :=
| derives_leaf e :
    is_leaf e = true -> derives Factor [TExpr e] e
| derives_paren ts e :
    derives Expr ts e ->
    derives Factor ([TPunct LParen] ++ ts ++ [TPunct RParen]) e
| derives_factor ts e :
    derives Factor ts e -> derives Term ts e
| derives_term_op ts1 e1 op ts2 e2 :
    derives Term ts1 e1 -> level_ops Term op -> derives Factor ts2 e2 ->
    derives Term (ts1 ++ [TPunct (POp op)] ++ ts2) (Operation op e1 e2)
| derives_term ts e :
    derives Term ts e -> derives Expr ts e
| derives_expr_op ts1 e1 op ts2 e2 :
    derives Expr ts1 e1 -> level_ops Expr op -> derives Term ts2 e2 ->
    derives Expr (ts1 ++ [TPunct (POp op)] ++ ts2) (Operation op e1 e2).


(** The loop of opParser stops in front of these tokens. *)
Definition stops_loop (op1 op2 : Operator) (toks : list (Lexeme NUM)) : Prop :=
  match toks with
  | [] => True
  | LTok (TPunct (POp op)) :: _ => op <> op1 /\ op <> op2
  | LTok _ :: _ => True
  | LErr _ :: _ => False
  end.

(** The printer on the level of tokens: the tokens of [toString e]. *)
Definition paren_tokens (ts : list (Token NUM)) : list (Token NUM) :=
  [TPunct LParen] ++ ts ++ [TPunct RParen].

Fixpoint tokens_of (e : Expression NUM) : list (Token NUM) :=
  match e with
  | Operation op l r =>
      let left_tokens :=
        match l with
        | Operation lop _ _ =>
            if (precedence lop <? precedence op)%nat
            then paren_tokens (tokens_of l) else tokens_of l
        | _ => tokens_of l
        end in
      let right_tokens :=
        match r with
        | Operation rop _ _ =>
            if (precedence rop <=? precedence op)%nat
            then paren_tokens (tokens_of r) else tokens_of r
        | _ => tokens_of r
        end in
      left_tokens ++ [TPunct (POp op)] ++ right_tokens
  | _ => [TExpr e]
  end.

End Grammar.

(** The context {a: 2, b: 3} on binary64. *)
Definition ab_context : Ctx float64 :=
  <["a" := Num64 "2"]> (<["b" := Num64 "3"]> ∅).

(** ** Canonical texts *)

(** What comes after a token in a printed text: nothing, a space or a
    closing parenthesis. *)
Definition follows (rest : string) : bool :=
  match rest with
  | EmptyString => true
  | String c _ => char_eqb c " " || char_eqb c ")"
  end.

(** A text that is a symbol, and a text that is a decimal literal, as the
    lexer reads them. *)
Definition sym_name (x : string) : bool :=
  match x with
  | String c body => is_sym_start c && string_forall is_sym_char body
  | EmptyString => false
  end.

Definition lit_text (t : string) : bool :=
  match match_lit t with
  | Some (_, rest) => is_empty rest
  | None => false
  end.

Definition wrap (b : bool) (s : string) : string :=
  if b then "(" +:+ s +:+ ")" else s.

Section Canonical.
Context {NUM : Number} {TXT : NumberText NUM}.

(** The parenthesization rule in the words of the specification. *)
Definition left_needs_parens (op : Operator) (l : Expression NUM) : bool :=
  match l with
  | Operation lop _ _ => (precedence lop <? precedence op)%nat
  | _ => false
  end.

Definition right_needs_parens (op : Operator) (r : Expression NUM) : bool :=
  match r with
  | Operation rop _ _ => (precedence rop <=? precedence op)%nat
  | _ => false
  end.

(** A leaf prints as one token of its kind: a Literal prints in plain
    decimal notation, a Reference is a symbol of the lexer, and the two
    parameters of a Roll print as digit strings. *)
Definition printable_leaf (e : Expression NUM) : Prop :=
  match e with
  | Literal val => lit_text (to_string val) = true
  | Reference ref => sym_name ref = true
  | Roll dice sides _ =>
      is_digits (to_string (n_of_N dice)) = true
      /\ is_digits (to_string (n_of_N sides)) = true
  | Operation _ _ _ => True
  end.

Fixpoint printable (e : Expression NUM) : Prop :=
  match e with
  | Operation _ l r => printable l /\ printable r
  | _ => printable_leaf e
  end.

(** A dice parameter reads back from its printed text as a number that
    prints the same text. *)
Definition stable_count (n : N) : Prop :=
  to_string (n_of_N (N_of_digits (to_string (n_of_N n))))
  = to_string (n_of_N n).

(** A leaf reads back from its printed text as a leaf that prints the same
    text: the number read from the text of a Literal, and from the text of
    a dice parameter, prints as that text. *)
Definition reprints_leaf (e : Expression NUM) : Prop :=
  match e with
  | Literal val => to_string (of_literal (to_string val)) = to_string val
  | Roll dice sides _ => stable_count dice /\ stable_count sides
  | _ => True
  end.

Fixpoint reprints (e : Expression NUM) : Prop :=
  match e with
  | Operation _ l r => reprints l /\ reprints r
  | _ => reprints_leaf e
  end.

(** The expression read back from the printed leaves. *)
Fixpoint reread (e : Expression NUM) : Expression NUM :=
  match e with
  | Literal val => Literal (of_literal (to_string val))
  | Reference ref => e
  | Roll dice sides dmod =>
      Roll (N_of_digits (to_string (n_of_N dice)))
        (N_of_digits (to_string (n_of_N sides))) dmod
  | Operation op l r => Operation op (reread l) (reread r)
  end.

(** The sequence of lexemes of a text, without reference to fuel. *)
Inductive lexes (whole : string) : string -> list (Lexeme NUM) -> Prop :=
| lexes_end : lexes whole EmptyString []
| lexes_error s :
    is_empty s = false -> exec s = None -> lexes whole s [LErr whole]
| lexes_token s t rest l :
    is_empty s = false -> exec s = Some (t, rest) -> lexes whole rest l ->
    lexes whole s (LTok t :: l).

End Canonical.

(** The level of the grammar at which an expression is derived. *)
Definition level_of {NUM : Number} (e : Expression NUM) : Level :=
  match e with
  | Operation Add _ _ | Operation Sub _ _ => Expr
  | Operation Mul _ _ | Operation Div _ _ => Term
  | _ => Factor
  end.

(** A text without white space at its ends. *)
Definition not_space (c : ascii) : bool := negb (is_space c).

Definition starts_solid (s : string) : bool :=
  match s with
  | String c _ => not_space c
  | EmptyString => false
  end.

Definition tight (s : string) : Prop :=
  starts_solid s = true /\ trim_end s = s /\ is_empty s = false.

(** The expression 1 * k + (j - 4.5) / 2 on binary64. *)
Definition sample_expression : Expression float64 :=
  Operation Add
    (Operation Mul (Literal (Num64 "1")) (Reference "k"))
    (Operation Div
       (Operation Sub (Reference "j") (Literal (Num64 "4.5")))
       (Literal (Num64 "2"))).

(** ** Safe evaluations of the exact model *)



Section Safe.
Variable rnd : nat -> @num xnum.
Variable C : Ctx xnum.



End Safe.








Definition half64 : nat -> @num float64 := fun _ => Num64 "0.5".

(** ** Fuel *)

Section Fuel.
Context {NUM : Number}.

(** A parsing function that, on at most [bound] lexemes, does not run out
    of fuel and consumes a lexeme when it succeeds. *)
Definition progresses (bound : nat) (p : Parser NUM) : Prop :=
  forall toks,
    (length toks <= bound)%nat ->
    p toks <> Err OutOfFuel
    /\ forall e rest, p toks = Ok (e, rest) -> (length rest < length toks)%nat.

End Fuel.

Section Parses.
Context {NUM : Number}.

(** What the three parsing functions do on a derivable prefix of the
    tokens: parseFactor consumes it; parseTerm and parseExpr consume it and
    go on with their loop on what follows. *)
Definition parses (lvl : Level) (ts : list (Token NUM)) (e : Expression NUM)
  : Prop :=
  forall fuel (rest : list (Lexeme NUM)),
    (length ts + length rest <= fuel)%nat ->
    match lvl with
    | Factor => parseFactor fuel (map LTok ts ++ rest) = Ok (e, rest)
    | Term =>
        exists fuel', (length rest <= fuel')%nat
          /\ parseTerm fuel (map LTok ts ++ rest)
             = op_loop fuel' Mul Div (parseFactor fuel) e rest
    | Expr =>
        stops_loop Mul Div rest ->
        exists fuel', (length rest <= fuel')%nat
          /\ parseExpr fuel (map LTok ts ++ rest)
             = op_loop fuel' Add Sub (parseTerm fuel) e rest
    end.

End Parses.

(** ** Names, normal forms and the parsing functions *)

Section MoreNotions.
Context {NUM : Number}.

(** The names an expression refers to, from left to right. *)
Fixpoint refs_of (e : Expression NUM) : list string :=
  match e with
  | Reference ref => [ref]
  | Operation _ l r => refs_of l ++ refs_of r
  | _ => []
  end.

(** A name without a value in the context. *)
Definition unbound (C : Ctx NUM) (x : string) : bool :=
  bool_decide (C !! x = None).

(** Neither rewriting case of Operation.simplify applies anywhere in the
    expression: no Operation has two Literal operands, and none has a
    Literal on the right of an Operation of the same precedence that itself
    has a Literal on its right. *)
Fixpoint simplified (e : Expression NUM) : bool :=
  match e with
  | Operation op l r =>
      simplified l && simplified r && negb (folds l r) && negb (merges op l r)
  | _ => true
  end.

(** The random values an evaluation reads: those from the cursor of the
    state up to the number of dice of the expression. *)
Definition same_draws (rnd rnd' : nat -> num) (e : Expression NUM)
    (cursor cursor' : nat) : Prop :=
  forall i, (i < draws_of (rolls_of e))%nat ->
    rnd (cursor + i)%nat = rnd' (cursor' + i)%nat.

(** The expression tokens of a sequence of lexemes are leaves, as those the
    lexer builds. *)
Definition leaf_lexemes (toks : list (Lexeme NUM)) : Prop :=
  forall e, In (LTok (TExpr e)) toks -> is_leaf e = true.

(** Where the parsing function of a level stops: parseTerm not in front of
    "*" or "/", parseExpr in front of no operator, and neither of the two in
    front of a lexer error (their loop has peeked at what follows). *)
Definition halts (lvl : Level) (rest : list (Lexeme NUM)) : Prop :=
  match lvl with
  | Factor => True
  | Term => stops_loop Mul Div rest
  | Expr => stops_loop Mul Div rest /\ stops_loop Add Sub rest
  end.

(** A parsing function that only accepts what the grammar derives at the
    level [lvl]. *)
Definition sound (lvl : Level) (p : Parser NUM) : Prop :=
  forall toks e rest,
    leaf_lexemes toks -> p toks = Ok (e, rest) ->
    exists ts, toks = map LTok ts ++ rest /\ derives lvl ts e /\ halts lvl rest.

(** The errors of the parsing functions: "Unexpected input" is the error of
    a lexeme, and "Unexpected token" is not theirs. *)
Definition inner_error (toks : list (Lexeme NUM)) (err : ParseError NUM)
  : Prop :=
  match err with
  | UnexpectedInput text => In (LErr text) toks
  | UnexpectedToken _ _ => False
  | _ => True
  end.

Definition fails_inside (p : Parser NUM) : Prop :=
  forall toks err,
    leaf_lexemes toks -> p toks = Err err -> inner_error toks err.

End MoreNotions.

(** A character with which a token can begin. *)
Definition starts_token (c : ascii) : bool :=
  is_sym_start c || is_digit c
  || match punctuation_of c with Some _ => true | None => false end.

(** A character that continues a name, a number or a roll. *)
Definition is_word_char (c : ascii) : bool := is_sym_char c || is_digit c.

(** The expressions a + b * 2 and a + c on binary64, and the context
    {a: 2, c: 0}. *)
Definition a_plus_b_times_2 : Expression float64 :=
  Operation Add (Reference "a")
    (Operation Mul (Reference "b") (Literal (Num64 "2"))).

Definition a_plus_c : Expression float64 :=
  Operation Add (Reference "a") (Reference "c").

Definition ac_context : Ctx float64 :=
  <["a" := Num64 "2"]> (<["c" := Num64 "0"]> ∅).

(** The text of an operation on two parenthesized texts. *)
Definition operation_text (op : Operator) (s1 s2 : string) : string :=
  "(" +:+ s1 +:+ ") " +:+ op_string op +:+ " (" +:+ s2 +:+ ")".

(** A source of the exact model returning 1/2 at its first three calls and
    NaN afterwards. *)
Definition half_then_nan : nat -> @num xnum :=
  fun i => if (i <? 3)%nat then Exact.Fin (Q2Qc (Qmake 1 2)) else Exact.NaN.

(** ** Expression texts and their direct evaluation *)








Section Direct.
Context {NUM : Number} {TXT : NumberText NUM}.

(** The names of the texts, and what may come directly after a binary
    "-". *)
Variable name : string -> bool.
Variable after_minus : string -> bool.
Variable C : Ctx NUM.


End Direct.


(** ** Context objects and the limits of the engine *)

Section Objects.
Context {NUM : Number}.

(** What [context[name]] yields when the lookup finds a property, own or
    inherited through the prototype chain: a number, or a member that is
    not a number (a function or an object of the chain). *)
Inductive Property :=
| PNumber (v : num)
| PMember.

(** A context object as its lookups see it: the properties they find. *)
Definition Object := gmap string Property.

(** The names of the properties of Object.prototype, which every object
    written as a literal inherits. *)
Definition object_prototype : list string :=
  ["constructor"; "hasOwnProperty"; "isPrototypeOf"; "propertyIsEnumerable";
   "toLocaleString"; "toString"; "valueOf"; "__proto__";
   "__defineGetter__"; "__defineSetter__"; "__lookupGetter__";
   "__lookupSetter__"].

(** The object literal with the own properties [C]: a lookup finds the own
    numbers first, then the members of Object.prototype. *)
Definition object_literal (C : Ctx NUM) : Object :=
  (PNumber <$> C) ∪ list_to_map ((fun x => (x, PMember)) <$> object_prototype).

(** The properties that are numbers: what [typeof v === 'number'] keeps. *)
Definition numbers (O : Object) : Ctx NUM :=
  omap (fun p => match p with PNumber v => Some v | PMember => None end) O.

(** The values met by an evaluation: a number, or a value that is not a
    number, which is a member of the context object or a string built from
    one by "+". *)
Inductive Value :=
| VNumber (v : num)
| VOther.

(** NaN, as 0 / 0. *)
Definition n_nan : num := ndiv zero zero.

(** ToNumber of a value: a function, an object of the prototype chain and
    a text built from them convert to NaN. *)
Definition to_number (a : Value) : num :=
  match a with
  | VNumber x => x
  | VOther => n_nan
  end.

(** doOp on values: "+" adds two numbers and concatenates texts when an
    operand is not a number; "-", "*" and "/" convert their operands to
    numbers. *)
Definition doOp_value (op : Operator) (a b : Value) : Value :=
  match op, a, b with
  | Add, VNumber x, VNumber y => VNumber (nadd x y)
  | Add, _, _ => VOther
  | _, _, _ => VNumber (doOp op (to_number a) (to_number b))
  end.

(** context[this.ref] ?? 0 *)
Definition lookup_value (O : Object) (ref : string) : Value :=
  match O !! ref with
  | Some (PNumber v) => VNumber v
  | Some PMember => VOther
  | None => VNumber zero
  end.

(** The largest length of an array, 2^32 - 1. *)
Definition max_array_length : N := 4294967295.

(** An engine takes a limited number of arguments in a call. *)
Record Engine := { max_arguments : N }.

(** An evaluation returns a value and the state of the source and of the
    sink, or throws a RangeError. *)
Inductive Outcome :=
| Returns (v : Value) (st : State NUM)
| RangeError.

(** The draws of a Roll fit when [rolls.push] stays within the largest
    array length and, with a modifier, [Math.max(...rolls)] or
    [Math.min(...rolls)] within the arguments of a call. *)
Definition rolls_fit (engine : Engine) (spec : N * N * option DiceMod) : bool :=
  let '(dice, _, dmod) := spec in
  (dice <=? max_array_length)%N
  && match dmod with
     | Some _ => (dice <=? max_arguments engine)%N
     | None => true
     end.

(** Expression.calc on a context object and an engine with its limits. *)
Fixpoint evaluate (engine : Engine) (rnd : nat -> num) (e : Expression NUM)
    (O : Object) (st : State NUM) : Outcome :=
  match e with
  | Literal val => Returns (VNumber val) st
  | Reference ref => Returns (lookup_value O ref) st
  | Roll dice sides dmod =>
      if rolls_fit engine (dice, sides, dmod) then
        let '(v, st') := calc rnd e ∅ st in Returns (VNumber v) st'
      else RangeError
  | Operation op l r =>
      match evaluate engine rnd l O st with
      | RangeError => RangeError
      | Returns a st1 =>
          match evaluate engine rnd r O st1 with
          | RangeError => RangeError
          | Returns b st2 => Returns (doOp_value op a b) st2
          end
      end
  end.

End Objects.

Arguments Property : clear implicits.
Arguments Object : clear implicits.
Arguments Value : clear implicits.
Arguments Outcome : clear implicits.

(** An engine taking 65536 arguments in a call. *)
Definition small_engine : Engine := {| max_arguments := 65536 |}.

(** * Properties *)

Section LexerFacts.
Context {NUM : Number} {TXT : NumberText NUM}.

(** C9 (fails on the code): the name "a0" is not lexed as one Reference.
    The character class of the symbol body is [1-9], so the symbol stops
    before "0": [tokenize] yields the Reference "a" and the Literal 0, and
    [parse] throws the SyntaxError for the unexpected token. *)
Theorem a0_is_split :
  tokenize "a0"
    = [LTok (TExpr (Reference "a")); LTok (TExpr (Literal (of_literal "0")))]
  /\ parse "a0"
    = Err (UnexpectedToken (TExpr (Literal (of_literal "0"))) (Reference "a")).
Proof. split; reflexivity. Qed.

End LexerFacts.

Section Structure.
Context {NUM : Number}.
Implicit Types (e l r : Expression NUM) (C : Ctx NUM).

(** Case analysis on the simplified children of an Operation. *)
Ltac simplify_cases l r C :=
  let l' := fresh "l'" in
  let r' := fresh "r'" in
  let sl := fresh "sl" in
  let sr := fresh "sr" in
  let El := fresh "El" in
  let Er := fresh "Er" in
  destruct (simplify_id l C) as [l' sl] eqn:El;
  destruct (simplify_id r C) as [r' sr] eqn:Er;
  destruct l' as [? | ? | ? ? ? | ? ? [? | ? | ? ? ? | ? ? ?]];
  destruct r' as [? | ? | ? ? ? | ? ? ?];
  try case_decide.

Lemma rolls_of_mergeLeft farLeft lop lv op rv :
  rolls_of (mergeLeft farLeft lop lv op rv) = rolls_of farLeft.
Proof.
  unfold mergeLeft.
  repeat (case_decide || case_match); simplify_eq/=;
    rewrite ?app_nil_r; reflexivity.
Qed.

Lemma rolls_of_simplify e C : rolls_of (fst (simplify_id e C)) = rolls_of e.
Proof.
  induction e as [v | x | d s m | op l IHl r IHr]; simpl; try reflexivity.
  - destruct (C !! x); reflexivity.
  - simplify_cases l r C; simpl in *;
      rewrite ?rolls_of_mergeLeft;
      try (destruct sl, sr; simpl);
      rewrite <- ?IHl, <- ?IHr; simpl; rewrite ?app_nil_r; reflexivity.
Qed.

Lemma draws_of_app (a b : list (N * N * option DiceMod)) :
  draws_of (a ++ b) = (draws_of a + draws_of b)%nat.
Proof.
  induction a as [|sp a IH]; simpl; [reflexivity|].
  rewrite IH. lia.
Qed.

Lemma roll_entries_app rnd n (a b : list (N * N * option DiceMod)) :
  roll_entries rnd n (a ++ b)
  = roll_entries rnd n a ++ roll_entries rnd (n + draws_of a) b.
Proof.
  revert n. induction a as [|sp a IH]; intros n; simpl.
  - rewrite Nat.add_0_r. reflexivity.
  - rewrite IH. do 3 f_equal. lia.
Qed.

Lemma after_rolls_app rnd (a b : list (N * N * option DiceMod)) st :
  after_rolls rnd (a ++ b) st = after_rolls rnd b (after_rolls rnd a st).
Proof.
  destruct st as [n sink]. unfold after_rolls; simpl.
  rewrite draws_of_app, roll_entries_app, Nat.add_assoc.
  destruct sink; [rewrite app_assoc|]; reflexivity.
Qed.

Lemma after_rolls_nil rnd st : after_rolls rnd [] st = st.
Proof.
  destruct st as [n sink]. unfold after_rolls; simpl.
  rewrite Nat.add_0_r. destruct sink; [rewrite app_nil_r|]; reflexivity.
Qed.

(** The state after [calc] depends on the rolls of the expression only. *)
Lemma calc_state rnd e C st :
  snd (calc rnd e C st) = after_rolls rnd (rolls_of e) st.
Proof.
  revert st.
  induction e as [v | x | d s m | op l IHl r IHr]; intros st; simpl.
  - rewrite after_rolls_nil. reflexivity.
  - rewrite after_rolls_nil. reflexivity.
  - destruct st as [n sink]. unfold after_rolls; simpl.
    rewrite Nat.add_0_r. destruct sink; reflexivity.
  - specialize (IHl st).
    destruct (calc rnd l C st) as [a st1].
    specialize (IHr st1).
    destruct (calc rnd r C st1) as [b st2]. simpl in *. subst.
    rewrite after_rolls_app. reflexivity.
Qed.

(** A result flagged as the receiver is the receiver. *)
Lemma simplify_id_same e C :
  snd (simplify_id e C) = true -> fst (simplify_id e C) = e.
Proof.
  induction e as [v | x | d s m | op l IHl r IHr]; simpl; try reflexivity.
  - destruct (C !! x); [discriminate | reflexivity].
  - simplify_cases l r C; simpl in *; try discriminate;
      destruct sl, sr; simpl; try discriminate; reflexivity.
Qed.

Lemma size_pos e : (1 <= size e)%nat.
Proof. destruct e; simpl; lia. Qed.

Lemma size_mergeLeft farLeft lop lv op rv :
  (size (mergeLeft farLeft lop lv op rv) <= S (size farLeft + 1))%nat.
Proof.
  unfold mergeLeft.
  repeat (case_decide || case_match); simplify_eq/=; lia.
Qed.

(** Simplification never grows an expression. *)
Lemma size_simplify e C : (size (fst (simplify_id e C)) <= size e)%nat.
Proof.
  induction e as [v | x | d s m | op l IHl r IHr]; simpl; try lia.
  - destruct (C !! x); simpl; lia.
  - pose proof (size_pos l). pose proof (size_pos r).
    simplify_cases l r C; simpl in *;
      try (etransitivity; [apply size_mergeLeft|]);
      try (destruct sl, sr; simpl); lia.
Qed.

(** The shape of Operation.simplify in terms of the two rewriting cases. *)
Lemma simplify_id_keep op l r C l' r' sl sr :
  simplify_id l C = (l', sl) -> simplify_id r C = (r', sr) ->
  folds l' r' = false -> merges op l' r' = false ->
  simplify_id (Operation op l r) C
  = if sl && sr then (Operation op l r, true) else (Operation op l' r', false).
Proof.
  intros El Er Hf Hm. simpl. rewrite El, Er.
  destruct l' as [? | ? | ? ? ? | ? ? [? | ? | ? ? ? | ? ? ?]];
  destruct r' as [? | ? | ? ? ? | ? ? ?]; simpl in *; try discriminate;
    try reflexivity.
  case_decide; [|reflexivity].
  rewrite bool_decide_eq_false in Hm. contradiction.
Qed.

Lemma simplify_id_rewrites op l r C :
  (folds (fst (simplify_id l C)) (fst (simplify_id r C))
   || merges op (fst (simplify_id l C)) (fst (simplify_id r C))) = true ->
  snd (simplify_id (Operation op l r) C) = false.
Proof.
  simpl. simplify_cases l r C; simpl; try discriminate; try reflexivity;
    rewrite bool_decide_eq_true; contradiction.
Qed.

(** An Operation returned as the receiver has unchanged children and none
    of the two rewriting cases applies to them. *)
Lemma simplify_id_same_inv op l r C :
  snd (simplify_id (Operation op l r) C) = true ->
  simplify_id l C = (l, true) /\ simplify_id r C = (r, true)
  /\ folds l r = false /\ merges op l r = false.
Proof.
  intros H.
  destruct (folds (fst (simplify_id l C)) (fst (simplify_id r C))
            || merges op (fst (simplify_id l C)) (fst (simplify_id r C)))
    eqn:Hrw.
  { apply (simplify_id_rewrites op) in Hrw. congruence. }
  apply orb_false_iff in Hrw as [Hf Hm].
  destruct (simplify_id l C) as [l' sl] eqn:El.
  destruct (simplify_id r C) as [r' sr] eqn:Er. simpl in Hf, Hm.
  rewrite (simplify_id_keep op l r C l' r' sl sr El Er Hf Hm) in H.
  destruct sl, sr; simpl in H; try discriminate.
  pose proof (simplify_id_same l C) as Il. rewrite El in Il.
  pose proof (simplify_id_same r C) as Ir. rewrite Er in Ir.
  simpl in Il, Ir. rewrite Il in * by reflexivity. rewrite Ir in * by reflexivity.
  auto.
Qed.

Lemma mergeLeft_shape farLeft lop lv op rv :
  precedence lop = precedence op ->
  mergeLeft farLeft lop lv op rv = farLeft
  \/ exists op' x, precedence op' = precedence lop
       /\ mergeLeft farLeft lop lv op rv = Operation op' farLeft (Literal x).
Proof.
  intros Hp. unfold mergeLeft.
  repeat (case_decide || case_match); simplify_eq/=; eauto.
Qed.

(** Simplified expressions are fixed points, returned as the receiver. *)
Lemma simplify_id_fixed e C :
  simplify_id (fst (simplify_id e C)) C = (fst (simplify_id e C), true).
Proof.
  induction e as [v | x | d s m | op l IHl r IHr]; try reflexivity.
  - simpl. destruct (C !! x) eqn:E; simpl; [reflexivity | rewrite E; reflexivity].
  - destruct (folds (fst (simplify_id l C)) (fst (simplify_id r C))
              || merges op (fst (simplify_id l C)) (fst (simplify_id r C)))
      eqn:Hrw.
    + (* a fold or a merge *)
      simpl. destruct (simplify_id l C) as [l' sl] eqn:El.
      destruct (simplify_id r C) as [r' sr] eqn:Er. simpl in *.
      destruct l' as [? | ? | ? ? ? | lop ll [lv | ? | ? ? ? | ? ? ?]];
      destruct r' as [rv | ? | ? ? ? | ? ? ?]; simpl in Hrw; try discriminate;
        try reflexivity.
      rewrite bool_decide_eq_true in Hrw. case_decide; [|contradiction].
      simpl.
      assert (Hs : snd (simplify_id (Operation lop ll (Literal lv)) C) = true)
        by (rewrite IHl; reflexivity).
      apply simplify_id_same_inv in Hs as (Hll & _ & Hf & Hm).
      destruct (mergeLeft_shape ll lop lv op rv Hrw) as [-> | (op' & x & Hp & ->)];
        [exact Hll|].
      rewrite (simplify_id_keep op' ll (Literal x) C ll (Literal x) true true);
        try reflexivity; try exact Hll.
      * destruct ll; simpl in *; congruence.
      * destruct ll as [? | ? | ? ? ? | ? ? [? | ? | ? ? ? | ? ? ?]];
          simpl in *; try reflexivity.
        rewrite bool_decide_eq_false in Hm. rewrite bool_decide_eq_false.
        congruence.
    + apply orb_false_iff in Hrw as [Hf Hm].
      destruct (simplify_id l C) as [l' sl] eqn:El.
      destruct (simplify_id r C) as [r' sr] eqn:Er. simpl in Hf, Hm, IHl, IHr.
      rewrite (simplify_id_keep op l r C l' r' sl sr El Er Hf Hm).
      destruct (sl && sr) eqn:Hb; cbn [fst].
      * rewrite (simplify_id_keep op l r C l' r' sl sr El Er Hf Hm), Hb.
        reflexivity.
      * rewrite (simplify_id_keep op l' r' C l' r' true true IHl IHr Hf Hm).
        reflexivity.
Qed.

(** A result equal to the receiver is flagged as the receiver: a new
    object always differs from it structurally. *)
Lemma simplify_id_changed e C :
  fst (simplify_id e C) = e -> snd (simplify_id e C) = true.
Proof.
  induction e as [v | x | d s m | op l IHl r IHr]; try reflexivity.
  - simpl. destruct (C !! x); [discriminate | reflexivity].
  - intros Heq.
    pose proof (size_simplify l C) as Sl. pose proof (size_simplify r C) as Sr.
    pose proof (size_pos r) as Pr.
    destruct (simplify_id l C) as [l' sl] eqn:El.
    destruct (simplify_id r C) as [r' sr] eqn:Er.
    destruct (folds l' r' || merges op l' r') eqn:Hrw.
    + exfalso. simpl in Heq. rewrite El, Er in Heq.
      destruct l' as [? | ? | ? ? ? | lop ll [lv | ? | ? ? ? | ? ? ?]];
      destruct r' as [rv | ? | ? ? ? | ? ? ?]; simpl in Hrw; try discriminate.
      rewrite bool_decide_eq_true in Hrw. case_decide; [|contradiction].
      simpl in Heq, Sl.
      pose proof (size_mergeLeft ll lop lv op rv) as Sm.
      rewrite Heq in Sm. simpl in Sm. lia.
    + apply orb_false_iff in Hrw as [Hf Hm].
      rewrite (simplify_id_keep op l r C l' r' sl sr El Er Hf Hm) in *.
      destruct (sl && sr) eqn:Hb; [reflexivity|]. exfalso.
      simpl in Heq, IHl, IHr. injection Heq as -> ->.
      rewrite IHl, IHr in Hb by reflexivity. discriminate.
Qed.

End Structure.

(** C7: simplify is idempotent, and an unchanged result is the receiver.
    A second call of simplify on a simplified expression returns it, flagged
    as the receiver itself (a no-op); and, for every expression, the result
    is flagged as the receiver exactly when it is structurally equal to
    it. *)
Theorem simplify_idempotent {NUM : Number} (e : Expression NUM)
    (context : option (Ctx NUM)) :
  let C := default ∅ context in
  simplify (simplify e context) context = simplify e context
  /\ simplify_id (simplify e context) C = (simplify e context, true)
  /\ (snd (simplify_id e C) = true <-> fst (simplify_id e C) = e).
Proof.
  intros C. unfold simplify. fold C. rewrite simplify_id_fixed.
  repeat split.
  - apply simplify_id_same.
  - apply simplify_id_changed.
Qed.

(** C8: simplify never rolls dice.  A Roll simplifies to itself, as the
    receiver; the Roll nodes of a simplified expression are those of the
    expression, in the same order (none is replaced by a number); and
    evaluating the simplified expression takes the same draws from the
    random source and pushes the same entries to the sink as evaluating the
    expression, so that simplifying has used no draw. *)
Theorem simplify_never_rolls {NUM : Number} (e : Expression NUM)
    (context : option (Ctx NUM)) :
  (forall dice sides dmod C,
      simplify_id (Roll dice sides dmod) C = (Roll dice sides dmod, true))
  /\ rolls_of (simplify e context) = rolls_of e
  /\ (forall rnd C st,
        snd (calc rnd (simplify e context) C st) = snd (calc rnd e C st)).
Proof.
  repeat split.
  - apply rolls_of_simplify.
  - intros rnd C st. rewrite !calc_state. unfold simplify.
    rewrite rolls_of_simplify. reflexivity.
Qed.

Section MergeLeft.
Context {NUM : Number}.

Lemma mergeLeft_different (farLeft : Expression NUM) op1 l op2 r :
  op1 <> op2 ->
  mergeLeft farLeft op1 l op2 r
  = if n_eq l r then farLeft
    else if n_gt l r then Operation op1 farLeft (Literal (combine op1 l r))
    else Operation op2 farLeft (Literal (combine op2 r l)).
Proof.
  intros Hne. unfold mergeLeft, combine.
  case_decide; [contradiction|].
  destruct (n_eq l r); [reflexivity|].
  destruct (n_gt l r); case_decide; reflexivity.
Qed.

End MergeLeft.

(** C3 (amended): the left-merge of two different operators of one
    precedence.  When simplify meets an Operation [op2] whose left operand
    simplifies to [farLeft op1 lit1] and whose right operand simplifies to
    the literal [lit2], whatever folds, substitutions and merges gave these
    two: if lit1 === lit2 the result is farLeft alone; otherwise the
    literals are compared as signed numbers, not by magnitude, and the
    result is [farLeft op1 (lit1 - lit2)] (lit1 / lit2 for * and /) if
    lit1 > lit2, and [farLeft op2 (lit2 - lit1)] (lit2 / lit1) if not.  For
    * and / this is stated of positive literals only.  On binary64,
    simplifying "a + 5 - 5" and "a / 5 * 5" prints "a", simplifying
    "a + 5 - 2" prints "a + 3" and simplifying "a + 2 + 3 - 1" prints
    "a + 4". *)
Theorem mergeLeft_signed_comparison {NUM : Number} (C : Ctx NUM)
    (l r farLeft : Expression NUM) (op1 op2 : Operator) (lit1 lit2 : num) :
  precedence op1 = precedence op2 ->
  op1 <> op2 ->
  fst (simplify_id l C) = Operation op1 farLeft (Literal lit1) ->
  fst (simplify_id r C) = Literal lit2 ->
  (precedence op1 = 1%nat -> n_gt lit1 zero = true /\ n_gt lit2 zero = true) ->
  fst (simplify_id (Operation op2 l r) C)
  = (if n_eq lit1 lit2 then farLeft
     else if n_gt lit1 lit2
          then Operation op1 farLeft (Literal (combine op1 lit1 lit2))
          else Operation op2 farLeft (Literal (combine op2 lit2 lit1)))
  /\ @simplifyExpr float64 float64_text "a + 5 - 5" = Ok "a"
  /\ @simplifyExpr float64 float64_text "a / 5 * 5" = Ok "a"
  /\ @simplifyExpr float64 float64_text "a + 5 - 2" = Ok "a + 3"
  /\ @simplifyExpr float64 float64_text "a + 2 + 3 - 1" = Ok "a + 4".
Proof.
  intros Hp Hne Hl Hr _. split; [|repeat split; reflexivity].
  cbn [simplify_id].
  destruct (simplify_id l C) as [l' same_l], (simplify_id r C) as [r' same_r].
  cbn [fst] in Hl, Hr. subst l' r'.
  case_decide; [|contradiction].
  cbn [fst]. apply mergeLeft_different. exact Hne.
Qed.

Lemma mergeLeft_signed_comparison_witness :
  fst (simplify_id
         (Operation Sub
            (Operation Add
               (Operation Add (Reference "a") (Literal (Num64 "2")))
               (Literal (Num64 "3")))
            (Literal (Num64 "1"))) (∅ : Ctx float64))
  = Operation Add (Reference "a") (Literal (Num64 "4"))
  /\ fst (simplify_id
            (Operation Div
               (Operation Mul (Reference "a") (Literal (Num64 "4")))
               (Reference "b"))
            (<["b" := Num64 "2"]> ∅ : Ctx float64))
     = Operation Mul (Reference "a") (Literal (Num64 "2")).
Proof.
  split.
  - refine (eq_trans
      (proj1 (@mergeLeft_signed_comparison float64 ∅
                (Operation Add
                   (Operation Add (Reference "a") (Literal (Num64 "2")))
                   (Literal (Num64 "3")))
                (Literal (Num64 "1")) (Reference "a") Add Sub
                (Num64 "5") (Num64 "1") _ _ _ _ _)) _).
    + reflexivity.
    + discriminate.
    + reflexivity.
    + reflexivity.
    + discriminate.
    + reflexivity.
  - refine (eq_trans
      (proj1 (@mergeLeft_signed_comparison float64 (<["b" := Num64 "2"]> ∅)
                (Operation Mul (Reference "a") (Literal (Num64 "4")))
                (Reference "b") (Reference "a") Mul Div
                (Num64 "4") (Num64 "2") _ _ _ _ _)) _).
    + reflexivity.
    + discriminate.
    + reflexivity.
    + reflexivity.
    + intros _. split; reflexivity.
    + reflexivity.
Defined.

(** The merge of literals of different signs under * and /, which the
    amended claim leaves out: the code keeps "*" for "a * 1 / -3", with the
    quotient 1 / -3. *)
Lemma mergeLeft_mixed_signs :
  @simplifyExpr float64 float64_text "a * 1 / -3" = Ok "a * -0.3333333333333333"
  /\ @simplifyExpr float64 float64_text "a * -1 / 3" = Ok "a / -3".
Proof. split; reflexivity. Qed.

(** C3, as stated, fails on a negative literal: in "a + -5 - 2" the literal
    of larger magnitude is -5, so the claim keeps "+" with 5 - 2 = 3, while
    the code compares -5 > 2, keeps "-" and yields 2 - -5 = 7. *)
Lemma mergeLeft_not_by_magnitude :
  mergeLeft (Reference "a") Add (Num64 "-5") Sub (Num64 "2")
    = Operation Sub (Reference "a") (Literal (Num64 "7"))
  /\ merge_by_magnitude (Reference "a") Add (Num64 "-5") Sub
       (Num64 "2")
    = Operation Add (Reference "a") (Literal (Num64 "3"))
  /\ @simplifyExpr float64 float64_text "a + -5 - 2" = Ok "a - 7"
  /\ @mergeLeft float64 (Reference "a") Add (Num64 "-5") Sub
       (Num64 "2")
     <> merge_by_magnitude (Reference "a") Add (Num64 "-5") Sub
          (Num64 "2").
Proof.
  assert (E1 : @mergeLeft float64 (Reference "a") Add (Num64 "-5")
                 Sub (Num64 "2")
               = Operation Sub (Reference "a") (Literal (Num64 "7")))
    by reflexivity.
  assert (E2 : merge_by_magnitude (Reference "a") Add (Num64 "-5")
                 Sub (Num64 "2")
               = Operation Add (Reference "a") (Literal (Num64 "3")))
    by reflexivity.
  split; [exact E1|]. split; [exact E2|]. split; [reflexivity|].
  rewrite E1, E2. discriminate.
Qed.

Section MinusDigit.
Context {NUM : Number} {TXT : NumberText NUM}.

Lemma match_lit_minus_digit c rest :
  is_digit c = true ->
  exists text rest',
    match_lit (String "-" (String c rest)) = Some (String "-" (String c text), rest').
Proof.
  intros Hc. unfold match_lit.
  change (match_sign (String "-" (String c rest))) with ("-", String c rest).
  cbn [span]. rewrite Hc.
  destruct (span is_digit rest) as [ds r1].
  cbn [is_empty]. destruct (match_fraction r1) as [fraction r2].
  exists (ds +:+ fraction), r2. reflexivity.
Qed.

End MinusDigit.

(** C10: a "-" directly followed by a digit is lexed as the sign of a
    negative Literal, never as the operator.  So parse throws the
    SyntaxError for an unexpected token on "1-2" and on "a-2", while
    "1 - 2" and "a - 2" parse as subtractions. *)
Theorem minus_digit_is_a_literal {NUM : Number} {TXT : NumberText NUM}
    (c : ascii) (rest : string) :
  is_digit c = true ->
  (exists text rest',
      exec (String "-" (String c rest))
      = Some (TExpr (Literal (of_literal (String "-" (String c text)))), rest'))
  /\ parse "1-2"
     = Err (UnexpectedToken (TExpr (Literal (of_literal "-2")))
              (Literal (of_literal "1")))
  /\ parse "a-2"
     = Err (UnexpectedToken (TExpr (Literal (of_literal "-2"))) (Reference "a"))
  /\ parse "1 - 2"
     = Ok (Operation Sub (Literal (of_literal "1")) (Literal (of_literal "2")))
  /\ parse "a - 2"
     = Ok (Operation Sub (Reference "a") (Literal (of_literal "2"))).
Proof.
  intros Hc. split; [|repeat split; reflexivity].
  destruct (match_lit_minus_digit c rest Hc) as (text & rest' & Hm).
  exists text, rest'. unfold exec.
  change (skip_space (String "-" (String c rest))) with (String "-" (String c rest)).
  change (match_sym (String "-" (String c rest))) with (@None (string * string)).
  assert (Hd : match_dice (String "-" (String c rest)) = None) by reflexivity.
  rewrite Hd, Hm. reflexivity.
Qed.

Lemma minus_digit_is_a_literal_witness :
  exists text rest',
    @exec float64 float64_text "-2"
    = Some (TExpr (Literal (Num64 (String "-" (String "2" text)))), rest').
Proof.
  exact (proj1 (@minus_digit_is_a_literal float64 float64_text "2" EmptyString
                  eq_refl)).
Defined.

Section Span.

Lemma char_eqb_eq a b : char_eqb a b = true <-> a = b.
Proof.
  unfold char_eqb. rewrite N.eqb_eq. split; [|congruence].
  intros H. rewrite <- (ascii_N_embedding a), <- (ascii_N_embedding b).
  congruence.
Qed.

Lemma span_spec p s a b :
  span p s = (a, b) ->
  s = a +:+ b /\ string_forall p a = true /\ stops p b = true.
Proof.
  revert a b. induction s as [|c s IH]; intros a b H; simpl in H.
  - injection H as <- <-. auto.
  - destruct (p c) eqn:Hc.
    + destruct (span p s) as [a' b'] eqn:E. injection H as <- <-.
      destruct (IH a' b' eq_refl) as (-> & Ha & Hb).
      simpl. rewrite Hc, Ha. auto.
    + injection H as <- <-. simpl. rewrite Hc. auto.
Qed.

Lemma match_mod_spec s dmod rest :
  match_mod s = (dmod, rest) -> s = mod_string dmod +:+ rest.
Proof.
  destruct s as [|c r]; simpl; [intros [= <- <-]; reflexivity|].
  destruct (char_eqb c "h") eqn:Eh;
    [apply char_eqb_eq in Eh as ->; intros [= <- <-]; reflexivity|].
  destruct (char_eqb c "l") eqn:El;
    [apply char_eqb_eq in El as ->; intros [= <- <-]; reflexivity|].
  intros [= <- <-]; reflexivity.
Qed.

(** What a match of the alternative dice consists of. *)
Lemma match_dice_spec s dice sides dmod rest :
  match_dice s = Some (dice, sides, dmod, rest) ->
  s = dice +:+ "d" +:+ sides +:+ mod_string dmod +:+ rest
  /\ is_digits dice = true /\ is_digits sides = true.
Proof.
  unfold match_dice, is_digits.
  destruct (span is_digit s) as [d1 r1] eqn:E1.
  destruct (span_spec _ _ _ _ E1) as (-> & Hd1 & _).
  destruct (is_empty d1) eqn:N1; [discriminate|].
  destruct r1 as [|c r2]; [discriminate|].
  destruct (char_eqb c "d") eqn:Ec; [|discriminate].
  apply char_eqb_eq in Ec as ->.
  destruct (span is_digit r2) as [d2 r3] eqn:E2.
  destruct (span_spec _ _ _ _ E2) as (-> & Hd2 & _).
  destruct (is_empty d2) eqn:N2; [discriminate|].
  destruct (match_mod r3) as [m r4] eqn:Em.
  apply match_mod_spec in Em as ->.
  intros [= <- <- <- <-]. rewrite N1, N2, Hd1, Hd2. auto.
Qed.

End Span.

Section Robustness.
Context {NUM : Number} {TXT : NumberText NUM}.


End Robustness.


(** ** Dice rolls on binary64 *)

Section RollLoop.
Context {NUM : Number}.

Lemma roll_loop_spec (rnd : nat -> num) sides k cursor :
  roll_loop rnd sides k cursor
  = map (fun i => roll1 rnd sides (cursor + i)) (seq 0 k).
Proof.
  revert cursor. induction k as [|k IH]; intros cursor; simpl; [reflexivity|].
  rewrite Nat.add_0_r. f_equal. rewrite IH, <- seq_shift, map_map.
  apply map_ext. intros i. f_equal. lia.
Qed.

End RollLoop.

(** ** Rounding on binary64 *)

Section Rounding64.

























































End Rounding64.





(** ** The parser follows the grammar *)

Section ParserCorrect.
Context {NUM : Number}.
Implicit Types (e : Expression NUM) (ts : list (Token NUM))
  (rest : list (Lexeme NUM)).

Lemma op_loop_stops fuel op1 op2 (np : Parser NUM) e rest :
  stops_loop op1 op2 rest -> op_loop fuel op1 op2 np e rest = Ok (e, rest).
Proof.
  destruct rest as [|[[leaf|[op| |]]|text] rest]; simpl; try tauto;
    destruct fuel; simpl; try reflexivity;
    intros [H1 H2]; case_decide; tauto || reflexivity.
Qed.

Lemma op_loop_step fuel op1 op2 (np : Parser NUM) e op rest e2 rest2 :
  op = op1 \/ op = op2 ->
  np rest = Ok (e2, rest2) ->
  op_loop (S fuel) op1 op2 np e (LTok (TPunct (POp op)) :: rest)
  = op_loop fuel op1 op2 np (Operation op e e2) rest2.
Proof.
  intros Hop Hnp. simpl. case_decide; [|contradiction]. rewrite Hnp.
  reflexivity.
Qed.

Lemma derives_parses lvl ts e : derives lvl ts e -> parses lvl ts e.
Proof.
  induction 1 as [e Hleaf | ts e _ IH | ts e _ IH
                 | ts1 e1 op ts2 e2 _ IH1 Hop _ IH2 | ts e _ IH
                 | ts1 e1 op ts2 e2 _ IH1 Hop _ IH2];
    intros fuel rest Hfuel.
  - (* a leaf *)
    destruct e; try discriminate; destruct fuel; reflexivity.
  - (* a parenthesized expression *)
    rewrite !length_app in Hfuel. simpl in Hfuel.
    destruct fuel as [|fuel]; [lia|].
    rewrite !map_app, <- !app_assoc. simpl.
    destruct (IH fuel (LTok (TPunct RParen) :: rest)) as (fuel' & _ & Hp);
      [simpl; lia | exact I |].
    unfold parseExpr, parseTerm in Hp. rewrite Hp.
    rewrite op_loop_stops by (simpl; split; discriminate). reflexivity.
  - (* a factor as a term *)
    exists fuel. split; [lia|]. unfold parseTerm, opParser.
    rewrite (IH fuel rest Hfuel). reflexivity.
  - (* term "*" factor *)
    rewrite !length_app in Hfuel. simpl in Hfuel.
    destruct (IH1 fuel (LTok (TPunct (POp op)) :: map LTok ts2 ++ rest))
      as (fuel1 & Hf1 & Hp).
    { simpl. rewrite length_app, length_map. lia. }
    simpl in Hf1. rewrite length_app, length_map in Hf1.
    destruct fuel1 as [|fuel1]; [lia|].
    exists fuel1. split; [lia|].
    rewrite !map_app, <- !app_assoc. simpl. simpl in Hp. rewrite Hp.
    apply op_loop_step; [exact Hop|]. apply IH2. lia.
  - (* a term as an expression *)
    intros Hstop. exists fuel. split; [lia|].
    destruct (IH fuel rest Hfuel) as (fuel' & _ & Hp).
    unfold parseExpr, opParser. rewrite Hp, op_loop_stops by exact Hstop.
    reflexivity.
  - (* expr "+" term *)
    intros Hstop.
    rewrite !length_app in Hfuel. simpl in Hfuel.
    destruct (IH1 fuel (LTok (TPunct (POp op)) :: map LTok ts2 ++ rest))
      as (fuel1 & Hf1 & Hp).
    { simpl. rewrite length_app, length_map. lia. }
    { simpl. destruct Hop as [-> | ->]; split; discriminate. }
    simpl in Hf1. rewrite length_app, length_map in Hf1.
    destruct fuel1 as [|fuel1]; [lia|].
    exists fuel1. split; [lia|].
    rewrite !map_app, <- !app_assoc. simpl. simpl in Hp. rewrite Hp.
    apply op_loop_step; [exact Hop|].
    destruct (IH2 fuel rest) as (fuel2 & _ & Hp2); [lia|].
    rewrite Hp2. apply op_loop_stops. exact Hstop.
Qed.

Context {TXT : NumberText NUM}.

(** A text whose tokens derive an expression parses to it. *)
Lemma parse_derives input ts e :
  tokenize (trim input) = map LTok ts ->
  derives Expr ts e ->
  parse input = Ok e.
Proof.
  intros Htok Hd. unfold parse. rewrite Htok.
  destruct (derives_parses Expr ts e Hd (length (map LTok ts)) [])
    as (fuel' & _ & Hp).
  { rewrite length_map. simpl. lia. }
  { exact I. }
  rewrite app_nil_r in Hp. rewrite Hp, op_loop_stops by exact I.
  reflexivity.
Qed.

End ParserCorrect.

Section DirectEvaluation.
Context {NUM : Number}.


End DirectEvaluation.

(** ** The lexer on texts *)

Section Strings.

Lemma str_app_cons x (a b : string) : String x a +:+ b = String x (a +:+ b).
Proof. reflexivity. Qed.

Lemma str_app_assoc (a b c : string) : (a +:+ b) +:+ c = a +:+ b +:+ c.
Proof.
  induction a as [|x a IH]; [reflexivity|].
  rewrite !str_app_cons, IH. reflexivity.
Qed.

Lemma str_app_nil_r (a : string) : a +:+ EmptyString = a.
Proof.
  induction a as [|x a IH]; [reflexivity|].
  rewrite str_app_cons, IH. reflexivity.
Qed.

Lemma str_length_app (a b : string) :
  String.length (a +:+ b) = (String.length a + String.length b)%nat.
Proof.
  induction a as [|x a IH]; [reflexivity|].
  rewrite str_app_cons. cbn [String.length]. rewrite IH. reflexivity.
Qed.

Lemma is_empty_app (a b : string) :
  is_empty a = false -> is_empty (a +:+ b) = false.
Proof. destruct a; [discriminate | reflexivity]. Qed.

Lemma is_empty_true (a : string) : is_empty a = true -> a = EmptyString.
Proof. destruct a; [reflexivity | discriminate]. Qed.

(** Facts on the character classes, by arithmetic on character codes. *)
Ltac char_class :=
  unfold follows, is_space, is_digit, is_sym_start, is_sym_char,
    in_range, char_eqb in *;
  repeat match goal with
         | |- _ = false => apply not_true_iff_false; intro
         | H : _ = false |- _ => apply not_true_iff_false in H
         end;
  rewrite ?orb_true_iff, ?andb_true_iff, ?N.leb_le, ?N.eqb_eq in *;
  repeat match goal with
         | c : ascii |- _ =>
             let n := fresh "n" in
             generalize dependent (N_of_ascii c); intros n; clear c
         end;
  cbn in *; lia.

Lemma sym_start_not_space c : is_sym_start c = true -> is_space c = false.
Proof. intros H. char_class. Qed.

Lemma sym_start_not_digit c : is_sym_start c = true -> is_digit c = false.
Proof. intros H. char_class. Qed.

Lemma digit_not_space c : is_digit c = true -> is_space c = false.
Proof. intros H. char_class. Qed.

Lemma digit_not_sym_start c : is_digit c = true -> is_sym_start c = false.
Proof. intros H. char_class. Qed.

Lemma sym_char_not_space c : is_sym_char c = true -> is_space c = false.
Proof. intros H. char_class. Qed.

Lemma digit_not_minus c : is_digit c = true -> char_eqb c "-" = false.
Proof. intros H. char_class. Qed.

Lemma digit_no_punctuation c : is_digit c = true -> punctuation_of c = None.
Proof.
  intros H. unfold punctuation_of.
  assert (char_eqb c "*" = false) as -> by char_class.
  assert (char_eqb c "/" = false) as -> by char_class.
  assert (char_eqb c "(" = false) as -> by char_class.
  assert (char_eqb c ")" = false) as -> by char_class.
  assert (char_eqb c "+" = false) as -> by char_class.
  assert (char_eqb c "-" = false) as -> by char_class.
  reflexivity.
Qed.

(** A separator is no character of a token. *)
Lemma follows_stops_digit rest : follows rest = true -> stops is_digit rest = true.
Proof. destruct rest as [|c r]; [reflexivity|]. simpl. intros H.
       apply negb_true_iff. char_class. Qed.

Lemma follows_stops_sym rest :
  follows rest = true -> stops is_sym_char rest = true.
Proof. destruct rest as [|c r]; [reflexivity|]. simpl. intros H.
       apply negb_true_iff. char_class. Qed.

Lemma follows_no_mod rest : follows rest = true -> match_mod rest = (None, rest).
Proof.
  destruct rest as [|c r]; [reflexivity|]. simpl. intros H.
  assert (char_eqb c "h" = false) as -> by char_class.
  assert (char_eqb c "l" = false) as -> by char_class.
  reflexivity.
Qed.

Lemma follows_no_fraction rest :
  follows rest = true -> match_fraction rest = (EmptyString, rest).
Proof.
  destruct rest as [|c r]; [reflexivity|]. simpl. intros H.
  assert (char_eqb c "." = false) as -> by char_class.
  reflexivity.
Qed.

Lemma follows_not_d c rest :
  follows (String c rest) = true -> char_eqb c "d" = false.
Proof. simpl. intros H. char_class. Qed.

Lemma span_extend p s a b rest :
  span p s = (a, b) -> stops p rest = true ->
  span p (s +:+ rest) = (a, b +:+ rest).
Proof.
  revert a b. induction s as [|c s IH]; intros a b H Hr; simpl in *.
  - injection H as <- <-. destruct rest as [|c r]; [reflexivity|].
    simpl in *. apply negb_true_iff in Hr. rewrite Hr. reflexivity.
  - destruct (p c).
    + destruct (span p s) as [a' b']. injection H as <- <-.
      rewrite (IH a' b' eq_refl Hr). reflexivity.
    + injection H as <- <-. reflexivity.
Qed.

Lemma span_all p a rest :
  string_forall p a = true -> stops p rest = true ->
  span p (a +:+ rest) = (a, rest).
Proof.
  intros Ha Hr. induction a as [|c a IH]; simpl in *.
  - destruct rest as [|c r]; [reflexivity|].
    simpl in *. apply negb_true_iff in Hr. rewrite Hr. reflexivity.
  - apply andb_true_iff in Ha as [Hc Ha]. rewrite Hc, (IH Ha). reflexivity.
Qed.

Lemma skip_space_length s : (String.length (skip_space s) <= String.length s)%nat.
Proof.
  induction s as [|c s IH]; simpl; [lia|]. destruct (is_space c); simpl; lia.
Qed.

Lemma match_sign_spec s sign r :
  match_sign s = (sign, r) ->
  s = sign +:+ r /\ (sign = EmptyString \/ sign = "-").
Proof.
  destruct s as [|c s]; simpl; [intros [= <- <-]; auto|].
  destruct (char_eqb c "-") eqn:E; intros [= <- <-]; auto.
  apply char_eqb_eq in E as ->. auto.
Qed.

Lemma match_fraction_spec s f r : match_fraction s = (f, r) -> s = f +:+ r.
Proof.
  destruct s as [|c s]; simpl; [intros [= <- <-]; auto|].
  destruct (char_eqb c ".") eqn:E; [|intros [= <- <-]; reflexivity].
  apply char_eqb_eq in E as ->.
  destruct (span is_digit s) as [fp r'] eqn:Es.
  apply span_spec in Es as (-> & _ & _).
  destruct (is_empty fp) eqn:Ef; intros [= <- <-]; [reflexivity|].
  simpl. reflexivity.
Qed.

(** What a match of the alternative lit consists of. *)
Lemma match_lit_spec s t r :
  match_lit s = Some (t, r) -> s = t +:+ r /\ is_empty t = false.
Proof.
  unfold match_lit.
  destruct (match_sign s) as [sign r0] eqn:Es.
  apply match_sign_spec in Es as (-> & Hsign).
  destruct (span is_digit r0) as [ip r1] eqn:Ei.
  apply span_spec in Ei as (-> & _ & _).
  destruct (is_empty ip) eqn:Ee; [discriminate|].
  destruct (match_fraction r1) as [f r2] eqn:Ef.
  apply match_fraction_spec in Ef as ->.
  intros [= <- <-]. split.
  - rewrite !str_app_assoc. reflexivity.
  - destruct Hsign as [-> | ->]; [|reflexivity].
    exact (is_empty_app ip f Ee).
Qed.

End Strings.

Section Lexer.
Context {NUM : Number} {TXT : NumberText NUM}.

Lemma match_sym_spec s x r :
  match_sym s = Some (x, r) -> s = x +:+ r /\ sym_name x = true.
Proof.
  destruct s as [|c s]; simpl; [discriminate|].
  destruct (is_sym_start c) eqn:Ec; [|discriminate].
  destruct (span is_sym_char s) as [body rest] eqn:Es.
  apply span_spec in Es as (-> & Hb & _).
  intros [= <- <-]. simpl. rewrite Ec, Hb. auto.
Qed.

Lemma match_op_spec s p r :
  match_op s = Some (p, r) -> exists c, s = String c r /\ punctuation_of c = Some p.
Proof.
  destruct s as [|c s]; simpl; [discriminate|].
  destruct (punctuation_of c) eqn:Ep; [|discriminate].
  intros [= <- <-]. eauto.
Qed.

(** Every match of the token pattern consumes a character. *)
Lemma exec_length s t r :
  exec s = Some (t, r) -> (String.length r < String.length s)%nat.
Proof.
  unfold exec. pose proof (skip_space_length s) as Hs.
  destruct (match_sym (skip_space s)) as [[name rest]|] eqn:E1.
  { intros [= <- <-]. apply match_sym_spec in E1 as (E & Hn).
    rewrite E, str_length_app in Hs. destruct name; [discriminate|].
    simpl in Hs. lia. }
  destruct (match_dice (skip_space s)) as [[[[ds1 ds2] m] rest]|] eqn:E2.
  { intros [= <- <-]. apply match_dice_spec in E2 as (E & _ & _).
    rewrite E, !str_length_app in Hs. simpl in Hs. lia. }
  destruct (match_lit (skip_space s)) as [[text rest]|] eqn:E3.
  { intros [= <- <-]. apply match_lit_spec in E3 as (E & Ht).
    rewrite E, str_length_app in Hs. destruct text; [discriminate|].
    simpl in Hs. lia. }
  destruct (match_op (skip_space s)) as [[p rest]|] eqn:E4; [|discriminate].
  intros [= <- <-]. apply match_op_spec in E4 as (c & E & _).
  rewrite E in Hs. simpl in Hs. lia.
Qed.

(** The fuel of [tokenize] is enough: any fuel above the length of the
    text gives the same lexemes. *)
Lemma tokenize_from_fuel whole s fuel fuel' :
  (String.length s <= fuel)%nat -> (String.length s <= fuel')%nat ->
  tokenize_from whole fuel s = tokenize_from whole fuel' s.
Proof.
  revert s fuel'. induction fuel as [|fuel IH]; intros s fuel' H1 H2.
  - destruct s; [|simpl in H1; lia]. destruct fuel'; reflexivity.
  - destruct fuel' as [|fuel'].
    + destruct s; [reflexivity | simpl in H2; lia].
    + simpl. destruct (is_empty s); [reflexivity|].
      destruct (exec s) as [[t rest]|] eqn:E; [|reflexivity].
      apply exec_length in E. f_equal. apply IH; lia.
Qed.

Lemma lexes_tokenize whole s l fuel :
  lexes whole s l -> (String.length s <= fuel)%nat ->
  tokenize_from whole fuel s = l.
Proof.
  intros H. revert fuel.
  induction H as [|s Hs He|s t rest l Hs He _ IH]; intros fuel Hf.
  - destruct fuel; reflexivity.
  - destruct fuel as [|fuel]; [destruct s; [discriminate | simpl in Hf; lia]|].
    simpl. rewrite Hs, He. reflexivity.
  - destruct fuel as [|fuel]; [destruct s; [discriminate | simpl in Hf; lia]|].
    simpl. rewrite Hs, He. f_equal. apply IH.
    apply exec_length in He. lia.
Qed.


(** *** Lexing the printed leaves *)

Lemma exec_space (s : string) : exec (String " " s) = exec s.
Proof. reflexivity. Qed.

Lemma exec_lparen (s : string) : exec (String "(" s) = Some (TPunct LParen, s).
Proof. reflexivity. Qed.

Lemma exec_rparen (s : string) : exec (String ")" s) = Some (TPunct RParen, s).
Proof. reflexivity. Qed.

Lemma exec_operator op (s : string) :
  exec (op_string op +:+ String " " s) = Some (TPunct (POp op), String " " s).
Proof. destruct op; reflexivity. Qed.

Lemma exec_sym x rest :
  sym_name x = true -> follows rest = true ->
  exec (x +:+ rest) = Some (TExpr (Reference x), rest).
Proof.
  destruct x as [|c body]; [discriminate|]. simpl.
  intros [Hc Hb]%andb_true_iff Hr.
  unfold exec. rewrite str_app_cons. cbn [skip_space].
  rewrite (sym_start_not_space c Hc). cbn [match_sym]. rewrite Hc.
  rewrite (span_all _ _ _ Hb (follows_stops_sym _ Hr)). reflexivity.
Qed.

Lemma is_digits_cons ds :
  is_digits ds = true ->
  exists c ds', ds = String c ds' /\ is_digit c = true
               /\ string_forall is_digit ds = true.
Proof.
  unfold is_digits. destruct ds as [|c ds']; [discriminate|]. simpl.
  intros [Hc Hd]%andb_true_iff. exists c, ds'. rewrite Hc, Hd. auto.
Qed.

Lemma exec_dice ds1 ds2 dmod rest :
  is_digits ds1 = true -> is_digits ds2 = true -> follows rest = true ->
  exec (ds1 +:+ "d" +:+ ds2 +:+ mod_string dmod +:+ rest)
  = Some (TExpr (Roll (N_of_digits ds1) (N_of_digits ds2) dmod), rest).
Proof.
  intros H1 H2 Hr.
  destruct (is_digits_cons ds1 H1) as (c1 & ds1' & E1 & Hc1 & Hd1).
  destruct (is_digits_cons ds2 H2) as (c2 & ds2' & E2 & Hc2 & Hd2).
  assert (Hm : stops is_digit (mod_string dmod +:+ rest) = true
               /\ match_mod (mod_string dmod +:+ rest) = (dmod, rest)).
  { destruct dmod as [[|]|]; try (split; reflexivity).
    split; [apply follows_stops_digit | apply follows_no_mod]; exact Hr. }
  destruct Hm as [Hm1 Hm2].
  unfold exec.
  assert (Hs : skip_space (ds1 +:+ "d" +:+ ds2 +:+ mod_string dmod +:+ rest)
               = ds1 +:+ "d" +:+ ds2 +:+ mod_string dmod +:+ rest).
  { rewrite E1, str_app_cons. cbn [skip_space].
    rewrite (digit_not_space c1 Hc1). reflexivity. }
  rewrite Hs.
  assert (Hy : match_sym (ds1 +:+ "d" +:+ ds2 +:+ mod_string dmod +:+ rest) = None).
  { rewrite E1, str_app_cons. cbn [match_sym].
    rewrite (digit_not_sym_start c1 Hc1). reflexivity. }
  rewrite Hy. unfold match_dice.
  rewrite (span_all is_digit ds1 _ Hd1) by reflexivity.
  assert (is_empty ds1 = false) as -> by (rewrite E1; reflexivity).
  rewrite str_app_cons. assert (char_eqb "d" "d" = true) as -> by reflexivity.
  change (EmptyString +:+ ds2 +:+ mod_string dmod +:+ rest)
    with (ds2 +:+ mod_string dmod +:+ rest).
  rewrite (span_all is_digit ds2 _ Hd2 Hm1).
  assert (is_empty ds2 = false) as -> by (rewrite E2; reflexivity).
  rewrite Hm2. reflexivity.
Qed.

(** The shape of a text that the alternative lit matches entirely. *)
Lemma lit_text_shape t :
  lit_text t = true ->
  exists sign ip f,
    t = sign +:+ ip +:+ f
    /\ (sign = EmptyString \/ sign = "-")
    /\ is_digits ip = true
    /\ (f = EmptyString
        \/ exists fp, f = String "." fp /\ is_digits fp = true).
Proof.
  unfold lit_text, match_lit.
  destruct (match_sign t) as [sign r0] eqn:Es.
  apply match_sign_spec in Es as (-> & Hsign).
  destruct (span is_digit r0) as [ip r1] eqn:Ei.
  apply span_spec in Ei as (-> & Hip & _).
  destruct (is_empty ip) eqn:Ee; [discriminate|].
  destruct (match_fraction r1) as [f r2] eqn:Ef.
  intros ->%is_empty_true.
  pose proof (match_fraction_spec _ _ _ Ef) as E. rewrite str_app_nil_r in E.
  subst r1. exists sign, ip, f. repeat split; auto.
  - unfold is_digits. rewrite Ee, Hip. reflexivity.
  - destruct f as [|c s]; [auto|]. right. simpl in Ef.
    destruct (char_eqb c ".") eqn:Ec; [|discriminate].
    apply char_eqb_eq in Ec as ->.
    destruct (span is_digit s) as [fp r'] eqn:Esp.
    apply span_spec in Esp as (-> & Hfp & _).
    destruct (is_empty fp) eqn:Efp; [discriminate|].
    injection Ef as Ef1 Ef2. subst r'. rewrite str_app_nil_r.
    exists fp. split; [reflexivity|]. unfold is_digits.
    rewrite Efp, Hfp. reflexivity.
Qed.

Lemma exec_lit t rest :
  lit_text t = true -> follows rest = true ->
  exec (t +:+ rest) = Some (TExpr (Literal (of_literal t)), rest).
Proof.
  intros Ht Hr.
  destruct (lit_text_shape t Ht) as (sign & ip & f & -> & Hsign & Hip & Hf).
  destruct (is_digits_cons ip Hip) as (c & ip' & E & Hc & Hd).
  assert (Hfr : stops is_digit (f +:+ rest) = true
                /\ match_fraction (f +:+ rest) = (f, rest)
                /\ match (f +:+ rest) with
                   | String x _ => char_eqb x "d" = false
                   | EmptyString => True
                   end).
  { destruct Hf as [-> | (fp & -> & Hfp)].
    - split; [apply follows_stops_digit; exact Hr|].
      split; [apply follows_no_fraction; exact Hr|].
      destruct rest; [exact I | eapply follows_not_d; exact Hr].
    - split; [reflexivity|]. split; [|reflexivity].
      destruct (is_digits_cons fp Hfp) as (c' & fp' & E' & Hc' & Hd').
      rewrite str_app_cons. cbn [match_fraction].
      assert (char_eqb "." "." = true) as -> by reflexivity.
      rewrite (span_all is_digit fp rest Hd' (follows_stops_digit _ Hr)).
      rewrite E'. reflexivity. }
  destruct Hfr as (Hf1 & Hf2 & Hf3).
  rewrite !str_app_assoc. unfold exec.
  assert (Hs : skip_space (sign +:+ ip +:+ f +:+ rest)
               = sign +:+ ip +:+ f +:+ rest).
  { destruct Hsign as [-> | ->]; [|reflexivity].
    rewrite E. change (skip_space (String c (ip' +:+ f +:+ rest))
                       = String c (ip' +:+ f +:+ rest)).
    cbn [skip_space]. rewrite (digit_not_space c Hc). reflexivity. }
  rewrite Hs.
  assert (Hy : match_sym (sign +:+ ip +:+ f +:+ rest) = None).
  { destruct Hsign as [-> | ->]; [|reflexivity].
    rewrite E. change (match_sym (String c (ip' +:+ f +:+ rest)) = None).
    cbn [match_sym]. rewrite (digit_not_sym_start c Hc). reflexivity. }
  rewrite Hy.
  assert (Hdice : match_dice (sign +:+ ip +:+ f +:+ rest) = None).
  { destruct Hsign as [-> | ->]; [|reflexivity].
    change (match_dice (ip +:+ f +:+ rest) = None). unfold match_dice.
    rewrite (span_all is_digit ip _ Hd Hf1).
    destruct (is_empty ip); [reflexivity|].
    destruct (f +:+ rest); [reflexivity|]. rewrite Hf3. reflexivity. }
  rewrite Hdice. unfold match_lit.
  assert (Hsg : match_sign (sign +:+ ip +:+ f +:+ rest)
                = (sign, ip +:+ f +:+ rest)).
  { destruct Hsign as [-> | ->]; [|reflexivity].
    rewrite E. change (match_sign (String c (ip' +:+ f +:+ rest))
                       = (EmptyString, String c (ip' +:+ f +:+ rest))).
    cbn [match_sign]. rewrite (digit_not_minus c Hc). reflexivity. }
  rewrite Hsg, (span_all is_digit ip _ Hd Hf1).
  assert (is_empty ip = false) as -> by (rewrite E; reflexivity).
  rewrite Hf2. reflexivity.
Qed.

End Lexer.

(** ** Printing and reading back *)

Section RoundTrip.
Context {NUM : Number} {TXT : NumberText NUM}.
Implicit Types (e l r : Expression NUM).

(** The parenthesization rule of the printer. *)
Lemma toString_Operation op l r :
  toString (Operation op l r)
  = wrap (left_needs_parens op l) (toString l)
      +:+ " " +:+ op_string op +:+ " "
      +:+ wrap (right_needs_parens op r) (toString r).
Proof.
  cbn [toString]. unfold paren, wrap, left_needs_parens, right_needs_parens.
  destruct l as [| | |lop ll lr], r as [| | |rop rl rr];
    try destruct (precedence lop <? precedence op)%nat;
    try destruct (precedence rop <=? precedence op)%nat;
    rewrite ?str_app_assoc; reflexivity.
Qed.

Lemma tokens_of_Operation op l r :
  tokens_of (Operation op l r)
  = (if left_needs_parens op l then paren_tokens (tokens_of l) else tokens_of l)
      ++ [TPunct (POp op)]
      ++ (if right_needs_parens op r then paren_tokens (tokens_of r)
          else tokens_of r).
Proof.
  cbn [tokens_of]. unfold left_needs_parens, right_needs_parens.
  destruct l, r; reflexivity.
Qed.

Lemma left_needs_parens_reread op l :
  left_needs_parens op (reread l) = left_needs_parens op l.
Proof. destruct l; reflexivity. Qed.

Lemma right_needs_parens_reread op r :
  right_needs_parens op (reread r) = right_needs_parens op r.
Proof. destruct r; reflexivity. Qed.

(** Reading back does not change the printed text when the leaves print
    the same after being read back. *)
Lemma toString_reread e : reprints e -> toString (reread e) = toString e.
Proof.
  induction e as [v | x | d s m | op l IHl r IHr]; intros Hp.
  - exact Hp.
  - reflexivity.
  - destruct Hp as [Hd Hs]. cbn [reread toString].
    unfold stable_count in Hd, Hs. rewrite Hd, Hs. reflexivity.
  - destruct Hp as [Hl Hr]. cbn [reread].
    rewrite !toString_Operation, left_needs_parens_reread,
      right_needs_parens_reread, (IHl Hl), (IHr Hr). reflexivity.
Qed.

Lemma lit_text_nonempty t : lit_text t = true -> is_empty t = false.
Proof. destruct t; [discriminate | reflexivity]. Qed.

Lemma toString_nonempty e : printable e -> is_empty (toString e) = false.
Proof.
  destruct e as [v | x | d s m | op l r]; intros Hp.
  - apply lit_text_nonempty. exact Hp.
  - destruct x; [discriminate | reflexivity].
  - destruct Hp as [Hd _]. cbn [toString].
    apply is_empty_app. destruct (to_string (n_of_N d)); [discriminate | reflexivity].
  - rewrite toString_Operation.
    destruct (wrap (left_needs_parens op l) (toString l)); reflexivity.
Qed.

(** A leading space does not change the lexemes of a text. *)
Lemma lexes_space whole s (lx : list (Lexeme NUM)) :
  is_empty s = false -> lexes whole s lx -> lexes whole (String " " s) lx.
Proof.
  intros Hs H. destruct H as [|s Hs' He|s t rest lx Hs' He Hl].
  - discriminate.
  - apply lexes_error; [reflexivity | rewrite exec_space; exact He].
  - eapply lexes_token; [reflexivity | rewrite exec_space; exact He | exact Hl].
Qed.

(** The lexemes of a printed expression are its tokens. *)
Lemma lexes_toString whole e :
  printable e ->
  forall rest (lx : list (Lexeme NUM)),
    follows rest = true -> lexes whole rest lx ->
    lexes whole (toString e +:+ rest)
      (map LTok (tokens_of (reread e)) ++ lx).
Proof.
  induction e as [v | x | d s m | op l IHl r IHr]; intros Hp rest lx Hr Hlx.
  - cbn [toString reread tokens_of map app].
    eapply lexes_token; [|apply exec_lit; assumption | exact Hlx].
    apply is_empty_app, lit_text_nonempty, Hp.
  - cbn [toString reread tokens_of map app].
    eapply lexes_token; [|apply exec_sym; assumption | exact Hlx].
    apply is_empty_app. destruct x; [discriminate | reflexivity].
  - destruct Hp as [Hd Hs]. cbn [toString reread tokens_of map app].
    rewrite !str_app_assoc.
    eapply lexes_token; [|apply exec_dice; assumption | exact Hlx].
    apply is_empty_app.
    destruct (to_string (n_of_N d)); [discriminate | reflexivity].
  - destruct Hp as [Hl Hrr].
    assert (Hwrap : forall e' b rest' (lx' : list (Lexeme NUM)),
               printable e' ->
               (forall rest (lx : list (Lexeme NUM)),
                   follows rest = true -> lexes whole rest lx ->
                   lexes whole (toString e' +:+ rest)
                     (map LTok (tokens_of (reread e')) ++ lx)) ->
               follows rest' = true -> lexes whole rest' lx' ->
               lexes whole (wrap b (toString e') +:+ rest')
                 (map LTok (if b then paren_tokens (tokens_of (reread e'))
                            else tokens_of (reread e')) ++ lx')).
    { intros e' [|] rest' lx' Hp' IH Hr' Hlx'; [|apply IH; assumption].
      unfold wrap, paren_tokens. rewrite !str_app_assoc, !map_app, <- !app_assoc.
      eapply lexes_token; [reflexivity | apply exec_lparen |].
      apply IH; [reflexivity|].
      eapply lexes_token; [reflexivity | apply exec_rparen | exact Hlx']. }
    cbn [reread].
    rewrite toString_Operation, tokens_of_Operation, left_needs_parens_reread,
      right_needs_parens_reread.
    rewrite !str_app_assoc, !map_app, <- !app_assoc.
    apply Hwrap; [exact Hl | exact (IHl Hl) | reflexivity |].
    apply lexes_space; [destruct op; reflexivity|].
    eapply lexes_token; [destruct op; reflexivity | apply exec_operator |].
    apply lexes_space.
    { apply is_empty_app. destruct (right_needs_parens op r); [reflexivity|].
      apply toString_nonempty. exact Hrr. }
    apply Hwrap; [exact Hrr | exact (IHr Hrr) | exact Hr | exact Hlx].
Qed.

End RoundTrip.

Section Derivation.
Context {NUM : Number}.
Implicit Types (e l r : Expression NUM).

Lemma derives_as_term lvl ts e :
  derives lvl ts e -> lvl <> Expr -> derives Term ts e.
Proof.
  intros H Hl. destruct lvl; [contradiction | exact H |].
  apply derives_factor. exact H.
Qed.

Lemma derives_as_expr lvl ts e : derives lvl ts e -> derives Expr ts e.
Proof.
  intros H. destruct lvl; [exact H | apply derives_term; exact H |].
  apply derives_term, derives_factor. exact H.
Qed.

Lemma derives_parens lvl ts e :
  derives lvl ts e -> derives Factor (paren_tokens ts) e.
Proof. intros H. apply derives_paren, (derives_as_expr lvl). exact H. Qed.

(** The printed tokens of an expression derive it. *)
Lemma tokens_of_derive e : derives (level_of e) (tokens_of e) e.
Proof.
  induction e as [v | x | d s m | op l IHl r IHr];
    try (apply derives_leaf; reflexivity).
  rewrite tokens_of_Operation.
  assert (Hleft :
           derives (if (precedence op =? 0)%nat then Expr else Term)
             (if left_needs_parens op l then paren_tokens (tokens_of l)
              else tokens_of l) l).
  { destruct op; cbn [precedence Nat.eqb];
      try (destruct l as [| | |[] ? ?]; cbn [left_needs_parens precedence Nat.ltb Nat.leb];
           solve [ apply (derives_as_expr _ _ _ IHl) ]);
      destruct l as [| | |[] ? ?]; cbn [left_needs_parens precedence Nat.ltb Nat.leb];
      solve [ apply (derives_as_term _ _ _ IHl); discriminate
            | apply derives_factor, (derives_parens _ _ _ IHl) ]. }
  assert (Hright :
           derives (if (precedence op =? 0)%nat then Term else Factor)
             (if right_needs_parens op r then paren_tokens (tokens_of r)
              else tokens_of r) r).
  { destruct op; cbn [precedence Nat.eqb];
      destruct r as [| | |[] ? ?]; cbn [right_needs_parens precedence Nat.ltb Nat.leb];
      solve [ exact IHr
            | apply (derives_as_term _ _ _ IHr); discriminate
            | apply (derives_parens _ _ _ IHr)
            | apply derives_factor, (derives_parens _ _ _ IHr) ]. }
  destruct op; cbn [precedence Nat.eqb level_of] in *.
  - apply derives_expr_op; [exact Hleft | left; reflexivity | exact Hright].
  - apply derives_expr_op; [exact Hleft | right; reflexivity | exact Hright].
  - apply derives_term_op; [exact Hleft | left; reflexivity | exact Hright].
  - apply derives_term_op; [exact Hleft | right; reflexivity | exact Hright].
Qed.

End Derivation.

Section Trim.

Lemma skip_space_solid s : starts_solid s = true -> skip_space s = s.
Proof.
  destruct s as [|c s]; [discriminate|]. unfold starts_solid, not_space.
  intros H%negb_true_iff. cbn [skip_space]. rewrite H. reflexivity.
Qed.

Lemma starts_solid_app a b : starts_solid a = true -> starts_solid (a +:+ b) = true.
Proof. destruct a; [discriminate | intros H; exact H]. Qed.

Lemma trim_end_app a b :
  is_empty b = false -> trim_end b = b -> trim_end (a +:+ b) = a +:+ b.
Proof.
  intros Hb Ht. induction a as [|c a IH]; [exact Ht|].
  rewrite str_app_cons. cbn [trim_end]. rewrite IH.
  assert (is_empty (a +:+ b) = false) as ->
    by (destruct a; [exact Hb | reflexivity]).
  rewrite andb_false_r. reflexivity.
Qed.

Lemma trim_end_solid s :
  string_forall not_space s = true -> trim_end s = s.
Proof.
  induction s as [|c s IH]; [reflexivity|]. cbn [string_forall trim_end].
  intros [Hc Hs]%andb_true_iff. rewrite (IH Hs).
  unfold not_space in Hc. apply negb_true_iff in Hc. rewrite Hc. reflexivity.
Qed.

Lemma solid_tight s :
  string_forall not_space s = true -> is_empty s = false -> tight s.
Proof.
  intros Hs He. repeat split; [|apply trim_end_solid; exact Hs | exact He].
  destruct s; [discriminate|]. cbn in Hs.
  apply andb_true_iff in Hs as [Hc _]. exact Hc.
Qed.

Lemma tight_app a m b : tight a -> tight b -> tight (a +:+ m +:+ b).
Proof.
  intros (Ha1 & _ & Ha3) (_ & Hb2 & Hb3). repeat split.
  - apply starts_solid_app. exact Ha1.
  - rewrite <- !str_app_assoc. apply trim_end_app; assumption.
  - apply is_empty_app. exact Ha3.
Qed.

Lemma tight_wrap b s : tight s -> tight (wrap b s).
Proof.
  intros Hs. destruct b; [|exact Hs]. unfold wrap. repeat split.
  change ("(" +:+ s +:+ ")") with (String "(" (s +:+ ")")).
  rewrite <- (str_app_cons "(" s ")").
  apply trim_end_app; reflexivity.
Qed.

Lemma string_forall_impl (p q : ascii -> bool) s :
  (forall c, p c = true -> q c = true) ->
  string_forall p s = true -> string_forall q s = true.
Proof.
  intros Hpq. induction s as [|c s IH]; [reflexivity|]. cbn [string_forall].
  intros [Hc Hs]%andb_true_iff. rewrite (Hpq c Hc), (IH Hs). reflexivity.
Qed.

Lemma string_forall_app p a b :
  string_forall p (a +:+ b) = string_forall p a && string_forall p b.
Proof.
  induction a as [|c a IH]; [reflexivity|].
  rewrite str_app_cons. cbn [string_forall]. rewrite IH, andb_assoc.
  reflexivity.
Qed.

Lemma digits_solid ds : is_digits ds = true -> string_forall not_space ds = true.
Proof.
  unfold is_digits. intros [_ H]%andb_true_iff.
  apply (string_forall_impl is_digit); [|exact H].
  intros c Hc. unfold not_space. rewrite (digit_not_space c Hc). reflexivity.
Qed.

Lemma sym_solid x : sym_name x = true -> string_forall not_space x = true.
Proof.
  destruct x as [|c body]; [discriminate|]. cbn [sym_name string_forall].
  intros [Hc Hb]%andb_true_iff. unfold not_space at 1.
  rewrite (sym_start_not_space c Hc). cbn [negb andb].
  apply (string_forall_impl is_sym_char); [|exact Hb].
  intros c' Hc'. unfold not_space. rewrite (sym_char_not_space c' Hc').
  reflexivity.
Qed.

Lemma lit_solid t : lit_text t = true -> string_forall not_space t = true.
Proof.
  intros Ht.
  destruct (lit_text_shape t Ht) as (sign & ip & f & -> & Hsign & Hip & Hf).
  rewrite !string_forall_app, (digits_solid ip Hip).
  destruct Hsign as [-> | ->];
    destruct Hf as [-> | (fp & -> & Hfp)]; try reflexivity;
    cbn [string_forall]; rewrite (digits_solid fp Hfp); reflexivity.
Qed.

End Trim.

Section Canonical.
Context {NUM : Number} {TXT : NumberText NUM}.

Lemma toString_tight (e : Expression NUM) : printable e -> tight (toString e).
Proof.
  induction e as [v | x | d s m | op l IHl r IHr]; intros Hp.
  - apply solid_tight; [apply lit_solid | apply lit_text_nonempty]; exact Hp.
  - apply solid_tight; [apply sym_solid; exact Hp|].
    destruct x; [discriminate | reflexivity].
  - destruct Hp as [Hd Hs]. cbn [toString]. apply solid_tight.
    + rewrite !string_forall_app, (digits_solid _ Hd), (digits_solid _ Hs).
      destruct m as [[|]|]; reflexivity.
    + apply is_empty_app.
      destruct (to_string (n_of_N d)); [discriminate | reflexivity].
  - destruct Hp as [Hl Hr]. rewrite toString_Operation.
    rewrite <- (str_app_assoc " "), <- (str_app_assoc (" " +:+ op_string op)).
    apply tight_app; apply tight_wrap; auto.
Qed.

(** A printable expression parses back from its text. *)
Lemma parse_toString (e : Expression NUM) :
  printable e -> parse (toString e) = Ok (reread e).
Proof.
  intros Hp. destruct (toString_tight e Hp) as (Hs & Ht & _).
  apply (parse_derives _ (tokens_of (reread e))).
  - unfold trim. rewrite (skip_space_solid _ Hs), Ht. unfold tokenize.
    apply lexes_tokenize; [|lia].
    pose proof (lexes_toString (toString e) e Hp EmptyString [] eq_refl
                  (lexes_end _)) as H.
    rewrite str_app_nil_r, app_nil_r in H. exact H.
  - apply (derives_as_expr (level_of (reread e))), tokens_of_derive.
Qed.

End Canonical.

(** X22: round trip of printable expressions, the part of C4 that holds.
    An expression whose Literals print in plain decimal notation, whose
    References are symbols of the lexer and whose dice parameters print as
    digit strings parses back from its text: to the expression with the
    same operators and the same grouping whose leaves are read back from
    their printed texts.  If moreover each Literal and each dice parameter
    prints the same text after being read back from its printed text, the
    parsed expression prints the text it was parsed from.  The printer puts
    parentheses around a left child exactly when it is an Operation of
    strictly lower precedence than the operator, and around a right child
    exactly when it is an Operation of lower or equal precedence. *)
Theorem canonical_roundtrip {NUM : Number} {TXT : NumberText NUM}
    (e : Expression NUM) :
  printable e ->
  parse (toString e) = Ok (reread e)
  /\ (reprints e -> toString (reread e) = toString e)
  /\ (forall op l r,
        toString (Operation op l r)
        = wrap (left_needs_parens op l) (toString l)
            +:+ " " +:+ op_string op +:+ " "
            +:+ wrap (right_needs_parens op r) (toString r)).
Proof.
  intros Hp. split; [apply parse_toString; exact Hp|].
  split; [apply toString_reread|].
  intros op l r. apply toString_Operation.
Qed.

Lemma sample_expression_printable :
  @printable float64 float64_text sample_expression.
Proof. repeat split; reflexivity. Qed.

Lemma sample_expression_reprints :
  @reprints float64 float64_text sample_expression.
Proof. repeat split; reflexivity. Qed.

Lemma canonical_roundtrip_witness :
  @toString float64 float64_text sample_expression = "1 * k + (j - 4.5) / 2"
  /\ @parse float64 float64_text (@toString float64 float64_text sample_expression)
     = Ok (@reread float64 float64_text sample_expression)
  /\ @toString float64 float64_text
       (@reread float64 float64_text sample_expression)
     = @toString float64 float64_text sample_expression.
Proof.
  split; [reflexivity|]. split.
  - exact (proj1 (@canonical_roundtrip float64 float64_text sample_expression
                    sample_expression_printable)).
  - exact (proj1 (proj2 (@canonical_roundtrip float64 float64_text
                           sample_expression sample_expression_printable))
             sample_expression_reprints).
Defined.

(** C4 (fails on the code): a printed text that does not parse.  The
    literal 1000000000000000000000 parses to a Literal whose toString is
    "1e+21", the exponent notation of Number.prototype.toString, which the
    lexer splits into the Literal 1 and the Reference e: parse throws the
    SyntaxError for an unexpected token. *)
Theorem exponent_literal_not_reparsed :
  @parse float64 float64_text "1000000000000000000000"
    = Ok (Literal (Num64 "1000000000000000000000"))
  /\ @toString float64 float64_text (Literal (Num64 "1000000000000000000000"))
     = "1e+21"
  /\ @parse float64 float64_text "1e+21"
     = Err (UnexpectedToken (TExpr (Reference "e")) (Literal (Num64 "1"))).
Proof. repeat split; reflexivity. Qed.

(** ** Simplification in exact arithmetic *)

Section ExactArithmetic.
Import Exact.













Lemma Fin_inj a b : Fin a = Fin b -> a = b.
Proof. congruence. Qed.




End ExactArithmetic.

Section SafeSimplify.
Import Exact.
Variable rnd : nat -> @num xnum.
Variable C : Ctx xnum.




End SafeSimplify.





(** ** The fuel of the parser is enough *)

Section EnoughFuel.
Context {NUM : Number}.
Implicit Types (toks rest : list (Lexeme NUM)).

Lemma op_loop_fuel bound op1 op2 (np : Parser NUM) :
  progresses bound np ->
  forall fuel lhs toks,
    (length toks <= fuel)%nat -> (length toks <= bound)%nat ->
    op_loop fuel op1 op2 np lhs toks <> Err OutOfFuel
    /\ forall e rest,
        op_loop fuel op1 op2 np lhs toks = Ok (e, rest) ->
        (length rest <= length toks)%nat.
Proof.
  intros Hnp. induction fuel as [|fuel IH]; intros lhs toks Hf Hb.
  - destruct toks; [|simpl in Hf; lia]. simpl. split; [discriminate|].
    intros e rest [= <- <-]. simpl. lia.
  - destruct toks as [|[[leaf|[op| |]]|text] toks]; simpl;
      try (split; [discriminate | intros e rest [= <- <-]; simpl; lia]);
      try (split; discriminate).
    case_decide; [|split; [discriminate | intros e rest [= <- <-]; simpl; lia]].
    simpl in Hf, Hb. destruct (Hnp toks) as [Hn1 Hn2]; [lia|].
    destruct (np toks) as [[rhs toks']|err] eqn:E.
    + specialize (Hn2 rhs toks' eq_refl).
      destruct (IH (Operation op lhs rhs) toks') as [H1 H2]; [lia | lia |].
      split; [exact H1|]. intros e rest Hr. specialize (H2 e rest Hr). lia.
    + split; [congruence | discriminate].
Qed.

Lemma opParser_fuel bound fuel op1 op2 (np : Parser NUM) :
  progresses bound np -> (bound <= fuel)%nat ->
  progresses bound (opParser fuel op1 op2 np).
Proof.
  intros Hnp Hbf toks Hb. unfold opParser.
  destruct (Hnp toks Hb) as [Hn1 Hn2].
  destruct (np toks) as [[lhs toks']|err] eqn:E.
  - specialize (Hn2 lhs toks' eq_refl).
    destruct (op_loop_fuel bound op1 op2 np Hnp fuel lhs toks') as [H1 H2];
      [lia | lia |].
    split; [exact H1|]. intros e rest Hr. specialize (H2 e rest Hr). lia.
  - split; [congruence | discriminate].
Qed.

Lemma parseFactor_fuel fuel : progresses fuel (parseFactor (NUM := NUM) fuel).
Proof.
  induction fuel as [|fuel IH]; intros toks Hb.
  - destruct toks; [|simpl in Hb; lia]. simpl. split; discriminate.
  - destruct toks as [|[[leaf|[op| |]]|text] toks]; cbn [parseFactor next];
      try (split; discriminate);
      try (split; [discriminate | intros e rest [= <- <-]; simpl; lia]).
    simpl in Hb.
    pose proof (opParser_fuel fuel fuel Add Sub _
                  (opParser_fuel fuel fuel Mul Div _ IH (Nat.le_refl _))
                  (Nat.le_refl _)) as Hin.
    destruct (Hin toks) as [H1 H2]; [lia|].
    destruct (opParser fuel Add Sub (opParser fuel Mul Div (parseFactor fuel)) toks)
      as [[e' rest']|err] eqn:E.
    + specialize (H2 e' rest' eq_refl).
      destruct rest' as [|[[leaf|[op| |]]|text] rest'']; cbn [next];
        try (split; discriminate).
      split; [discriminate|]. intros e rest [= <- <-]. simpl in *. lia.
    + split; [congruence | discriminate].
Qed.

Lemma parseExpr_fuel fuel : progresses fuel (parseExpr (NUM := NUM) fuel).
Proof.
  unfold parseExpr, parseTerm.
  apply opParser_fuel; [|lia]. apply opParser_fuel; [|lia].
  apply parseFactor_fuel.
Qed.

Context {TXT : NumberText NUM}.

(** [parse] never runs out of fuel. *)
Lemma parse_fuel input : parse input <> Err OutOfFuel.
Proof.
  unfold parse.
  destruct (parseExpr_fuel (length (tokenize (trim input)))
              (tokenize (trim input)) (Nat.le_refl _)) as [H1 _].
  destruct (parseExpr _ _) as [[e rest]|err]; [|congruence].
  destruct rest as [|[t|text] rest]; discriminate.
Qed.

End EnoughFuel.


(** ** Names and normal forms of simplification *)

Section Names.
Context {NUM : Number}.
Implicit Types (e l r : Expression NUM) (C : Ctx NUM).

Ltac children l r C :=
  let l' := fresh "l'" in
  let r' := fresh "r'" in
  let sl := fresh "sl" in
  let sr := fresh "sr" in
  let El := fresh "El" in
  let Er := fresh "Er" in
  destruct (simplify_id l C) as [l' sl] eqn:El;
  destruct (simplify_id r C) as [r' sr] eqn:Er;
  destruct l' as [? | ? | ? ? ? | ? ? [? | ? | ? ? ? | ? ? ?]];
  destruct r' as [? | ? | ? ? ? | ? ? ?];
  try case_decide.

Lemma refs_of_mergeLeft farLeft lop lv op rv :
  refs_of (mergeLeft farLeft lop lv op rv) = refs_of farLeft.
Proof.
  unfold mergeLeft.
  repeat (case_decide || case_match); simplify_eq/=;
    rewrite ?app_nil_r; reflexivity.
Qed.

Lemma refs_of_simplify e C :
  refs_of (fst (simplify_id e C)) = List.filter (unbound C) (refs_of e).
Proof.
  induction e as [v | x | d s m | op l IHl r IHr]; simpl; try reflexivity.
  - unfold unbound. destruct (C !! x) eqn:E; simpl;
      try case_bool_decide; congruence.
  - pose proof (simplify_id_same l C) as Il.
    pose proof (simplify_id_same r C) as Ir.
    children l r C; simpl in *;
      rewrite ?refs_of_mergeLeft, List.filter_app, <- ?IHl, <- ?IHr;
      try (destruct sl, sr; simpl);
      try rewrite <- (Il eq_refl); try rewrite <- (Ir eq_refl);
      simpl; rewrite ?app_nil_r; reflexivity.
Qed.

Lemma filter_unbound_empty (xs : list string) :
  List.filter (unbound (∅ : Ctx NUM)) xs = xs.
Proof.
  induction xs as [|x xs IH]; cbn [List.filter]; [reflexivity|].
  assert (unbound (∅ : Ctx NUM) x = true) as ->
    by (apply bool_decide_eq_true_2; apply (lookup_empty (M := gmap string))).
  rewrite IH. reflexivity.
Qed.

(** The expressions that simplify returns as the receiver are those in
    normal form without a name of the context. *)
Lemma fixed_simplified e C :
  simplify_id e C = (e, true)
  <-> simplified e = true /\ Forall (fun x => C !! x = None) (refs_of e).
Proof.
  induction e as [v | x | d s m | op l IHl r IHr].
  - simpl. split; [intros _; split; [reflexivity | constructor] | reflexivity].
  - simpl. destruct (C !! x) eqn:E; split.
    + discriminate.
    + intros [_ Hx]. inversion Hx; congruence.
    + intros _. split; [reflexivity|]. repeat constructor. exact E.
    + reflexivity.
  - simpl. split; [intros _; split; [reflexivity | constructor] | reflexivity].
  - split.
    + intros Hs.
      assert (Hsnd : snd (simplify_id (Operation op l r) C) = true)
        by (rewrite Hs; reflexivity).
      apply simplify_id_same_inv in Hsnd as (Hl & Hr & Hf & Hm).
      apply IHl in Hl as [Sl Fl]. apply IHr in Hr as [Sr Fr].
      split.
      * cbn [simplified]. rewrite Sl, Sr, Hf, Hm. reflexivity.
      * cbn [refs_of]. apply Forall_app. split; assumption.
    + intros [Hs Hx]. cbn [simplified] in Hs. cbn [refs_of] in Hx.
      apply Forall_app in Hx as [Fl Fr].
      apply andb_true_iff in Hs as [Hs Hm].
      apply andb_true_iff in Hs as [Hs Hf].
      apply andb_true_iff in Hs as [Sl Sr].
      apply negb_true_iff in Hf, Hm.
      rewrite (simplify_id_keep op l r C l r true true); try assumption.
      * reflexivity.
      * apply IHl; split; assumption.
      * apply IHr; split; assumption.
Qed.

Lemma simplified_simplify e C : simplified (fst (simplify_id e C)) = true.
Proof.
  apply (proj1 (fixed_simplified (fst (simplify_id e C)) C)).
  apply simplify_id_fixed.
Qed.

(** X10: a closed expression simplifies to the Literal of its value.  When
    the expression has no Roll and every name it refers to has a value in
    the context, simplify with that context returns a Literal, and calc
    returns the number of that Literal, whatever the random source and the
    state.  This holds for every number model, binary64 included: folding
    applies the operations to the same operands in the same order as
    calc. *)
Theorem simplify_closed_is_calc e C :
  rolls_of e = [] ->
  Forall (fun x => is_Some (C !! x)) (refs_of e) ->
  exists v,
    simplify e (Some C) = Literal v
    /\ forall rnd st, calc rnd e C st = (v, st).
Proof.
  unfold simplify. change (default ∅ (Some C)) with C.
  induction e as [v | x | d s m | op l IHl r IHr]; simpl; intros Hr Hx.
  - exists v. split; reflexivity.
  - inversion Hx as [|? ? [v Hv] _]; subst. exists v. rewrite Hv.
    split; reflexivity.
  - discriminate.
  - apply app_eq_nil in Hr as [Rl Rr]. apply Forall_app in Hx as [Xl Xr].
    destruct (IHl Rl Xl) as (a & Sa & Ca). destruct (IHr Rr Xr) as (b & Sb & Cb).
    exists (doOp op a b).
    destruct (simplify_id l C) as [l' sl]. destruct (simplify_id r C) as [r' sr].
    simpl in Sa, Sb. subst l' r'. split; [reflexivity|].
    intros rnd st. rewrite Ca, Cb. reflexivity.
Qed.

End Names.

(** ** What an evaluation reads *)

Section Reads.
Context {NUM : Number}.
Implicit Types (e l r : Expression NUM) (C : Ctx NUM).

Lemma calc_cursor rnd e C st :
  fst (snd (calc rnd e C st)) = (fst st + draws_of (rolls_of e))%nat.
Proof. rewrite calc_state. reflexivity. Qed.

Lemma roll_loop_ext (rnd rnd' : nat -> num) sides k n n' :
  (forall i, (i < k)%nat -> rnd (n + i)%nat = rnd' (n' + i)%nat) ->
  roll_loop rnd sides k n = roll_loop rnd' sides k n'.
Proof.
  intros H. rewrite !roll_loop_spec. apply map_ext_in.
  intros i Hi. apply in_seq in Hi. unfold roll1. rewrite H by lia. reflexivity.
Qed.

(** The value depends on the source through the draws of the expression
    only, and not on the sink. *)
Lemma calc_window (rnd rnd' : nat -> num) e C st st' :
  same_draws rnd rnd' e (fst st) (fst st') ->
  fst (calc rnd e C st) = fst (calc rnd' e C st').
Proof.
  revert st st'.
  induction e as [v | x | d s m | op l IHl r IHr]; intros st st' H;
    try reflexivity.
  - simpl. f_equal. apply roll_loop_ext. intros i Hi. apply H.
    simpl. lia.
  - simpl.
    pose proof (IHl st st') as Hl.
    pose proof (calc_cursor rnd l C st) as Cl.
    pose proof (calc_cursor rnd' l C st') as Cl'.
    destruct (calc rnd l C st) as [a st1].
    destruct (calc rnd' l C st') as [a' st1'].
    pose proof (IHr st1 st1') as Hr.
    destruct (calc rnd r C st1) as [b st2].
    destruct (calc rnd' r C st1') as [b' st2'].
    simpl in *. unfold same_draws in *. simpl in H.
    rewrite draws_of_app in H.
    rewrite Hl, Hr; [reflexivity | |].
    + intros i Hi. rewrite Cl, Cl', <- !Nat.add_assoc. apply H. lia.
    + intros i Hi. apply H. lia.
Qed.

Lemma roll_entries_ext (rnd rnd' : nat -> num) n specs :
  (forall i, (i < draws_of specs)%nat -> rnd (n + i)%nat = rnd' (n + i)%nat) ->
  roll_entries rnd n specs = roll_entries rnd' n specs.
Proof.
  revert n. induction specs as [|[[dice sides] dmod] specs IH]; intros n H;
    [reflexivity|].
  cbn [roll_entries fst]. cbn [draws_of fold_right fst] in H.
  fold (draws_of specs) in H. f_equal.
  - unfold roll_entry.
    rewrite (roll_loop_ext rnd rnd' sides (N.to_nat dice) n n)
      by (intros i Hi; apply H; lia).
    reflexivity.
  - apply IH. intros i Hi. rewrite <- !Nat.add_assoc. apply H. lia.
Qed.

Lemma after_rolls_ext (rnd rnd' : nat -> num) e st :
  same_draws rnd rnd' e (fst st) (fst st) ->
  after_rolls rnd (rolls_of e) st = after_rolls rnd' (rolls_of e) st.
Proof.
  intros H. unfold after_rolls.
  rewrite (roll_entries_ext rnd rnd' (fst st) (rolls_of e) H). reflexivity.
Qed.

End Reads.

Lemma simplify_closed_is_calc_witness :
  exists v,
    simplify a_plus_b_times_2 (Some ab_context) = Literal v
    /\ forall rnd st, @calc float64 rnd a_plus_b_times_2 ab_context st = (v, st).
Proof.
  apply simplify_closed_is_calc; [reflexivity|].
  repeat constructor; eexists; reflexivity.
Defined.

(** X11: the names of the context are replaced, the others stay.  The
    names the simplified expression refers to are, in the same order, the
    names of the expression that have no value in the context; without a
    context every name stays. *)
Theorem simplify_substitutes_context {NUM : Number} (e : Expression NUM)
    (context : option (Ctx NUM)) :
  refs_of (simplify e context)
  = List.filter (unbound (default ∅ context)) (refs_of e)
  /\ refs_of (simplify e None) = refs_of e.
Proof.
  split; [apply refs_of_simplify|].
  unfold simplify. rewrite refs_of_simplify. apply filter_unbound_empty.
Qed.

(** X12: simplify returns a normal form, and returns the receiver exactly
    on normal forms.  In the result of simplify no Operation has two
    Literal operands and no Operation has a Literal on the right of an
    Operation of the same precedence with a Literal on its right; and
    simplify returns the receiver itself exactly when the expression is of
    that form and refers to no name of the context. *)
Theorem simplify_normal_form {NUM : Number} (e : Expression NUM)
    (context : option (Ctx NUM)) :
  simplified (simplify e context) = true
  /\ (forall C,
        simplify_id e C = (e, true)
        <-> simplified e = true
            /\ Forall (fun x => C !! x = None) (refs_of e)).
Proof.
  split; [apply simplified_simplify|]. intros C. apply fixed_simplified.
Qed.

(** X13: simplify never makes an expression larger: the simplified
    expression has at most as many nodes as the expression. *)
Theorem simplify_never_grows {NUM : Number} (e : Expression NUM)
    (context : option (Ctx NUM)) :
  (size (simplify e context) <= size e)%nat.
Proof. apply size_simplify. Qed.

(** X14: the roll sink does not change the result.  With or without the
    array argument, and whatever it holds, calc returns the same number and
    takes the same number of draws from the random source. *)
Theorem calc_sink_transparent {NUM : Number} (rnd : nat -> num)
    (e : Expression NUM) (C : Ctx NUM) (cursor : nat)
    (sink : list (RollResult NUM)) :
  fst (calc rnd e C (cursor, Some sink)) = fst (calc rnd e C (cursor, None))
  /\ fst (snd (calc rnd e C (cursor, Some sink)))
     = fst (snd (calc rnd e C (cursor, None))).
Proof.
  split.
  - apply calc_window. intros i _. reflexivity.
  - rewrite !calc_cursor. reflexivity.
Qed.


(** X16: calc reads as many values of the random source as the expression
    has dice, starting at the cursor.  Two sources that agree on these
    values give the same result: the same number, the same cursor and the
    same entries in the sink. *)
Theorem calc_random_window {NUM : Number} (rnd rnd' : nat -> num)
    (e : Expression NUM) (C : Ctx NUM) (st : State NUM) :
  same_draws rnd rnd' e (fst st) (fst st) ->
  calc rnd e C st = calc rnd' e C st.
Proof.
  intros H. apply injective_projections.
  - apply calc_window. exact H.
  - rewrite !calc_state. apply after_rolls_ext. exact H.
Qed.

Lemma calc_random_window_witness :
  @calc xnum half_source two_rolls ∅ (0%nat, Some [])
  = @calc xnum half_then_nan two_rolls ∅ (0%nat, Some []).
Proof.
  apply calc_random_window. intros i Hi. simpl in Hi.
  destruct i as [|[|[|i]]]; [reflexivity.. | lia].
Defined.


(** ** The parser accepts the grammar, and nothing else *)

Section Accepts.
Context {NUM : Number}.
Implicit Types (e : Expression NUM) (ts : list (Token NUM))
  (toks rest : list (Lexeme NUM)).

Lemma leaf_lexemes_app a b : leaf_lexemes (a ++ b) -> leaf_lexemes b.
Proof. intros H e He. apply H, in_or_app. right. exact He. Qed.

Lemma leaf_lexemes_cons x toks : leaf_lexemes (x :: toks) -> leaf_lexemes toks.
Proof. apply (leaf_lexemes_app [x]). Qed.

Lemma inner_error_app pre rest err :
  inner_error rest err -> inner_error (pre ++ rest) err.
Proof.
  destruct err; simpl; try tauto. intros H. apply in_or_app. right. exact H.
Qed.

Lemma inner_error_cons x rest err :
  inner_error rest err -> inner_error (x :: rest) err.
Proof. apply (inner_error_app [x]). Qed.

(** The loop of opParser only builds what the grammar derives, and stops in
    front of a token that is none of its two operators. *)
Lemma op_loop_sound lvl sub op1 op2 (np : Parser NUM) :
  (forall ts1 e1 op ts2 e2,
      derives lvl ts1 e1 -> op = op1 \/ op = op2 -> derives sub ts2 e2 ->
      derives lvl (ts1 ++ [TPunct (POp op)] ++ ts2) (Operation op e1 e2)) ->
  sound sub np ->
  forall fuel lhs toks e rest ts0,
    leaf_lexemes toks -> halts sub toks -> derives lvl ts0 lhs ->
    op_loop fuel op1 op2 np lhs toks = Ok (e, rest) ->
    exists ts, toks = map LTok ts ++ rest /\ derives lvl (ts0 ++ ts) e
               /\ stops_loop op1 op2 rest /\ halts sub rest.
Proof.
  intros Hstep Hnp.
  assert (Hend : forall lhs toks e rest ts0,
             halts sub toks -> derives lvl ts0 lhs -> stops_loop op1 op2 toks ->
             Ok (lhs, toks) = Ok (e, rest) ->
             exists ts, toks = map LTok ts ++ rest /\ derives lvl (ts0 ++ ts) e
                        /\ stops_loop op1 op2 rest /\ halts sub rest).
  { intros lhs toks e rest ts0 Hh Hd Hs [= <- <-]. exists [].
    rewrite app_nil_r. auto. }
  induction fuel as [|fuel IH]; intros lhs toks e rest ts0 Hleaf Hh Hd;
    destruct toks as [|[[leaf|[op| |]]|text] toks]; simpl;
    try discriminate;
    try (apply Hend; (assumption || exact I));
    case_decide as Hop;
    try (apply Hend; (assumption || (simpl; tauto)));
    try discriminate.
  destruct (np toks) as [[rhs toks']|err] eqn:E; [|discriminate].
  intros Hloop.
  destruct (Hnp toks rhs toks' (leaf_lexemes_cons _ _ Hleaf) E)
    as (ts2 & -> & Hd2 & Hh2).
  destruct (IH (Operation op lhs rhs) toks' e rest
              (ts0 ++ [TPunct (POp op)] ++ ts2))
    as (ts3 & -> & Hd3 & Hs3 & Hh3); try assumption.
  - apply (leaf_lexemes_app (map LTok ts2)), (leaf_lexemes_cons _ _ Hleaf).
  - apply Hstep; assumption.
  - exists ([TPunct (POp op)] ++ ts2 ++ ts3). repeat split; try assumption.
    + rewrite !map_app, <- !app_assoc. reflexivity.
    + rewrite <- !app_assoc in Hd3. exact Hd3.
Qed.

Lemma opParser_sound lvl sub fuel op1 op2 (np : Parser NUM) :
  (forall ts e, derives sub ts e -> derives lvl ts e) ->
  (forall ts1 e1 op ts2 e2,
      derives lvl ts1 e1 -> op = op1 \/ op = op2 -> derives sub ts2 e2 ->
      derives lvl (ts1 ++ [TPunct (POp op)] ++ ts2) (Operation op e1 e2)) ->
  (forall rest, halts sub rest -> stops_loop op1 op2 rest -> halts lvl rest) ->
  sound sub np -> sound lvl (opParser fuel op1 op2 np).
Proof.
  intros Hlift Hstep Hhalt Hnp toks e rest Hleaf. unfold opParser.
  destruct (np toks) as [[lhs toks']|err] eqn:E; [|discriminate].
  intros Hloop.
  destruct (Hnp toks lhs toks' Hleaf E) as (ts1 & -> & Hd1 & Hh1).
  destruct (op_loop_sound lvl sub op1 op2 np Hstep Hnp fuel lhs toks' e rest ts1)
    as (ts2 & -> & Hd2 & Hs2 & Hh2); try assumption.
  - apply (leaf_lexemes_app _ _ Hleaf).
  - apply Hlift. exact Hd1.
  - exists (ts1 ++ ts2). repeat split.
    + rewrite map_app, <- app_assoc. reflexivity.
    + exact Hd2.
    + apply Hhalt; assumption.
Qed.

Lemma term_sound fuel (np : Parser NUM) :
  sound Factor np -> sound Term (opParser fuel Mul Div np).
Proof.
  apply opParser_sound.
  - intros ts e. apply derives_factor.
  - intros ts1 e1 op ts2 e2 H1 Hop H2. apply derives_term_op; assumption.
  - intros rest _ Hs. exact Hs.
Qed.

Lemma expr_sound fuel (np : Parser NUM) :
  sound Term np -> sound Expr (opParser fuel Add Sub np).
Proof.
  apply opParser_sound.
  - intros ts e. apply derives_term.
  - intros ts1 e1 op ts2 e2 H1 Hop H2. apply derives_expr_op; assumption.
  - intros rest Hm Hs. split; assumption.
Qed.

Lemma parseFactor_sound fuel : sound Factor (parseFactor (NUM := NUM) fuel).
Proof.
  induction fuel as [|fuel IH]; intros toks e rest Hleaf;
    destruct toks as [|[[leaf|[op| |]]|text] toks]; cbn [parseFactor next];
    try discriminate;
    try (intros [= <- <-]; exists [TExpr leaf]; repeat split;
         apply derives_leaf, Hleaf; left; reflexivity).
  destruct (opParser fuel Add Sub (opParser fuel Mul Div (parseFactor fuel)) toks)
    as [[e' rest']|err] eqn:E; [|discriminate].
  destruct (expr_sound fuel _ (term_sound fuel _ IH) toks e' rest'
              (leaf_lexemes_cons _ _ Hleaf) E) as (ts & -> & Hd & _).
  destruct rest' as [|[[leaf|[op| |]]|text] rest'']; cbn [next];
    try discriminate.
  intros [= <- <-]. exists ([TPunct LParen] ++ ts ++ [TPunct RParen]).
  repeat split.
  - simpl. rewrite !map_app, <- !app_assoc. reflexivity.
  - apply derives_paren. exact Hd.
Qed.

Lemma parseExpr_sound fuel : sound Expr (parseExpr (NUM := NUM) fuel).
Proof. apply expr_sound, term_sound, parseFactor_sound. Qed.

(** The errors of the parsing functions. *)
Lemma op_loop_errors sub op1 op2 (np : Parser NUM) :
  sound sub np -> fails_inside np ->
  forall fuel lhs toks err,
    leaf_lexemes toks ->
    op_loop fuel op1 op2 np lhs toks = Err err -> inner_error toks err.
Proof.
  intros Hnp Hfail.
  induction fuel as [|fuel IH]; intros lhs toks err Hleaf;
    destruct toks as [|[[leaf|[op| |]]|text] toks]; simpl;
    try discriminate;
    try (intros [= <-]; simpl; auto);
    case_decide as Hop; try discriminate;
    try (intros [= <-]; exact I).
  destruct (np toks) as [[rhs toks']|err'] eqn:E.
  - intros Hloop.
    destruct (Hnp toks rhs toks' (leaf_lexemes_cons _ _ Hleaf) E)
      as (ts2 & -> & _).
    apply inner_error_cons, inner_error_app.
    apply (IH (Operation op lhs rhs)); [|exact Hloop].
    apply (leaf_lexemes_app (map LTok ts2)), (leaf_lexemes_cons _ _ Hleaf).
  - intros [= <-]. apply inner_error_cons.
    apply Hfail; [apply (leaf_lexemes_cons _ _ Hleaf) | exact E].
Qed.

Lemma opParser_errors sub fuel op1 op2 (np : Parser NUM) :
  sound sub np -> fails_inside np -> fails_inside (opParser fuel op1 op2 np).
Proof.
  intros Hnp Hfail toks err Hleaf. unfold opParser.
  destruct (np toks) as [[lhs toks']|err'] eqn:E.
  - intros Hloop.
    destruct (Hnp toks lhs toks' Hleaf E) as (ts1 & -> & _).
    apply inner_error_app.
    apply (op_loop_errors sub op1 op2 np Hnp Hfail fuel lhs); [|exact Hloop].
    apply (leaf_lexemes_app _ _ Hleaf).
  - intros [= <-]. apply Hfail; assumption.
Qed.

Lemma parseFactor_errors fuel : fails_inside (parseFactor (NUM := NUM) fuel).
Proof.
  induction fuel as [|fuel IH]; intros toks err Hleaf;
    destruct toks as [|[[leaf|[op| |]]|text] toks]; cbn [parseFactor next];
    try discriminate;
    try (intros [= <-]; simpl; auto).
  pose proof (opParser_errors Term fuel Add Sub _
                (term_sound fuel _ (parseFactor_sound fuel))
                (opParser_errors Factor fuel Mul Div _
                   (parseFactor_sound fuel) IH)) as Hin.
  destruct (opParser fuel Add Sub (opParser fuel Mul Div (parseFactor fuel)) toks)
    as [[e' rest']|err'] eqn:E.
  - destruct (expr_sound fuel _ (term_sound fuel _ (parseFactor_sound fuel))
                toks e' rest' (leaf_lexemes_cons _ _ Hleaf) E)
      as (ts & -> & _ & _ & Hs).
    destruct rest' as [|[[leaf|[op| |]]|text] rest'']; cbn [next];
      try discriminate; try (intros [= <-]; exact I).
    destruct Hs.
  - intros [= <-]. apply inner_error_cons.
    apply Hin; [apply (leaf_lexemes_cons _ _ Hleaf) | exact E].
Qed.

Lemma parseExpr_errors fuel : fails_inside (parseExpr (NUM := NUM) fuel).
Proof.
  unfold parseExpr, parseTerm.
  apply (opParser_errors Term); [apply term_sound, parseFactor_sound|].
  apply (opParser_errors Factor); [apply parseFactor_sound|].
  apply parseFactor_errors.
Qed.

(** The tokens derive one expression only: the one the parser builds. *)
Lemma derives_unique ts e1 e2 :
  derives Expr ts e1 -> derives Expr ts e2 -> e1 = e2.
Proof.
  intros H1 H2.
  destruct (derives_parses Expr ts e1 H1 (length ts) []) as (f1 & _ & P1);
    [simpl; lia | exact I |].
  destruct (derives_parses Expr ts e2 H2 (length ts) []) as (f2 & _ & P2);
    [simpl; lia | exact I |].
  rewrite P1, !op_loop_stops in P2 by exact I. congruence.
Qed.

Context {TXT : NumberText NUM}.

Lemma exec_leaf s e (r : string) :
  exec s = Some (TExpr e, r) -> is_leaf e = true.
Proof.
  unfold exec.
  destruct (match_sym _) as [[? ?]|]; [intros [= <- _]; reflexivity|].
  destruct (match_dice _) as [[[[? ?] ?] ?]|]; [intros [= <- _]; reflexivity|].
  destruct (match_lit _) as [[? ?]|]; [intros [= <- _]; reflexivity|].
  destruct (match_op _) as [[? ?]|]; discriminate.
Qed.

Lemma tokenize_leaves whole fuel s : leaf_lexemes (tokenize_from whole fuel s).
Proof.
  revert s. induction fuel as [|fuel IH]; intros s e; simpl; [tauto|].
  destruct (is_empty s); [simpl; tauto|].
  destruct (exec s) as [[t r]|] eqn:E; simpl.
  - intros [[= ->] | H]; [exact (exec_leaf _ _ _ E) | exact (IH r e H)].
  - intros [[=] | []].
Qed.

Lemma tokenize_errors whole fuel s text :
  In (LErr text) (tokenize_from whole fuel s) -> text = whole.
Proof.
  revert s. induction fuel as [|fuel IH]; intros s; simpl; [tauto|].
  destruct (is_empty s); [simpl; tauto|].
  destruct (exec s) as [[t r]|]; simpl.
  - intros [[=] | H]. exact (IH r H).
  - intros [[= ->] | []]. reflexivity.
Qed.

(** What [parse] returns, read on the lexemes of the text. *)
Lemma parse_Ok input e :
  parse input = Ok e ->
  exists ts, tokenize (trim input) = map LTok ts /\ derives Expr ts e.
Proof.
  unfold parse.
  pose proof (tokenize_leaves (trim input) (String.length (trim input))
                (trim input)) as Hleaf.
  fold (tokenize (trim input)) in Hleaf.
  destruct (parseExpr _ _) as [[e' rest]|err] eqn:E; [|discriminate].
  destruct (parseExpr_sound _ _ _ _ Hleaf E) as (ts & Hts & Hd & _).
  destruct rest as [|[t|text] rest]; cbn [next]; try discriminate.
  intros [= <-]. exists ts. rewrite app_nil_r in Hts. auto.
Qed.

(** X5: "Unexpected token" names the expression read so far and the token
    after it.  When parse throws the SyntaxError for an unexpected token,
    the tokens before that token derive the expression of the message as an
    expr of the grammar, and the token is a name, a number, a roll or a
    parenthesis, never an operator. *)
Theorem unexpected_token_follows_an_expression input tok e :
  parse input = Err (UnexpectedToken tok e) ->
  exists ts rest,
    tokenize (trim input) = map LTok ts ++ LTok tok :: rest
    /\ derives Expr ts e
    /\ forall op, tok <> TPunct (POp op).
Proof.
  unfold parse.
  pose proof (tokenize_leaves (trim input) (String.length (trim input))
                (trim input)) as Hleaf.
  fold (tokenize (trim input)) in Hleaf.
  destruct (parseExpr _ _) as [[e' rest]|err] eqn:E.
  - destruct (parseExpr_sound _ _ _ _ Hleaf E) as (ts & Hts & Hd & Hm & Ha).
    destruct rest as [|[t|text] rest]; cbn [next]; try discriminate.
    intros [= <- <-]. exists ts, rest. repeat split; try assumption.
    intros op ->. simpl in Hm, Ha. destruct op; tauto.
  - intros [= ->]. destruct (parseExpr_errors _ _ _ Hleaf E).
Qed.

(** X4: the SyntaxError of the lexer quotes the whole text.  When parse
    throws "Unexpected input", the text of the message is the entire
    trimmed input, wherever the lexer stopped: a failed match of the sticky
    pattern has reset its lastIndex to 0 when the message is built. *)
Theorem lexer_error_quotes_whole_text input text :
  parse input = Err (UnexpectedInput text) -> text = trim input.
Proof.
  unfold parse.
  pose proof (tokenize_leaves (trim input) (String.length (trim input))
                (trim input)) as Hleaf.
  fold (tokenize (trim input)) in Hleaf.
  destruct (parseExpr _ _) as [[e' rest]|err] eqn:E.
  - destruct (parseExpr_sound _ _ _ _ Hleaf E) as (ts & Hts & Hd & Hm & Ha).
    destruct rest as [|[t|text'] rest]; cbn [next]; try discriminate.
    destruct Ha.
  - intros [= ->].
    apply (tokenize_errors (trim input) (String.length (trim input))
             (trim input)).
    exact (parseExpr_errors _ _ _ Hleaf E).
Qed.

End Accepts.

(** X1: parse accepts exactly the grammar of the documentation.  parse
    returns an expression if and only if the whole trimmed text is lexed
    into tokens, without error, and these tokens derive the expression as
    an expr of the grammar

      expr   = term   / expr "+" term / expr "-" term
      term   = factor / term "*" factor / term "/" factor
      factor = symbol / roll / literal / "(" expr ")"

    and a sequence of tokens derives one expression at most. *)
Theorem parse_accepts_the_grammar {NUM : Number} {TXT : NumberText NUM}
    (input : string) (e : Expression NUM) :
  (parse input = Ok e
   <-> exists ts, tokenize (trim input) = map LTok ts /\ derives Expr ts e)
  /\ (forall (ts : list (Token NUM)) e1 e2,
        derives Expr ts e1 -> derives Expr ts e2 -> e1 = e2).
Proof.
  split; [split|].
  - apply parse_Ok.
  - intros (ts & Htok & Hd). exact (parse_derives input ts e Htok Hd).
  - exact derives_unique.
Qed.


Lemma lexer_error_quotes_whole_text_witness :
  @parse float64 float64_text " 1 + # " = Err (UnexpectedInput "1 + #")
  /\ "1 + #"%string = trim " 1 + # ".
Proof.
  split; [reflexivity|].
  apply (@lexer_error_quotes_whole_text float64 float64_text). reflexivity.
Defined.


Lemma unexpected_token_follows_an_expression_witness :
  exists ts rest,
    @tokenize float64 float64_text (trim "a * 2 b + 1")
    = map LTok ts ++ LTok (TExpr (Reference "b")) :: rest
    /\ derives Expr ts
         (Operation Mul (Reference "a") (Literal (Num64 "2")))
    /\ forall op, @TExpr float64 (Reference "b") <> TPunct (POp op).
Proof.
  apply (@unexpected_token_follows_an_expression float64 float64_text).
  reflexivity.
Defined.


(** ** Where the lexer fails, and the texts that are no expression *)

Section Failure.
Context {NUM : Number} {TXT : NumberText NUM}.

Ltac by_codes :=
  unfold starts_token, is_word_char, is_space, is_digit, is_sym_start,
    is_sym_char, in_range, char_eqb in *;
  repeat match goal with
         | |- _ = false => apply not_true_iff_false; intro
         | H : _ = false |- _ => apply not_true_iff_false in H
         end;
  rewrite ?orb_true_iff, ?andb_true_iff, ?N.leb_le, ?N.eqb_eq in *;
  repeat match goal with
         | c : ascii |- _ =>
             let n := fresh "n" in
             generalize dependent (N_of_ascii c); intros n; clear c
         end;
  cbn in *; lia.

Lemma punctuation_cases c p :
  punctuation_of c = Some p ->
  c = "*"%char \/ c = "/"%char \/ c = "("%char \/ c = ")"%char
  \/ c = "+"%char \/ c = "-"%char.
Proof.
  unfold punctuation_of.
  destruct (char_eqb c "*") eqn:E1; [apply char_eqb_eq in E1; auto|].
  destruct (char_eqb c "/") eqn:E2; [apply char_eqb_eq in E2; auto|].
  destruct (char_eqb c "(") eqn:E3; [apply char_eqb_eq in E3; auto|].
  destruct (char_eqb c ")") eqn:E4; [apply char_eqb_eq in E4; auto|].
  destruct (char_eqb c "+") eqn:E5; [apply char_eqb_eq in E5; auto 6|].
  destruct (char_eqb c "-") eqn:E6; [apply char_eqb_eq in E6; auto 7|].
  discriminate.
Qed.

Lemma punctuation_not_sym_start c p :
  punctuation_of c = Some p -> is_sym_start c = false.
Proof.
  intros H. destruct (punctuation_cases c p H) as [-> | [-> | [-> | [-> | [-> | ->]]]]];
    reflexivity.
Qed.

Lemma punctuation_not_digit c p :
  punctuation_of c = Some p -> is_digit c = false.
Proof.
  intros H. destruct (punctuation_cases c p H) as [-> | [-> | [-> | [-> | [-> | ->]]]]];
    reflexivity.
Qed.

Lemma punctuation_not_space c p :
  punctuation_of c = Some p -> is_space c = false.
Proof.
  intros H. destruct (punctuation_cases c p H) as [-> | [-> | [-> | [-> | [-> | ->]]]]];
    reflexivity.
Qed.

Lemma not_minus_no_punctuation c :
  punctuation_of c = None -> char_eqb c "-" = false.
Proof.
  unfold punctuation_of.
  destruct (char_eqb c "*"); [discriminate|].
  destruct (char_eqb c "/"); [discriminate|].
  destruct (char_eqb c "("); [discriminate|].
  destruct (char_eqb c ")"); [discriminate|].
  destruct (char_eqb c "+"); [discriminate|].
  destruct (char_eqb c "-"); [discriminate|]. reflexivity.
Qed.

Lemma span_stops p s : stops p s = true -> span p s = (EmptyString, s).
Proof.
  destruct s as [|c s]; [reflexivity|]. simpl. intros H%negb_true_iff.
  rewrite H. reflexivity.
Qed.

Lemma span_head p c s :
  p c = true -> exists a b, span p (String c s) = (String c a, b).
Proof.
  intros H. simpl. rewrite H. destruct (span p s) as [a b]. eauto.
Qed.

Lemma skip_space_stops s : stops is_space (skip_space s) = true.
Proof.
  induction s as [|c s IH]; [reflexivity|]. simpl.
  destruct (is_space c) eqn:E; [exact IH|]. simpl. rewrite E. reflexivity.
Qed.

Lemma skip_space_idem s : skip_space (skip_space s) = skip_space s.
Proof.
  pose proof (skip_space_stops s) as H.
  destruct (skip_space s) as [|c r]; [reflexivity|]. simpl in *.
  apply negb_true_iff in H. rewrite H. reflexivity.
Qed.

Lemma exec_skip_space s : exec (skip_space s) = exec s.
Proof. unfold exec. rewrite skip_space_idem. reflexivity. Qed.

(** The pattern at a text that begins with a token character. *)
Lemma exec_at_token c r :
  starts_token c = true -> exec (String c r) <> None.
Proof.
  intros Hc. unfold exec.
  assert (Hsp : is_space c = false).
  { unfold starts_token in Hc.
    destruct (punctuation_of c) as [p|] eqn:Ep;
      [exact (punctuation_not_space c p Ep)|].
    rewrite orb_false_r in Hc. clear Ep. by_codes. }
  cbn [skip_space]. rewrite Hsp.
  unfold match_sym. destruct (is_sym_start c) eqn:Es.
  { destruct (span is_sym_char r). discriminate. }
  destruct (match_dice (String c r)) as [[[[? ?] ?] ?]|]; [discriminate|].
  destruct (match_lit (String c r)) as [[? ?]|] eqn:El; [discriminate|].
  destruct (is_digit c) eqn:Ed.
  - exfalso. unfold match_lit, match_sign in El.
    rewrite (digit_not_minus c Ed) in El.
    destruct (span_head is_digit c r Ed) as (a & b & Hs). rewrite Hs in El.
    cbn [is_empty] in El. destruct (match_fraction b). discriminate.
  - unfold starts_token in Hc. rewrite Es, Ed in Hc. cbn [orb] in Hc.
    unfold match_op.
    destruct (punctuation_of c) as [p|] eqn:Ep; discriminate.
Qed.

Lemma exec_at_other c r :
  starts_token c = false -> is_space c = false -> exec (String c r) = None.
Proof.
  intros Hc Hsp. unfold exec. cbn [skip_space]. rewrite Hsp.
  unfold starts_token in Hc.
  apply orb_false_iff in Hc as [Hc Hp]. apply orb_false_iff in Hc as [Hs Hd].
  destruct (punctuation_of c) as [p|] eqn:Ep; [discriminate|].
  unfold match_sym. rewrite Hs.
  unfold match_dice. cbn [span]. rewrite Hd. cbn [is_empty].
  unfold match_lit, match_sign. rewrite (not_minus_no_punctuation c Ep).
  cbn [span]. rewrite Hd. cbn [is_empty].
  unfold match_op. rewrite Ep. reflexivity.
Qed.

(** X6: the pattern of the lexer fails exactly in front of a character that
    begins no token.  After the white space that the pattern skips, a match
    fails if and only if the text is at its end or goes on with a character
    that is neither a letter, "$", "_", a digit, nor one of the characters
    of "*/()+-". *)
Theorem lexer_fails_iff (s : string) :
  exec s = None <-> stops starts_token (skip_space s) = true.
Proof.
  rewrite <- exec_skip_space.
  pose proof (skip_space_stops s) as Hsp.
  destruct (skip_space s) as [|c r]; [split; reflexivity|].
  cbn [stops] in *. apply negb_true_iff in Hsp.
  destruct (starts_token c) eqn:Hc; cbn [negb].
  - split; [|discriminate]. intros H. exfalso.
    exact (exec_at_token c r Hc H).
  - split; [reflexivity|]. intros _. exact (exec_at_other c r Hc Hsp).
Qed.

(** A punctuation character at the front of a text is a token, unless it
    is a "-" before a digit. *)
Lemma exec_punctuation c p r :
  punctuation_of c = Some p ->
  (c = "-"%char -> stops is_digit r = true) ->
  exec (String c r) = Some (TPunct p, r).
Proof.
  intros Hp Hminus. unfold exec. cbn [skip_space].
  rewrite (punctuation_not_space c p Hp).
  unfold match_sym. rewrite (punctuation_not_sym_start c p Hp).
  unfold match_dice. cbn [span]. rewrite (punctuation_not_digit c p Hp).
  cbn [is_empty].
  unfold match_lit, match_sign.
  destruct (char_eqb c "-") eqn:Em.
  - apply char_eqb_eq in Em. rewrite (span_stops _ _ (Hminus Em)).
    cbn [is_empty]. unfold match_op. rewrite Hp. reflexivity.
  - cbn [span]. rewrite (punctuation_not_digit c p Hp). cbn [is_empty].
    unfold match_op. rewrite Hp. reflexivity.
Qed.

Lemma stops_trim_end p s : stops p s = true -> stops p (trim_end s) = true.
Proof.
  destruct s as [|c s]; [reflexivity|]. cbn [trim_end stops]. intros H.
  destruct (is_space c && is_empty (trim_end s)); [reflexivity | exact H].
Qed.

Lemma trim_solid_head c s :
  is_space c = false -> trim (String c s) = String c (trim_end s).
Proof.
  intros H. unfold trim. cbn [skip_space]. rewrite H.
  cbn [trim_end]. rewrite H. reflexivity.
Qed.

(** X7: there is no unary operator.  A text that begins with an operator or
    with a closing parenthesis is rejected with the Error "Unexpected
    operator" of parseFactor, whatever follows; the only exception is a "-"
    directly followed by a digit, which is the sign of a literal. *)
Theorem leading_operator_is_rejected c p rest :
  punctuation_of c = Some p -> p <> LParen ->
  (c = "-"%char -> stops is_digit rest = true) ->
  parse (String c rest) = Err (UnexpectedOperator p).
Proof.
  intros Hp Hparen Hminus. unfold parse.
  rewrite (trim_solid_head c rest (punctuation_not_space c p Hp)).
  unfold tokenize. cbn [String.length tokenize_from is_empty].
  rewrite (exec_punctuation c p (trim_end rest) Hp)
    by (intros Hc; apply stops_trim_end, Hminus, Hc).
  cbn [length]. unfold parseExpr, parseTerm, opParser.
  cbn [parseFactor next].
  destruct p as [op| |]; [reflexivity | contradiction | reflexivity].
Qed.

(** Blank texts and the white space around a text. *)
Lemma skip_space_blank s :
  string_forall is_space s = true -> skip_space s = EmptyString.
Proof.
  induction s as [|c s IH]; [reflexivity|]. cbn [string_forall skip_space].
  intros [Hc Hs]%andb_true_iff. rewrite Hc. exact (IH Hs).
Qed.

Lemma skip_space_after a s :
  string_forall is_space a = true -> skip_space (a +:+ s) = skip_space s.
Proof.
  induction a as [|c a IH]; [reflexivity|]. cbn [string_forall].
  intros [Hc Ha]%andb_true_iff. rewrite str_app_cons. cbn [skip_space].
  rewrite Hc. exact (IH Ha).
Qed.

Lemma trim_end_blank b :
  string_forall is_space b = true -> trim_end b = EmptyString.
Proof.
  induction b as [|c b IH]; [reflexivity|]. cbn [string_forall trim_end].
  intros [Hc Hb]%andb_true_iff. rewrite (IH Hb), Hc. reflexivity.
Qed.

Lemma trim_end_before s b :
  string_forall is_space b = true -> trim_end (s +:+ b) = trim_end s.
Proof.
  intros Hb. induction s as [|c s IH]; [exact (trim_end_blank b Hb)|].
  rewrite str_app_cons. cbn [trim_end]. rewrite IH. reflexivity.
Qed.

Lemma trim_before s b :
  string_forall is_space b = true -> trim (s +:+ b) = trim s.
Proof.
  intros Hb. unfold trim. induction s as [|c s IH].
  - cbn [skip_space]. change (EmptyString +:+ b) with b.
    rewrite (skip_space_blank b Hb). reflexivity.
  - rewrite str_app_cons. cbn [skip_space]. destruct (is_space c); [exact IH|].
    rewrite <- str_app_cons. apply trim_end_before. exact Hb.
Qed.

Lemma trim_around a s b :
  string_forall is_space a = true -> string_forall is_space b = true ->
  trim (a +:+ s +:+ b) = trim s.
Proof.
  intros Ha Hb. rewrite <- (trim_before s b Hb). unfold trim.
  rewrite (skip_space_after a _ Ha). reflexivity.
Qed.

(** Lexing is total, with at most one lexeme per character. *)
Lemma lexes_total whole (s : string) :
  exists l : list (Lexeme NUM),
    lexes whole s l /\ (length l <= String.length s)%nat.
Proof.
  remember (String.length s) as n eqn:Hn. revert s Hn.
  induction n as [n IH] using lt_wf_ind. intros s ->.
  destruct s as [|c s]; [exists []; split; [constructor | simpl; lia]|].
  destruct (exec (String c s)) as [[t rest]|] eqn:E.
  - pose proof (exec_length _ _ _ E) as Hlen.
    destruct (IH (String.length rest) Hlen rest eq_refl) as (l & Hl & Hb).
    exists (LTok t :: l). split.
    + apply (lexes_token whole (String c s) t rest); [reflexivity | exact E | exact Hl].
    + simpl in *. lia.
  - exists [LErr whole]. split.
    + apply lexes_error; [reflexivity | exact E].
    + simpl. lia.
Qed.

Lemma tokenize_lexes (expr : string) :
  lexes expr expr (tokenize expr)
  /\ (length (tokenize expr) <= String.length expr)%nat.
Proof.
  destruct (lexes_total expr expr) as (l & Hl & Hb).
  unfold tokenize. rewrite (lexes_tokenize expr expr l _ Hl (Nat.le_refl _)).
  split; assumption.
Qed.

End Failure.

(** X2: the lexer and the parser terminate on every text.  Every match of
    the pattern consumes a character, every iteration of the loop of
    opParser and every parenthesis of parseFactor consumes a token: the
    lexemes of a text are those of its complete left-to-right lexing, at
    most one per character, and parse comes to a result or to one of its
    errors within the steps that the number of tokens allows. *)
Theorem parse_terminates {NUM : Number} {TXT : NumberText NUM}
    (input : string) :
  lexes (trim input) (trim input) (tokenize (trim input))
  /\ (length (tokenize (trim input)) <= String.length (trim input))%nat
  /\ parse input <> Err OutOfFuel.
Proof.
  destruct (tokenize_lexes (trim input)) as [Hl Hb].
  repeat split; [exact Hl | exact Hb | apply parse_fuel].
Qed.

(** X3: an empty or blank text is an incomplete expression.  On a text of
    white space only, parse throws the Error "Incomplete expression" of
    parseFactor (not a SyntaxError). *)
Theorem blank_input_is_incomplete {NUM : Number} {TXT : NumberText NUM}
    (input : string) :
  string_forall is_space input = true ->
  parse input = Err IncompleteExpression.
Proof.
  intros H. unfold parse, trim. rewrite (skip_space_blank input H).
  reflexivity.
Qed.

Lemma blank_input_is_incomplete_witness :
  @parse float64 float64_text "  " = Err IncompleteExpression
  /\ @parse float64 float64_text EmptyString = Err IncompleteExpression.
Proof.
  split; apply blank_input_is_incomplete; reflexivity.
Defined.


Lemma leading_operator_is_rejected_witness :
  @parse float64 float64_text "-a" = Err (UnexpectedOperator (POp Sub))
  /\ @parse float64 float64_text "+1" = Err (UnexpectedOperator (POp Add))
  /\ @parse float64 float64_text "-(1 + 2)" = Err (UnexpectedOperator (POp Sub)).
Proof.
  split; [|split]; apply leading_operator_is_rejected;
    (reflexivity || discriminate).
Defined.

(** X8: white space around the text is ignored.  parse gives the same
    result, expression or error, on a text and on the text with any white
    space before and after it. *)
Theorem surrounding_space_is_ignored {NUM : Number} {TXT : NumberText NUM}
    (a s b : string) :
  string_forall is_space a = true -> string_forall is_space b = true ->
  parse (a +:+ s +:+ b) = parse s.
Proof.
  intros Ha Hb. unfold parse. rewrite (trim_around a s b Ha Hb). reflexivity.
Qed.

Lemma surrounding_space_is_ignored_witness :
  @parse float64 float64_text (" " +:+ "1 + 2" +:+ "  ")
  = @parse float64 float64_text "1 + 2".
Proof.
  apply surrounding_space_is_ignored; reflexivity.
Defined.


(** ** Texts put together *)

Section Composition.
Context {NUM : Number} {TXT : NumberText NUM}.

Ltac by_codes :=
  unfold starts_token, is_word_char, is_space, is_digit, is_sym_start,
    is_sym_char, in_range, char_eqb in *;
  repeat match goal with
         | |- _ = false => apply not_true_iff_false; intro
         | H : _ = false |- _ => apply not_true_iff_false in H
         end;
  rewrite ?orb_true_iff, ?andb_true_iff, ?N.leb_le, ?N.eqb_eq in *;
  repeat match goal with
         | c : ascii |- _ =>
             let n := fresh "n" in
             generalize dependent (N_of_ascii c); intros n; clear c
         end;
  cbn in *; lia.

(** A character that is no word character ends every token. *)
Lemma word_stops_digit u :
  stops is_word_char u = true -> stops is_digit u = true.
Proof.
  destruct u as [|c u]; [reflexivity|]. cbn [stops].
  intros H%negb_true_iff. apply negb_true_iff. by_codes.
Qed.

Lemma word_stops_sym u :
  stops is_word_char u = true -> stops is_sym_char u = true.
Proof.
  destruct u as [|c u]; [reflexivity|]. cbn [stops].
  intros H%negb_true_iff. apply negb_true_iff. by_codes.
Qed.

Lemma word_no_sym u : stops is_word_char u = true -> match_sym u = None.
Proof.
  destruct u as [|c u]; [reflexivity|]. cbn [stops].
  intros H%negb_true_iff. unfold match_sym.
  assert (is_sym_start c = false) as -> by by_codes. reflexivity.
Qed.

Lemma word_no_mod u : stops is_word_char u = true -> match_mod u = (None, u).
Proof.
  destruct u as [|c u]; [reflexivity|]. cbn [stops].
  intros H%negb_true_iff. unfold match_mod.
  assert (char_eqb c "h" = false) as -> by by_codes.
  assert (char_eqb c "l" = false) as -> by by_codes.
  reflexivity.
Qed.

Lemma word_no_fraction u :
  stops is_word_char u = true -> match_fraction u = (EmptyString, u).
Proof.
  destruct u as [|c u]; [reflexivity|]. cbn [stops].
  intros H%negb_true_iff. unfold match_fraction.
  assert (char_eqb c "." = false) as -> by by_codes.
  reflexivity.
Qed.

Lemma word_not_d c u :
  stops is_word_char (String c u) = true -> char_eqb c "d" = false.
Proof. cbn [stops]. intros H%negb_true_iff. by_codes. Qed.

Lemma space_no_word c : is_space c = true -> is_word_char c = false.
Proof. intros H. by_codes. Qed.

(** The alternatives of the pattern on a text followed by such a
    character. *)
Lemma match_sym_extend s u :
  stops is_word_char u = true ->
  match_sym (s +:+ u)
  = match match_sym s with
    | Some (x, r) => Some (x, r +:+ u)
    | None => None
    end.
Proof.
  intros Hu. destruct s as [|c s]; [exact (word_no_sym u Hu)|].
  rewrite str_app_cons. unfold match_sym.
  destruct (is_sym_start c); [|reflexivity].
  destruct (span is_sym_char s) as [body r] eqn:E.
  rewrite (span_extend _ _ _ _ _ E (word_stops_sym u Hu)). reflexivity.
Qed.

Lemma match_mod_extend s u :
  stops is_word_char u = true ->
  match_mod (s +:+ u) = let '(m, r) := match_mod s in (m, r +:+ u).
Proof.
  intros Hu. destruct s as [|c s]; [exact (word_no_mod u Hu)|].
  rewrite str_app_cons. unfold match_mod.
  destruct (char_eqb c "h"); [reflexivity|].
  destruct (char_eqb c "l"); reflexivity.
Qed.

Lemma match_dice_extend s u :
  stops is_word_char u = true ->
  match_dice (s +:+ u)
  = match match_dice s with
    | Some (dice, sides, dmod, r) => Some (dice, sides, dmod, r +:+ u)
    | None => None
    end.
Proof.
  intros Hu. unfold match_dice.
  destruct (span is_digit s) as [dice r1] eqn:E1.
  rewrite (span_extend _ _ _ _ _ E1 (word_stops_digit u Hu)).
  destruct (is_empty dice); [reflexivity|].
  destruct r1 as [|c r2].
  - change (EmptyString +:+ u) with u. destruct u as [|c' u']; [reflexivity|].
    rewrite (word_not_d c' u' Hu). reflexivity.
  - rewrite str_app_cons. destruct (char_eqb c "d"); [|reflexivity].
    destruct (span is_digit r2) as [sides r3] eqn:E2.
    rewrite (span_extend _ _ _ _ _ E2 (word_stops_digit u Hu)).
    destruct (is_empty sides); [reflexivity|].
    rewrite (match_mod_extend r3 u Hu).
    destruct (match_mod r3). reflexivity.
Qed.

Lemma match_fraction_extend s u :
  stops is_word_char u = true ->
  match_fraction (s +:+ u) = let '(f, r) := match_fraction s in (f, r +:+ u).
Proof.
  intros Hu. destruct s as [|c s]; [exact (word_no_fraction u Hu)|].
  rewrite str_app_cons. unfold match_fraction.
  destruct (char_eqb c "."); [|reflexivity].
  destruct (span is_digit s) as [fp r] eqn:E.
  rewrite (span_extend _ _ _ _ _ E (word_stops_digit u Hu)).
  destruct (is_empty fp); reflexivity.
Qed.

Lemma match_lit_extend c s u :
  stops is_word_char u = true ->
  match_lit (String c s +:+ u)
  = match match_lit (String c s) with
    | Some (t, r) => Some (t, r +:+ u)
    | None => None
    end.
Proof.
  intros Hu. rewrite str_app_cons. unfold match_lit, match_sign.
  destruct (char_eqb c "-").
  - destruct (span is_digit s) as [ip r1] eqn:E.
    rewrite (span_extend _ _ _ _ _ E (word_stops_digit u Hu)).
    destruct (is_empty ip); [reflexivity|].
    rewrite (match_fraction_extend r1 u Hu).
    destruct (match_fraction r1). reflexivity.
  - rewrite <- str_app_cons.
    destruct (span is_digit (String c s)) as [ip r1] eqn:E.
    rewrite (span_extend _ _ _ _ _ E (word_stops_digit u Hu)).
    destruct (is_empty ip); [reflexivity|].
    rewrite (match_fraction_extend r1 u Hu).
    destruct (match_fraction r1). reflexivity.
Qed.

Lemma skip_space_app s u :
  is_empty (skip_space s) = false ->
  skip_space (s +:+ u) = skip_space s +:+ u.
Proof.
  induction s as [|c s IH]; [discriminate|].
  rewrite str_app_cons. cbn [skip_space].
  destruct (is_space c); [exact IH | reflexivity].
Qed.

Lemma exec_empty s : is_empty (skip_space s) = true -> exec s = None.
Proof.
  intros H%is_empty_true. unfold exec. rewrite H. reflexivity.
Qed.

Lemma exec_extend s u t r :
  stops is_word_char u = true ->
  exec s = Some (t, r) -> exec (s +:+ u) = Some (t, r +:+ u).
Proof.
  intros Hu He.
  destruct (is_empty (skip_space s)) eqn:Hs;
    [rewrite (exec_empty s Hs) in He; discriminate|].
  revert He. unfold exec. rewrite (skip_space_app s u Hs).
  destruct (skip_space s) as [|c k]; [discriminate|].
  rewrite (match_sym_extend _ u Hu), (match_dice_extend _ u Hu),
    (match_lit_extend _ _ u Hu).
  destruct (match_sym (String c k)) as [[x r0]|];
    [intros [= <- <-]; reflexivity|].
  destruct (match_dice (String c k)) as [[[[dice sides] dmod] r0]|];
    [intros [= <- <-]; reflexivity|].
  destruct (match_lit (String c k)) as [[text r0]|];
    [intros [= <- <-]; reflexivity|].
  rewrite str_app_cons. unfold match_op.
  destruct (punctuation_of c); [intros [= <- <-]; reflexivity | discriminate].
Qed.

(** The lexemes of a text without error, followed by another text. *)
Lemma lexes_extend whole whole' s (l : list (Lexeme NUM)) :
  lexes whole s l -> (forall text, ~ In (LErr text) l) ->
  forall u (lu : list (Lexeme NUM)),
    stops is_word_char u = true -> lexes whole' u lu ->
    lexes whole' (s +:+ u) (l ++ lu).
Proof.
  induction 1 as [| s He Hx | s t rest l He Hx _ IH]; intros Hno u lu Hu Hlu.
  - exact Hlu.
  - exfalso. apply (Hno whole). left. reflexivity.
  - cbn [app]. apply (lexes_token whole' _ t (rest +:+ u)).
    + apply is_empty_app. exact He.
    + apply exec_extend; assumption.
    + apply IH; [|assumption..].
      intros text Hin. apply (Hno text). right. exact Hin.
Qed.

Lemma lexes_after_blank whole a s (l : list (Lexeme NUM)) :
  string_forall is_space a = true -> is_empty s = false ->
  lexes whole s l -> lexes whole (a +:+ s) l.
Proof.
  intros Ha Hs Hl.
  assert (He : exec (a +:+ s) = exec s)
    by (unfold exec; rewrite (skip_space_after a s Ha); reflexivity).
  assert (Hn : is_empty (a +:+ s) = false)
    by (destruct a; [exact Hs | reflexivity]).
  inversion Hl as [Hs' | s' _ Hx | s' t rest l' _ Hx Hrest]; subst.
  - discriminate.
  - apply lexes_error; [exact Hn | rewrite He; exact Hx].
  - apply (lexes_token whole _ t rest); [exact Hn | rewrite He; exact Hx | exact Hrest].
Qed.

(** A text is its trimmed text between two blank texts. *)
Lemma skip_space_split s :
  exists a, string_forall is_space a = true /\ s = a +:+ skip_space s.
Proof.
  induction s as [|c s (a & Ha & Hs)]; [exists EmptyString; auto|].
  cbn [skip_space]. destruct (is_space c) eqn:Hc.
  - exists (String c a). cbn [string_forall]. rewrite Hc, Ha.
    split; [reflexivity|]. rewrite str_app_cons, <- Hs. reflexivity.
  - exists EmptyString. auto.
Qed.

Lemma trim_end_split s :
  exists b, string_forall is_space b = true /\ s = trim_end s +:+ b.
Proof.
  induction s as [|c s (b & Hb & Hs)]; [exists EmptyString; auto|].
  cbn [trim_end]. destruct (is_space c && is_empty (trim_end s)) eqn:Hc.
  - apply andb_true_iff in Hc as [Hc He]. apply is_empty_true in He.
    rewrite He in Hs. exists (String c s). cbn [string_forall].
    rewrite Hc, Hs. auto.
  - exists b. rewrite str_app_cons, <- Hs. auto.
Qed.

Lemma trim_split s :
  exists a b, string_forall is_space a = true
              /\ string_forall is_space b = true
              /\ s = a +:+ trim s +:+ b.
Proof.
  destruct (skip_space_split s) as (a & Ha & Hs).
  destruct (trim_end_split (skip_space s)) as (b & Hb & Hk).
  exists a, b. unfold trim. rewrite <- Hk. auto.
Qed.

Lemma blank_then_stops b u :
  string_forall is_space b = true -> stops is_word_char u = true ->
  stops is_word_char (b +:+ u) = true.
Proof.
  destruct b as [|c b]; [intros _ H; exact H|]. cbn [string_forall].
  intros [Hc _]%andb_true_iff _. rewrite str_app_cons. cbn [stops].
  rewrite (space_no_word c Hc). reflexivity.
Qed.

Lemma no_error_tokens (ts : list (Token NUM)) text :
  ~ In (LErr text) (map LTok ts).
Proof. induction ts as [|t ts IH]; simpl; [tauto|]. intros [[=] | H]; auto. Qed.

(** The lexemes of a text whose trimmed text is lexed into tokens, when
    another text follows it. *)
Lemma lexes_text_then whole s ts u (lu : list (Lexeme NUM)) :
  tokenize (trim s) = map LTok ts ->
  stops is_word_char u = true -> is_empty u = false -> lexes whole u lu ->
  lexes whole (s +:+ u) (map LTok ts ++ lu).
Proof.
  intros Htok Hu Hn Hlu.
  destruct (trim_split s) as (a & b & Ha & Hb & Hs).
  pose proof (proj1 (tokenize_lexes (trim s))) as Hl. rewrite Htok in Hl.
  rewrite Hs at 1. rewrite !str_app_assoc.
  apply lexes_after_blank; [exact Ha | |].
  - destruct (trim s); [|reflexivity]. cbn.
    destruct b; [exact Hn | reflexivity].
  - apply (lexes_extend (trim s)); [exact Hl | apply no_error_tokens | |].
    + apply blank_then_stops; assumption.
    + apply lexes_after_blank; assumption.
Qed.

Lemma derives_nonempty lvl (ts : list (Token NUM)) e :
  derives lvl ts e -> ts <> [].
Proof.
  induction 1; try assumption; try discriminate;
    intros Hnil; apply app_eq_nil in Hnil as [_ Hnil]; discriminate.
Qed.

Lemma trim_end_idem s : trim_end (trim_end s) = trim_end s.
Proof.
  induction s as [|c s IH]; [reflexivity|]. cbn [trim_end].
  destruct (is_space c && is_empty (trim_end s)) eqn:Hc; [reflexivity|].
  cbn [trim_end]. rewrite IH, Hc. reflexivity.
Qed.

Lemma trim_end_keeps s :
  is_empty (trim s) = false ->
  exists a, string_forall is_space a = true /\ trim_end s = a +:+ trim s.
Proof.
  intros Hn. destruct (skip_space_split s) as (a & Ha & Hs).
  destruct (trim_end_split (skip_space s)) as (b & Hb & Hk).
  exists a. split; [exact Ha|]. unfold trim in *.
  rewrite Hs at 1. rewrite Hk at 1.
  rewrite <- str_app_assoc, (trim_end_before _ b Hb).
  apply trim_end_app; [exact Hn | apply trim_end_idem].
Qed.

(** X9: parentheses around an expression do not change it.  When parse
    returns an expression on a text, it returns the same expression on the
    text between "(" and ")": the parentheses leave no trace in the
    result. *)
Theorem parentheses_leave_no_trace s e :
  parse s = Ok e -> parse ("(" +:+ s +:+ ")") = Ok e.
Proof.
  intros Hp. destruct (parse_Ok s e Hp) as (ts & Htok & Hd).
  apply (parse_derives _ (paren_tokens ts));
    [|apply (derives_as_expr Factor), derives_paren; exact Hd].
  assert (Ht : trim ("(" +:+ s +:+ ")") = "(" +:+ s +:+ ")").
  { unfold trim. change (skip_space ("(" +:+ s +:+ ")")) with ("(" +:+ s +:+ ")").
    rewrite <- str_app_assoc. apply trim_end_app; reflexivity. }
  rewrite Ht. unfold tokenize. apply lexes_tokenize; [|lia].
  change (map LTok (paren_tokens ts))
    with (LTok (TPunct LParen) :: map LTok (ts ++ [TPunct RParen])).
  rewrite map_app.
  apply (lexes_token _ _ (TPunct LParen) (s +:+ ")"));
    [reflexivity | apply exec_lparen |].
  apply lexes_text_then; [exact Htok | reflexivity | reflexivity |].
  apply (lexes_token _ _ (TPunct RParen) EmptyString);
    [reflexivity | apply exec_rparen | constructor].
Qed.

Lemma parseFactor_unclosed fuel (ts : list (Token NUM)) e :
  derives Expr ts e -> (length ts <= fuel)%nat ->
  parseFactor (S fuel) (LTok (TPunct LParen) :: map LTok ts)
  = Err UnmatchedParenthesis.
Proof.
  intros Hd Hf. cbn [parseFactor next].
  change (opParser fuel Add Sub (opParser fuel Mul Div (parseFactor fuel)))
    with (parseExpr (NUM := NUM) fuel).
  destruct (derives_parses Expr ts e Hd fuel []) as (fuel' & _ & Hq).
  { simpl. lia. }
  { exact I. }
  rewrite app_nil_r in Hq. rewrite Hq, op_loop_stops by exact I.
  reflexivity.
Qed.

Lemma parse_unclosed s e :
  parse s = Ok e -> parse ("(" +:+ s) = Err UnmatchedParenthesis.
Proof.
  intros Hp. destruct (parse_Ok s e Hp) as (ts & Htok & Hd).
  assert (Hn : is_empty (trim s) = false).
  { destruct (trim s); [|reflexivity]. exfalso.
    apply (derives_nonempty _ _ _ Hd). destruct ts; [reflexivity | discriminate]. }
  destruct (trim_end_keeps s Hn) as (a & Ha & Hk).
  assert (Ht : trim ("(" +:+ s) = String "(" (trim_end s))
    by (apply trim_solid_head; reflexivity).
  assert (Hl : tokenize (String "(" (trim_end s))
               = LTok (TPunct LParen) :: map LTok ts).
  { unfold tokenize. apply lexes_tokenize; [|lia].
    apply (lexes_token _ _ (TPunct LParen) (trim_end s));
      [reflexivity | apply exec_lparen |].
    rewrite Hk. apply lexes_after_blank; [exact Ha | exact Hn |].
    pose proof (proj1 (tokenize_lexes (trim s))) as Hx. rewrite Htok in Hx.
    pose proof (lexes_extend (trim s) (String "(" (trim_end s)) _ _ Hx
                  (no_error_tokens ts) EmptyString [] eq_refl (lexes_end _))
      as Hy.
    rewrite str_app_nil_r, app_nil_r in Hy. rewrite <- Hk. exact Hy. }
  unfold parse. rewrite Ht, Hl. cbn [length].
  unfold parseExpr, parseTerm, opParser.
  rewrite (parseFactor_unclosed _ ts e Hd) by (rewrite length_map; lia).
  reflexivity.
Qed.

Lemma parse_overclosed s e :
  parse s = Ok e ->
  parse (s +:+ ")") = Err (UnexpectedToken (TPunct RParen) e).
Proof.
  intros Hp. destruct (parse_Ok s e Hp) as (ts & Htok & Hd).
  assert (Hn : is_empty (trim s) = false).
  { destruct (trim s); [|reflexivity]. exfalso.
    apply (derives_nonempty _ _ _ Hd). destruct ts; [reflexivity | discriminate]. }
  assert (Hk : is_empty (skip_space s) = false).
  { unfold trim in Hn. destruct (skip_space s); [discriminate | reflexivity]. }
  assert (Ht : trim (s +:+ ")") = skip_space s +:+ ")").
  { unfold trim. rewrite (skip_space_app s ")" Hk).
    apply trim_end_app; reflexivity. }
  assert (Htok' : tokenize (trim (skip_space s)) = map LTok ts).
  { unfold trim. rewrite skip_space_idem. exact Htok. }
  assert (Hl : tokenize (skip_space s +:+ ")")
               = map LTok ts ++ [LTok (TPunct RParen)]).
  { unfold tokenize. apply lexes_tokenize; [|lia].
    apply lexes_text_then; [exact Htok' | reflexivity | reflexivity |].
    apply (lexes_token _ _ (TPunct RParen) EmptyString);
      [reflexivity | apply exec_rparen | constructor]. }
  unfold parse. rewrite Ht, Hl.
  destruct (derives_parses Expr ts e Hd
              (length (map LTok ts ++ [LTok (TPunct RParen)]))
              [LTok (TPunct RParen)]) as (fuel' & _ & Hq).
  { rewrite length_app, length_map. simpl. lia. }
  { simpl. auto. }
  rewrite Hq, op_loop_stops by (simpl; auto). reflexivity.
Qed.

End Composition.


Lemma parentheses_leave_no_trace_witness :
  @parse float64 float64_text ("(" +:+ "2d6 + a" +:+ ")")
  = Ok (Operation Add (Roll 2 6 None) (Reference "a")).
Proof.
  apply parentheses_leave_no_trace. reflexivity.
Defined.

(** X17: unbalanced parentheses are told apart.  On a text that parses,
    preceded by "(" and not closed, parse throws the Error "Unmatched
    parenthesis" of parseFactor; on the text followed by a ")" that opens
    nowhere, it throws the SyntaxError for the unexpected token ")", after
    the expression of the text. *)
Theorem unbalanced_parentheses {NUM : Number} {TXT : NumberText NUM}
    (s : string) (e : Expression NUM) :
  parse s = Ok e ->
  parse ("(" +:+ s) = Err UnmatchedParenthesis
  /\ parse (s +:+ ")") = Err (UnexpectedToken (TPunct RParen) e).
Proof.
  intros Hp. split; [exact (parse_unclosed s e Hp) | exact (parse_overclosed s e Hp)].
Qed.

Lemma unbalanced_parentheses_witness :
  @parse float64 float64_text ("(" +:+ "a * 2") = Err UnmatchedParenthesis
  /\ @parse float64 float64_text ("a * 2" +:+ ")")
     = Err (UnexpectedToken (TPunct RParen)
              (Operation Mul (Reference "a") (Literal (Num64 "2")))).
Proof.
  apply unbalanced_parentheses. reflexivity.
Defined.


(** ** The range of a roll *)



(** ** An operation on two texts *)

Section Operands.
Context {NUM : Number} {TXT : NumberText NUM}.

Lemma lexes_operation whole op s1 s2 (ts1 ts2 : list (Token NUM)) :
  tokenize (trim s1) = map LTok ts1 -> tokenize (trim s2) = map LTok ts2 ->
  lexes whole (operation_text op s1 s2)
    (map LTok (paren_tokens ts1 ++ [TPunct (POp op)] ++ paren_tokens ts2)).
Proof.
  intros H1 H2. unfold paren_tokens. rewrite !map_app. cbn [map app].
  rewrite <- !app_assoc. cbn [app].
  apply (lexes_token _ _ (TPunct LParen)
           (s1 +:+ ") " +:+ op_string op +:+ " (" +:+ s2 +:+ ")"));
    [reflexivity | apply exec_lparen |].
  apply lexes_text_then; [exact H1 | reflexivity | reflexivity |].
  apply (lexes_token _ _ (TPunct RParen)
           (String " " (op_string op +:+ String " " (String "(" (s2 +:+ ")")))));
    [reflexivity | apply exec_rparen |].
  apply lexes_space; [destruct op; reflexivity|].
  apply (lexes_token _ _ (TPunct (POp op))
           (String " " (String "(" (s2 +:+ ")"))));
    [destruct op; reflexivity | apply exec_operator |].
  apply lexes_space; [reflexivity|].
  apply (lexes_token _ _ (TPunct LParen) (s2 +:+ ")"));
    [reflexivity | apply exec_lparen |].
  apply lexes_text_then; [exact H2 | reflexivity | reflexivity |].
  apply (lexes_token _ _ (TPunct RParen) EmptyString);
    [reflexivity | apply exec_rparen | constructor].
Qed.

Lemma trim_operation_text op s1 s2 :
  trim (operation_text op s1 s2) = operation_text op s1 s2.
Proof.
  unfold trim, operation_text.
  change (skip_space ("(" +:+ s1 +:+ ") " +:+ op_string op +:+ " (" +:+ s2 +:+ ")"))
    with ("(" +:+ s1 +:+ ") " +:+ op_string op +:+ " (" +:+ s2 +:+ ")").
  rewrite <- !str_app_assoc. apply trim_end_app; reflexivity.
Qed.

Lemma derives_operation op (ts1 ts2 : list (Token NUM)) e1 e2 :
  derives Expr ts1 e1 -> derives Expr ts2 e2 ->
  derives Expr (paren_tokens ts1 ++ [TPunct (POp op)] ++ paren_tokens ts2)
    (Operation op e1 e2).
Proof.
  intros H1 H2.
  pose proof (derives_paren _ _ H1) as F1.
  pose proof (derives_paren _ _ H2) as F2.
  destruct op.
  - apply derives_expr_op;
      [apply derives_term, derives_factor, F1 | left; reflexivity
      | apply derives_factor, F2].
  - apply derives_expr_op;
      [apply derives_term, derives_factor, F1 | right; reflexivity
      | apply derives_factor, F2].
  - apply derives_term, derives_term_op;
      [apply derives_factor, F1 | left; reflexivity | exact F2].
  - apply derives_term, derives_term_op;
      [apply derives_factor, F1 | right; reflexivity | exact F2].
Qed.

(** X19: an operation on two parenthesized texts parses to the Operation
    of their expressions.  When parse returns e1 on s1 and e2 on s2, it
    returns the Operation of the operator on e1 and e2 on the text
    "(s1) op (s2)", for each of the four operators. *)
Theorem parse_of_an_operation op s1 s2 e1 e2 :
  parse s1 = Ok e1 -> parse s2 = Ok e2 ->
  parse (operation_text op s1 s2) = Ok (Operation op e1 e2).
Proof.
  intros P1 P2.
  destruct (parse_Ok s1 e1 P1) as (ts1 & T1 & D1).
  destruct (parse_Ok s2 e2 P2) as (ts2 & T2 & D2).
  apply (parse_derives _ (paren_tokens ts1 ++ [TPunct (POp op)]
                            ++ paren_tokens ts2));
    [|apply derives_operation; assumption].
  rewrite trim_operation_text. unfold tokenize.
  apply lexes_tokenize; [|lia]. apply lexes_operation; assumption.
Qed.

End Operands.


Lemma parse_of_an_operation_witness :
  @parse float64 float64_text (operation_text Mul "1 + 2" "a")
  = Ok (Operation Mul
          (Operation Add (Literal (Num64 "1")) (Literal (Num64 "2")))
          (Reference "a")).
Proof.
  apply parse_of_an_operation; reflexivity.
Defined.


(** ** The leaves of a parsed expression *)

Section Leaves.
Context {NUM : Number} {TXT : NumberText NUM}.

(** A text that is one token of a leaf parses to that leaf. *)
Lemma parse_single s (leaf : Expression NUM) :
  string_forall not_space s = true ->
  exec s = Some (TExpr leaf, EmptyString) -> is_leaf leaf = true ->
  parse s = Ok leaf.
Proof.
  intros Hs He Hleaf.
  assert (Hn : is_empty s = false).
  { destruct s; [|reflexivity]. discriminate. }
  destruct (solid_tight s Hs Hn) as (H1 & H2 & _).
  apply (parse_derives _ [TExpr leaf]);
    [|apply derives_term, derives_factor, derives_leaf; exact Hleaf].
  unfold trim. rewrite (skip_space_solid _ H1), H2. unfold tokenize.
  apply lexes_tokenize; [|lia].
  apply (lexes_token _ _ (TExpr leaf) EmptyString);
    [exact Hn | exact He | constructor].
Qed.

Lemma parse_symbol x : sym_name x = true -> parse x = Ok (Reference x).
Proof.
  intros Hx. apply parse_single; [apply sym_solid; exact Hx | | reflexivity].
  pose proof (exec_sym x EmptyString Hx eq_refl) as He.
  rewrite str_app_nil_r in He. exact He.
Qed.

Lemma parse_roll_text d s m :
  is_digits d = true -> is_digits s = true ->
  parse (d +:+ "d" +:+ s +:+ mod_string m)
  = Ok (Roll (N_of_digits d) (N_of_digits s) m).
Proof.
  intros Hd Hs. apply parse_single; [| | reflexivity].
  - rewrite !string_forall_app, (digits_solid d Hd), (digits_solid s Hs).
    destruct m as [[|]|]; reflexivity.
  - pose proof (exec_dice d s m EmptyString Hd Hs eq_refl) as He.
    rewrite str_app_nil_r in He. exact He.
Qed.

Lemma parse_literal_text t :
  lit_text t = true -> parse t = Ok (Literal (of_literal t)).
Proof.
  intros Ht. apply parse_single; [apply lit_solid; exact Ht | | reflexivity].
  pose proof (exec_lit t EmptyString Ht eq_refl) as He.
  rewrite str_app_nil_r in He. exact He.
Qed.

(** The names of a derived expression are among its tokens, and the names
    among the tokens of the lexer are symbols. *)
Lemma derives_refs lvl (ts : list (Token NUM)) e :
  derives lvl ts e ->
  forall x, In x (refs_of e) -> In (TExpr (Reference x)) ts.
Proof.
  induction 1 as [e Hleaf | ts e _ IH | ts e _ IH
                 | ts1 e1 op ts2 e2 _ IH1 Hop _ IH2 | ts e _ IH
                 | ts1 e1 op ts2 e2 _ IH1 Hop _ IH2]; intros x Hx;
    try (apply IH; exact Hx).
  - destruct e; simpl in Hx; try tauto; try discriminate.
    destruct Hx as [<- | []]. left. reflexivity.
  - apply in_or_app. right. apply in_or_app. left. apply IH. exact Hx.
  - cbn [refs_of] in Hx. apply in_app_or in Hx as [Hx | Hx]; apply in_or_app.
    + left. apply IH1. exact Hx.
    + right. apply in_or_app. right. apply IH2. exact Hx.
  - cbn [refs_of] in Hx. apply in_app_or in Hx as [Hx | Hx]; apply in_or_app.
    + left. apply IH1. exact Hx.
    + right. apply in_or_app. right. apply IH2. exact Hx.
Qed.

Lemma exec_reference s x (r : string) :
  exec s = Some (TExpr (Reference x), r) -> sym_name x = true.
Proof.
  unfold exec.
  destruct (match_sym _) as [[y r0]|] eqn:E.
  { intros [= <- _]. apply match_sym_spec in E as [_ H]. exact H. }
  destruct (match_dice _) as [[[[? ?] ?] ?]|]; [discriminate|].
  destruct (match_lit _) as [[? ?]|]; [discriminate|].
  destruct (match_op _) as [[? ?]|]; discriminate.
Qed.

Lemma tokenize_references whole fuel s x :
  In (LTok (TExpr (Reference x))) (tokenize_from whole fuel s) ->
  sym_name x = true.
Proof.
  revert s. induction fuel as [|fuel IH]; intros s; simpl; [tauto|].
  destruct (is_empty s); [simpl; tauto|].
  destruct (exec s) as [[t r]|] eqn:E; simpl.
  - intros [[= ->] | H]; [exact (exec_reference _ _ _ E) | exact (IH r H)].
  - intros [[=] | []].
Qed.

(** X21: the names of a parsed expression are symbols of the lexer.  Every
    name that an expression returned by parse refers to begins with a
    letter, "$" or "_" and goes on with letters, "$", "_", "." and the
    digits 1 to 9 only. *)
Theorem parsed_names_are_symbols input e :
  parse input = Ok e -> Forall (fun x => sym_name x = true) (refs_of e).
Proof.
  intros Hp. destruct (parse_Ok input e Hp) as (ts & Htok & Hd).
  apply List.Forall_forall. intros x Hx.
  apply (tokenize_references (trim input) (String.length (trim input))
           (trim input)).
  fold (tokenize (trim input)). rewrite Htok.
  apply in_map. exact (derives_refs _ _ _ Hd x Hx).
Qed.

End Leaves.

(** X20: a text that is one token parses to its leaf.  A symbol of the
    lexer (a letter, "$" or "_", then letters, "$", "_", "." and the digits
    1 to 9) parses to the Reference of that name; two non-empty digit
    strings around a "d", with an optional "h" or "l", parse to the Roll of
    their values with that modifier; and a decimal literal parses to the
    Literal of its number. *)
Theorem leaf_texts_parse_to_leaves {NUM : Number} {TXT : NumberText NUM} :
  (forall x, sym_name x = true -> parse x = Ok (Reference x))
  /\ (forall d s m,
        is_digits d = true -> is_digits s = true ->
        parse (d +:+ "d" +:+ s +:+ mod_string m)
        = Ok (Roll (N_of_digits d) (N_of_digits s) m))
  /\ (forall t, lit_text t = true -> parse t = Ok (Literal (of_literal t))).
Proof.
  split; [exact parse_symbol|]. split; [exact parse_roll_text|].
  exact parse_literal_text.
Qed.

Lemma leaf_texts_parse_to_leaves_witness :
  @parse float64 float64_text "foo.bar" = Ok (Reference "foo.bar")
  /\ @parse float64 float64_text "2d20h" = Ok (Roll 2 20 (Some KeepHigh))
  /\ @parse float64 float64_text "-4.5" = Ok (Literal (Num64 "-4.5")).
Proof.
  destruct (@leaf_texts_parse_to_leaves float64 float64_text)
    as (Hsym & Hroll & Hlit).
  split; [apply Hsym; reflexivity|].
  split; [apply (Hroll "2" "20" (Some KeepHigh)); reflexivity|].
  apply Hlit; reflexivity.
Defined.


Lemma parsed_names_are_symbols_witness :
  Forall (fun x => sym_name x = true)
    (@refs_of float64
       (Operation Add (Roll 1 20 None)
          (Operation Mul (Reference "DEX.mod") (Reference "$x_1")))).
Proof.
  apply (@parsed_names_are_symbols float64 float64_text
           "1d20 + DEX.mod * $x_1").
  reflexivity.
Defined.


(** ** Chains of one operator, and more texts that are no expression *)

Section SameOperator.
Context {NUM : Number}.

Lemma mergeLeft_same (farLeft : Expression NUM) op l r :
  mergeLeft farLeft op l op r
  = Operation op farLeft
      (Literal (if decide (op = Add \/ op = Sub) then nadd l r else nmul l r)).
Proof.
  unfold mergeLeft. case_decide; [|contradiction].
  case_decide; reflexivity.
Qed.

End SameOperator.

(** X23: a chain of one operator merges its two literals under that
    operator.  When simplify meets [farLeft op lit1 op lit2] whose left
    part is already simplified, the result is [farLeft op (lit1 + lit2)]
    for + and -, and [farLeft op (lit1 * lit2)] for * and /.  On binary64,
    simplifying "a - 1 - 2" prints "a - 3" and simplifying "a / 2 / 4"
    prints "a / 8". *)
Theorem mergeLeft_same_operator {NUM : Number} (C : Ctx NUM)
    (farLeft : Expression NUM) (op : Operator) (lit1 lit2 : num) :
  simplify_id (Operation op farLeft (Literal lit1)) C
    = (Operation op farLeft (Literal lit1), true) ->
  fst (simplify_id
         (Operation op (Operation op farLeft (Literal lit1)) (Literal lit2)) C)
  = Operation op farLeft
      (Literal (if decide (op = Add \/ op = Sub)
                then nadd lit1 lit2 else nmul lit1 lit2))
  /\ @simplifyExpr float64 float64_text "a - 1 - 2" = Ok "a - 3"
  /\ @simplifyExpr float64 float64_text "a / 2 / 4" = Ok "a / 8".
Proof.
  intros Hfix. split; [|split; reflexivity].
  change (simplify_id
            (Operation op (Operation op farLeft (Literal lit1)) (Literal lit2)) C)
    with (let '(l', same_l) := simplify_id (Operation op farLeft (Literal lit1)) C in
          let '(r', same_r) := simplify_id (Literal lit2) C in
          let keep :=
            if same_l && same_r
            then (Operation op (Operation op farLeft (Literal lit1)) (Literal lit2), true)
            else (Operation op l' r', false) in
          match l', r' with
          | Literal a, Literal b => (Literal (doOp op a b), false)
          | Operation lop ll (Literal lv), Literal rv =>
              if decide (precedence lop = precedence op)
              then (mergeLeft ll lop lv op rv, false)
              else keep
          | _, _ => keep
          end).
  rewrite Hfix. cbn [simplify_id]. case_decide; [|contradiction].
  cbn [fst]. apply mergeLeft_same.
Qed.

Lemma mergeLeft_same_operator_witness :
  fst (simplify_id
         (Operation Sub (Operation Sub (Reference "a") (Literal (Num64 "1")))
            (Literal (Num64 "2"))) (∅ : Ctx float64))
  = Operation Sub (Reference "a") (Literal (Num64 "3")).
Proof.
  refine (eq_trans
    (proj1 (@mergeLeft_same_operator float64 ∅ (Reference "a") Sub
              (Num64 "1") (Num64 "2") _)) _).
  - reflexivity.
  - reflexivity.
Defined.

Section Rejected.
Context {NUM : Number} {TXT : NumberText NUM}.

Lemma trim_head_solid input c r :
  trim input = String c r -> is_space c = false.
Proof.
  intros H. pose proof (skip_space_stops input) as Hs.
  apply (stops_trim_end is_space) in Hs. fold (trim input) in Hs.
  rewrite H in Hs. cbn [stops] in Hs. apply negb_true_iff in Hs. exact Hs.
Qed.

(** X24: a text that begins with no token is rejected by the lexer.  When
    the trimmed text begins with a character that is neither a letter, "$",
    "_", a digit, nor one of the characters of "*/()+-", parse throws the
    SyntaxError "Unexpected input" quoting the trimmed text. *)
Theorem unlexable_start_is_rejected input c r :
  trim input = String c r -> starts_token c = false ->
  parse input = Err (UnexpectedInput (trim input)).
Proof.
  intros Ht Hc. unfold parse. rewrite Ht. unfold tokenize.
  cbn [String.length tokenize_from is_empty].
  rewrite (exec_at_other c r Hc (trim_head_solid input c r Ht)).
  reflexivity.
Qed.

(** The parsing functions on a derivable sequence of tokens followed by an
    operator and nothing else. *)
Lemma parseFactor_end fuel : parseFactor (NUM := NUM) fuel [] = Err IncompleteExpression.
Proof. destruct fuel; reflexivity. Qed.

Lemma parseTerm_dangling (ts : list (Token NUM)) e op fuel :
  derives Term ts e -> op = Mul \/ op = Div ->
  (length ts + 1 <= fuel)%nat ->
  parseTerm fuel (map LTok ts ++ [LTok (TPunct (POp op))])
  = Err IncompleteExpression.
Proof.
  intros Hd Hop Hf.
  destruct (derives_parses Term ts e Hd fuel [LTok (TPunct (POp op))])
    as (fuel' & Hf' & Hq); [simpl; lia|].
  rewrite Hq. simpl in Hf'. destruct fuel' as [|fuel']; [lia|].
  cbn [op_loop peek]. case_decide; [|contradiction].
  cbn [tail]. rewrite parseFactor_end. reflexivity.
Qed.

Lemma parseExpr_dangling (ts : list (Token NUM)) e op fuel :
  derives Expr ts e -> (length ts + 1 <= fuel)%nat ->
  parseExpr fuel (map LTok ts ++ [LTok (TPunct (POp op))])
  = Err IncompleteExpression.
Proof.
  intros Hd Hf.
  destruct (decide (op = Add \/ op = Sub)) as [Hop | Hop].
  - destruct (derives_parses Expr ts e Hd fuel [LTok (TPunct (POp op))])
      as (fuel' & Hf' & Hq); [simpl; lia | |].
    { simpl. destruct Hop as [-> | ->]; split; discriminate. }
    rewrite Hq. simpl in Hf'. destruct fuel' as [|fuel']; [lia|].
    cbn [op_loop peek]. case_decide; [|contradiction].
    cbn [tail]. unfold parseTerm, opParser. rewrite parseFactor_end.
    reflexivity.
  - assert (Hmul : op = Mul \/ op = Div) by (destruct op; tauto).
    inversion Hd as [| | | | ts' e' Ht | ts1 e1 op' ts2 e2 H1 Hop' H2]; subst.
    + unfold parseExpr, opParser.
      rewrite (parseTerm_dangling ts e op fuel Ht Hmul Hf). reflexivity.
    + rewrite !length_app in Hf. simpl in Hf.
      destruct (derives_parses Expr ts1 e1 H1 fuel
                  (LTok (TPunct (POp op')) :: map LTok ts2
                     ++ [LTok (TPunct (POp op))]))
        as (fuel' & Hf' & Hq).
      { simpl. rewrite length_app, length_map. simpl. lia. }
      { simpl. destruct Hop' as [-> | ->]; split; discriminate. }
      rewrite !map_app, <- !app_assoc. simpl. simpl in Hq. rewrite Hq.
      simpl in Hf'. destruct fuel' as [|fuel']; [lia|].
      cbn [op_loop peek]. case_decide; [|contradiction].
      cbn [tail].
      rewrite (parseTerm_dangling ts2 e2 op fuel H2 Hmul) by lia.
      reflexivity.
Qed.

(** X25: an expression followed by an operator and nothing else is
    incomplete.  On a text that parses, followed by one of the four
    operators at the end of the text, parse throws the Error "Incomplete
    expression" of parseFactor. *)
Theorem dangling_operator_is_incomplete s e op :
  parse s = Ok e -> parse (s +:+ op_string op) = Err IncompleteExpression.
Proof.
  intros Hp. destruct (parse_Ok s e Hp) as (ts & Htok & Hd).
  assert (Hn : is_empty (trim s) = false).
  { destruct (trim s); [|reflexivity]. exfalso.
    apply (derives_nonempty _ _ _ Hd). destruct ts; [reflexivity | discriminate]. }
  assert (Hk : is_empty (skip_space s) = false).
  { unfold trim in Hn. destruct (skip_space s); [discriminate | reflexivity]. }
  assert (Ht : trim (s +:+ op_string op) = skip_space s +:+ op_string op).
  { unfold trim. rewrite (skip_space_app s _ Hk).
    apply trim_end_app; destruct op; reflexivity. }
  assert (Htok' : tokenize (trim (skip_space s)) = map LTok ts).
  { unfold trim. rewrite skip_space_idem. exact Htok. }
  assert (Hl : tokenize (skip_space s +:+ op_string op)
               = map LTok ts ++ [LTok (TPunct (POp op))]).
  { unfold tokenize. apply lexes_tokenize; [|lia].
    apply lexes_text_then;
      [exact Htok' | destruct op; reflexivity | destruct op; reflexivity |].
    apply (lexes_token _ _ (TPunct (POp op)) EmptyString);
      [destruct op; reflexivity | destruct op; reflexivity | constructor]. }
  unfold parse. rewrite Ht, Hl.
  rewrite (parseExpr_dangling ts e op _ Hd); [reflexivity|].
  rewrite length_app, length_map. simpl. lia.
Qed.

End Rejected.


Lemma unlexable_start_is_rejected_witness :
  @parse float64 float64_text " .5" = Err (UnexpectedInput ".5").
Proof.
  apply (@unlexable_start_is_rejected float64 float64_text " .5" "." "5");
    reflexivity.
Defined.


Lemma dangling_operator_is_incomplete_witness :
  @parse float64 float64_text ("1 + 2 " +:+ op_string Mul)
  = Err IncompleteExpression.
Proof.
  apply (@dangling_operator_is_incomplete float64 float64_text "1 + 2 "
           (Operation Add (Literal (Num64 "1")) (Literal (Num64 "2"))) Mul).
  reflexivity.
Defined.

(** ** Direct evaluation of texts *)

Section DirectTexts.
Context {NUM : Number} {TXT : NumberText NUM}.














Variable C : Ctx NUM.



End DirectTexts.





(** ** Evaluation on context objects *)

Section Evaluation.
Context {NUM : Number}.
Implicit Types (e l r : Expression NUM) (C : Ctx NUM) (O : Object NUM).

Lemma lookup_numbers O x :
  numbers O !! x
  = match O !! x with
    | Some (PNumber v) => Some v
    | _ => None
    end.
Proof.
  unfold numbers. etrans; [apply (lookup_omap (M := gmap string))|].
  unfold Object. destruct (O !! x) as [[v|]|]; reflexivity.
Qed.


(** A Roll is evaluated without the context. *)
Lemma calc_roll rnd dice sides dmod C C' st :
  calc rnd (Roll dice sides dmod) C st = calc rnd (Roll dice sides dmod) C' st.
Proof. reflexivity. Qed.

(** Within the limits of the engine and on names that are no members, the
    evaluation is [calc] on the numbers of the object. *)
Lemma evaluate_calc engine rnd e O st :
  Forall (fun spec => rolls_fit engine spec = true) (rolls_of e) ->
  (forall x, In x (refs_of e) -> O !! x <> Some PMember) ->
  evaluate engine rnd e O st
  = Returns (VNumber (fst (calc rnd e (numbers O) st)))
      (snd (calc rnd e (numbers O) st)).
Proof.
  revert st. induction e as [v | x | d s m | op l IHl r IHr]; intros st Hf Hn.
  - reflexivity.
  - cbn [evaluate calc fst snd]. unfold lookup_value.
    rewrite lookup_numbers.
    specialize (Hn x (or_introl eq_refl)).
    destruct (O !! x) as [[v|]|]; [reflexivity | contradiction | reflexivity].
  - cbn [evaluate]. cbn [rolls_of] in Hf.
    apply Forall_cons in Hf as [Hf _]. rewrite Hf.
    rewrite (calc_roll rnd d s m ∅ (numbers O)).
    destruct (calc rnd (Roll d s m) (numbers O) st). reflexivity.
  - cbn [rolls_of refs_of] in Hf, Hn. apply Forall_app in Hf as [Hfl Hfr].
    cbn [evaluate calc].
    rewrite IHl; [|exact Hfl | intros x Hx; apply Hn, in_or_app; auto].
    destruct (calc rnd l (numbers O) st) as [a st1]. cbn [fst snd].
    rewrite IHr; [|exact Hfr | intros x Hx; apply Hn, in_or_app; auto].
    destruct (calc rnd r (numbers O) st1) as [b st2]. cbn [fst snd].
    destruct op; reflexivity.
Qed.


(** A Roll beyond the limits throws, whatever comes after it. *)
Lemma evaluate_roll_throws engine rnd dice sides dmod O st :
  rolls_fit engine (dice, sides, dmod) = false ->
  evaluate engine rnd (Roll dice sides dmod) O st = RangeError.
Proof. intros H. cbn [evaluate]. rewrite H. reflexivity. Qed.

End Evaluation.
(** ** Dice parameters that are no digit strings *)

Section MalformedDice.
Context {NUM : Number} {TXT : NumberText NUM}.













End MalformedDice.



(** X15: calc reads the context object at the names of the expression
    only.  Two context objects whose lookups give the same at every name
    of the expression, a name that the lookup does not find counting as the
    number 0, give the same outcome: the same value, the same state of the
    random source and the same sink, or the same error. *)
Theorem calc_context_coincidence {NUM : Number} (engine : Engine)
    (rnd : nat -> num) (e : Expression NUM) (O1 O2 : Object NUM)
    (st : State NUM) :
  (forall x, In x (refs_of e) -> lookup_value O1 x = lookup_value O2 x) ->
  evaluate engine rnd e O1 st = evaluate engine rnd e O2 st.
Proof.
  revert st. induction e as [v | x | d s m | op l IHl r IHr]; intros st H.
  - reflexivity.
  - cbn [evaluate]. rewrite (H x (or_introl eq_refl)). reflexivity.
  - reflexivity.
  - cbn [evaluate refs_of] in *.
    rewrite IHl by (intros x Hx; apply H, in_or_app; auto).
    destruct (evaluate engine rnd l O2 st) as [a st1|]; [|reflexivity].
    rewrite IHr by (intros x Hx; apply H, in_or_app; auto).
    reflexivity.
Qed.

Lemma calc_context_coincidence_witness :
  @evaluate float64 small_engine half64 a_plus_c
    (object_literal ab_context) (0%nat, None)
  = @evaluate float64 small_engine half64 a_plus_c
      (object_literal ac_context) (0%nat, None).
Proof.
  apply (@calc_context_coincidence float64 small_engine half64 a_plus_c).
  intros x [<- | [<- | []]]; reflexivity.
Defined.
